(** * The concurrent inference dispatch engine of [bfcl_eval]

    A shallow embedding of [bfcl_eval/_llm_response_generation.py]:
    the job source ([get_involved_test_entries], [collect_test_cases]),
    the per-job retry loop ([multi_threaded_inference]), the completion
    loop of [generate_results] and its stall watchdog.

    Python dictionaries that are only read and written by key (a test
    case, a result) are finite maps from strings; nested JSON objects,
    whose iteration order is observable, are association lists.  Time
    stamps and durations are rationals: every float the code computes
    with here (second counts, multiples of one half) is one.  The
    behaviour of the collaborators outside the file (the inference
    handler, the clock, the shared stall event, the result writer) is
    supplied as a script of observations. *)

From Stdlib Require Import ZArith QArith Qround String Ascii List Lia Lqa.
From Stdlib Require Import Permutation Sorted.
From Stdlib Require Import Qminmax.
From stdpp Require Import base gmap strings list.

Local Set Warnings "-register-all".

(** ** Python values *)

Inductive pyval :=
| PNone
| PBool (b : bool)
| PInt (z : Z)
| PFloat (q : Q)
| PStr (s : string)
| PList (l : list pyval)
| PDict (d : list (string * pyval))
| PCallable (name : string)
| PEvent.

(** [bool(v)]: the truth value Python gives an object. *)
Definition truthy (v : pyval) : bool :=
  match v with
  | PNone => false
  | PBool b => b
  | PInt z => negb (z =? 0)%Z
  | PFloat q => negb (Qeq_bool q 0)
  | PStr s => negb (String.eqb s "")
  | PList l => match l with [] => false | _ => true end
  | PDict d => match d with [] => false | _ => true end
  | PCallable _ => true
  | PEvent => true
  end.

(** The exceptions the engine's own code can raise (as opposed to the
    ones the inference handler raises, see [exn]). *)
Inductive py_error :=
| KeyError (k : string)
| AssertionError
| TypeError
| AttributeError.

Inductive py_result (A : Type) :=
| Returned (a : A)
| Raised (e : py_error).
Arguments Returned {A} a.
Arguments Raised {A} e.

(** [d[k]] *)
Definition getitem (d : gmap string pyval) (k : string) : py_result pyval :=
  match d !! k with
  | Some v => Returned v
  | None => Raised (KeyError k)
  end.

(** [d.pop(k, None)]: the value (or [None]) and the dictionary without [k]. *)
Definition pop_default (k : string) (d : gmap string pyval)
  : pyval * gmap string pyval :=
  (default PNone (d !! k), delete k d).

(** [if v: d[k] = v] *)
Definition restore_if_truthy (k : string) (v : pyval) (d : gmap string pyval)
  : gmap string pyval :=
  if truthy v then <[k := v]> d else d.

(** ** Strings *)

(** [str.lower] on the bytes of the UTF-8 encoding.  Only the ASCII
    capitals are mapped; the patterns searched for below are ASCII, hold
    no [k] and never end in [i], so no other code point lowers into a
    match. *)
Definition lower_ascii (c : ascii) : ascii :=
  let n := nat_of_ascii c in
  if (65 <=? n)%nat && (n <=? 90)%nat then ascii_of_nat (n + 32) else c.

Fixpoint lower (s : string) : string :=
  match s with
  | EmptyString => EmptyString
  | String c r => String (lower_ascii c) (lower r)
  end.

(** [pat in s] for two strings. *)
Fixpoint str_in (pat s : string) : bool :=
  String.prefix pat s ||
  match s with
  | EmptyString => false
  | String _ r => str_in pat r
  end.

(** The mathematical reading of [pat in s]. *)
Definition Contains (pat s : string) : Prop :=
  exists pre post : string, s = pre +:+ pat +:+ post.

(** ** Failures of the inference handler *)

(** An [Exception] raised by [handler.inference]: [str(e)] and, where
    the exception object has one, its [status_code]. *)
Record exn := {
  exn_message : string;
  exn_status_code : option Z;
  exn_traceback : string;
}.

Definition RETRY_LIMIT : Z := 3.
Definition RETRY_DELAY : Z := 65.

(** [hasattr(e, "status_code") and e.status_code in {429, 503, 500}] *)
Definition status_code_transient (e : exn) : bool :=
  match exn_status_code e with
  | Some c => (c =? 429)%Z || (c =? 503)%Z || (c =? 500)%Z
  | None => false
  end.

(** The guard of the [if] at the head of the [except] block. *)
Definition is_transient (e : exn) : bool :=
  let error_str := lower (exn_message e) in
  str_in "rate limit reached" error_str
  || status_code_transient e
  || str_in "timeout" error_str
  || str_in "timed out" error_str
  || str_in "read timed out" error_str
  || str_in "负载已饱和" (exn_message e)
  || str_in "relay error" error_str.

(** ["timeout" in error_str or "timed out" in error_str] *)
Definition is_timeout (e : exn) : bool :=
  let error_str := lower (exn_message e) in
  str_in "timeout" error_str || str_in "timed out" error_str.

(** The content-filter test of the [else] branch, on [str(e)] as it is. *)
Definition is_content_filter (e : exn) : bool :=
  str_in "content_filter" (exn_message e)
  || str_in "content management policy" (exn_message e).

(** [error_type] of the [else] branch. *)
Definition error_type_of (e : exn) : pyval :=
  if is_content_filter e then PStr "content_filter" else PNone.

(** ** Retry policy *)

(** The [if active_count <= 6: ... else: ...] ladder. *)
Definition dynamic_delay (active_count : Z) : Z :=
  if (active_count <=? 6)%Z then
    if (active_count =? 1)%Z then 5
    else if (active_count =? 2)%Z then 10
    else if (active_count =? 3)%Z then 15
    else if (active_count =? 4)%Z then 20
    else if (active_count =? 5)%Z then 35
    else 45
  else RETRY_DELAY.

(** ** The per-job retry loop *)

(** What one call of [handler.inference] does. *)
Inductive outcome :=
| Success (result : pyval) (metadata : gmap string pyval)
| Failure (e : exn).

(** One pass through the [while True] loop, as the surroundings make it
    look: the handler's answer, the clock, the number of futures not
    yet done and the state of the shared stall event at each poll. *)
Record attempt := {
  att_outcome : outcome;
  att_clock : Q;
  att_active : Z;
  att_stall : nat -> bool;
  att_poke_clock : Q;
}.

(** The two messages the loop prints. *)
Inductive log_line :=
| LogTimeoutRetry (id : pyval)
| LogInferenceError (id : pyval) (message : string).

(** What the loop does to the outside world.  [EBackoff] records the
    value given to [dynamic_delay]; the sleeps that follow it are the
    calls of [time.sleep]. *)
Inductive event :=
| EInfer (test_case_copy : gmap string pyval)
| ECall (callback : string)
| ELog (line : log_line)
| EBackoff (delay : Z)
| ESleep (seconds : Q).

(** The state of one call of [multi_threaded_inference]: the test
    case, which is shared with the dispatcher and changed in place, the
    two counters, and what was done so far. *)
Record job_state := {
  test_case : gmap string pyval;
  retry_count : Z;
  rate_limit_count : Z;
  trace : list event;
}.

(** State and exceptions: a computation either returns or raises, and
    leaves the job state behind in both cases. *)
Definition M (A : Type) : Type := job_state -> py_result A * job_state.

#[global] Instance M_ret : MRet M := fun A a st => (Returned a, st).
#[global] Instance M_bind : MBind M := fun A B f m st =>
  match m st with
  | (Returned a, st') => f a st'
  | (Raised e, st') => (Raised e, st')
  end.

Definition raise {A : Type} (e : py_error) : M A := fun st => (Raised e, st).
Definition get_case : M (gmap string pyval) := fun st => (Returned (test_case st), st).
Definition set_case (tc : gmap string pyval) : M unit := fun st =>
  (Returned tt, {| test_case := tc; retry_count := retry_count st;
                   rate_limit_count := rate_limit_count st; trace := trace st |}).
Definition emit (evs : list event) : M unit := fun st =>
  (Returned tt, {| test_case := test_case st; retry_count := retry_count st;
                   rate_limit_count := rate_limit_count st; trace := trace st ++ evs |}).
Definition lift {A : Type} (r : py_result A) : M A := fun st => (r, st).

(** [test_case[k] = v] *)
Definition setitem (k : string) (v : pyval) : M unit :=
  tc ← get_case; set_case (<[k := v]> tc).

(** [test_case[k]] *)
Definition case_item (k : string) : M pyval :=
  tc ← get_case; lift (getitem tc k).

(** [f()] for a value found in the test case. *)
Definition call (f : pyval) : M unit :=
  match f with
  | PCallable name => emit [ECall name]
  | _ => raise TypeError
  end.

(** The local function [get_active_test_count]; [reading] is what the
    callback returns when it is there to be called. *)
Definition get_active_test_count (reading : Z) : M Z :=
  tc ← get_case;
  match tc !! "_get_active_count" with
  | Some f => call f;; mret reading
  | None => mret 999%Z
  end.

(** The head of the [try] block: the three handles are popped, the rest
    is copied, and each handle that is truthy is put back.  [deepcopy]
    is taken to succeed on what is left, the JSON of the test case. *)
Definition copy_test_case : M (gmap string pyval) :=
  tc ← get_case;
  let '(stall_event, tc) := pop_default "_stall_event" tc in
  let '(increment_rate_limit, tc) := pop_default "_increment_rate_limit" tc in
  let '(get_active_count, tc) := pop_default "_get_active_count" tc in
  let test_case_copy := tc in
  let tc := restore_if_truthy "_stall_event" stall_event tc in
  let tc := restore_if_truthy "_increment_rate_limit" increment_rate_limit tc in
  let tc := restore_if_truthy "_get_active_count" get_active_count tc in
  set_case tc;; mret test_case_copy.

(** [while elapsed < dynamic_delay: ...], polling the stall event.  The
    counter [fuel] bounds the iterations; [wait_fuel] is always enough
    (lemma [stall_wait_fuel]).  Returns whether the wait was cut short
    and the sleeps performed. *)
Fixpoint stall_wait (fuel : nat) (is_set : nat -> bool) (poll : nat)
    (elapsed delay : Q) : bool * list event :=
  match fuel with
  | O => (false, [])
  | S fuel' =>
    if negb (Qle_bool delay elapsed) then
      if is_set poll then (true, [])
      else
        let '(poked, sleeps) :=
          stall_wait fuel' is_set (S poll) (elapsed + (1 # 2)) delay in
        (poked, ESleep (Qmin (1 # 2) (delay - elapsed)) :: sleeps)
    else (false, [])
  end.

Definition wait_fuel (delay : Q) : nat := S (Z.to_nat (Qceiling (delay * 2))).

(** [is_set()] needs a [threading.Event]. *)
Definition as_event (v : pyval) : M unit :=
  match v with
  | PEvent => mret tt
  | _ => raise AttributeError
  end.

(** The sleep after a rate-limit failure, with or without a stall event. *)
Definition backoff_sleep (a : attempt) (delay : Z) : M unit :=
  tc ← get_case;
  let stall_event := default PNone (tc !! "_stall_event") in
  if truthy stall_event then
    (if negb (Qle_bool (inject_Z delay) 0) then as_event stall_event else mret tt);;
    let '(poked, sleeps) :=
      stall_wait (wait_fuel (inject_Z delay)) (att_stall a) 0 0 (inject_Z delay) in
    emit sleeps;;
    if poked then setitem "_last_poke_time" (PFloat (att_poke_clock a))
    else mret tt
  else emit [ESleep (inject_Z delay)].

Definition bump_counters : M unit := fun st =>
  (Returned tt, {| test_case := test_case st;
                   retry_count := (retry_count st + 1)%Z;
                   rate_limit_count := (rate_limit_count st + 1)%Z;
                   trace := trace st |}).

Definition get_rate_limit_count : M Z := fun st => (Returned (rate_limit_count st), st).

(** The transient branch of the [except] block; it ends in [continue]
    or falls through to the next iteration. *)
Definition on_transient (a : attempt) (e : exn) : M unit :=
  bump_counters;;
  n ← get_rate_limit_count;
  setitem "_rate_limit_count" (PInt n);;
  setitem "_last_retry_time" (PFloat (att_clock a));;
  tc ← get_case;
  match tc !! "_increment_rate_limit" with
  | Some f => call f
  | None => mret tt
  end;;
  if is_timeout e then
    id ← case_item "id";
    emit [ELog (LogTimeoutRetry id)]
  else
    active_count ← get_active_test_count (att_active a);
    let delay := dynamic_delay active_count in
    emit [EBackoff delay];;
    backoff_sleep a delay.

(** The [else] branch of the [except] block: the error result. *)
Definition on_fatal (e : exn) : M (gmap string pyval) :=
  (if is_content_filter e then mret tt
   else
     id ← case_item "id";
     emit [ELog (LogInferenceError id (exn_message e))]);;
  id ← case_item "id";
  mret (<["_error_type" := error_type_of e]>
        (<["traceback" := PStr (exn_traceback e)]>
        (<["result" := PStr ("Error during inference: " +:+ exn_message e)]>
        (<["id" := id]> ∅)))).

(** The code after the loop: the success result. *)
Definition result_to_write (result : pyval) (metadata : gmap string pyval)
  : M (gmap string pyval) :=
  id ← case_item "id";
  let base : gmap string pyval := <["result" := result]> (<["id" := id]> ∅) in
  let updated := metadata ∪ base in
  n ← get_rate_limit_count;
  mret (if (0 <? n)%Z then <["_rate_limit_count" := PInt n]> updated else updated).

(** The [while True] loop over the handler's successive answers.  [None]
    means the script ended while the loop was still asking for another
    attempt. *)
Fixpoint retry_loop (script : list attempt) (st : job_state)
  : option (py_result (gmap string pyval)) * job_state :=
  match script with
  | [] => (None, st)
  | a :: rest =>
    match (test_case_copy ← copy_test_case; emit [EInfer test_case_copy]) st with
    | (Raised err, st) => (Some (Raised err), st)
    | (Returned _, st) =>
      match att_outcome a with
      | Success result metadata =>
        let '(r, st) := result_to_write result metadata st in (Some r, st)
      | Failure e =>
        if is_transient e then
          match on_transient a e st with
          | (Raised err, st) => (Some (Raised err), st)
          | (Returned _, st) => retry_loop rest st
          end
        else
          let '(r, st) := on_fatal e st in (Some r, st)
      end
    end
  end.

(** The statements before the loop. *)
Definition prologue (start : Q) : M unit :=
  setitem "_processing_start_time" (PFloat start);;
  setitem "_rate_limit_count" (PInt 0);;
  function ← case_item "function";
  match function with
  | PList _ => mret tt
  | _ => raise AssertionError
  end.

Definition multi_threaded_inference (start : Q) (script : list attempt)
    (tc : gmap string pyval)
  : option (py_result (gmap string pyval)) * job_state :=
  let st := {| test_case := tc; retry_count := 0; rate_limit_count := 0;
               trace := [] |} in
  match prologue start st with
  | (Raised err, st) => (Some (Raised err), st)
  | (Returned _, st) => retry_loop script st
  end.

(** The number of times the handler was called. *)
Definition is_infer (ev : event) : bool :=
  match ev with EInfer _ => true | _ => false end.

Definition invocations (tr : list event) : nat :=
  length (List.filter is_infer tr).

(** ** The dispatcher: submission and the completion loop *)

(** The three handles [generate_results] stores in every test case
    before it submits it to the pool. *)
Definition submit (tc : gmap string pyval) : gmap string pyval :=
  <["_stall_event" := PEvent]>
    (<["_get_active_count" := PCallable "get_active_count"]>
    (<["_increment_rate_limit" := PCallable "increment_rate_limit"]> tc)).

(** What the pool needs to know to run one job: when its worker starts
    and what the handler and the surroundings do at each attempt. *)
Record job_run := {
  run_start : Q;
  run_script : list attempt;
}.

(** [hash(v)], which a dictionary asks of its keys: lists and
    dictionaries have none. *)
Definition hashable (v : pyval) : bool :=
  match v with
  | PList _ | PDict _ => false
  | _ => true
  end.

(** The submit loop, [for test_case in test_cases_total]: the handles
    are stored, the job is handed to the pool, and the identifier of
    the test case is looked up for [test_id_map] and made a key of
    [start_times].  The result is the list [futures], one future per
    test case submitted, and the exception that ended the loop if one
    did; the test case at which the loop raises has been submitted.  A
    future is [None] while its job has not come to an end. *)
Fixpoint futures (test_cases_total : list (gmap string pyval * job_run))
  : list (option (py_result (gmap string pyval))) * option py_error :=
  match test_cases_total with
  | [] => ([], None)
  | job :: rest =>
    let test_case := submit job.1 in
    let future :=
      (multi_threaded_inference (run_start job.2) (run_script job.2) test_case).1 in
    match getitem test_case "id" with
    | Raised err => ([future], Some err)
    | Returned id =>
      if hashable id then
        let '(fs, err) := futures rest in (future :: fs, err)
      else ([future], Some TypeError)
    end
  end.

(** [future.done()] *)
Definition is_done (future : option (py_result (gmap string pyval))) : bool :=
  match future with
  | Some _ => true
  | None => false
  end.

(** [v == s] for a string literal [s]. *)
Definition eq_str (v : pyval) (s : string) : bool :=
  match v with
  | PStr t => String.eqb t s
  | _ => false
  end.

(** The first clean-up of a result: count a content-filter error and
    drop the tag. *)
Definition count_error_type (result : gmap string pyval) (content_filter : Z)
  : gmap string pyval * Z :=
  match result !! "_error_type" with
  | Some tag =>
    (delete "_error_type" result,
     if eq_str tag "content_filter" then (content_filter + 1)%Z else content_filter)
  | None => (result, content_filter)
  end.

(** The fields of the second clean-up. *)
Definition tracking_fields : list string :=
  ["_rate_limit_count"; "_increment_rate_limit"; "_get_active_count";
   "_stall_event"; "_processing_start_time"].

(** [for field in [...]: if field in result: del result[field]] *)
Definition strip_tracking_fields (result : gmap string pyval) : gmap string pyval :=
  foldl (fun r field => match r !! field with
                        | Some _ => delete field r
                        | None => r
                        end) result tracking_fields.

(** What the completion loop keeps between completions: the counter
    shown as [CF], the time of the last completion, the number of
    completions and the stall event, which it clears. *)
Record dispatch_state := {
  error_counts_content_filter : Z;
  last_completion_time : Q;
  completed_count : Z;
  stall_event : bool;
}.

(** The two lines printed before the run is given up. *)
Inductive console_line :=
| CriticalError
| AbortingProgram.

(** What the completion loop does to the outside world: calls of
    [handler.write], prints and [sys.exit]. *)
Inductive dispatch_event :=
| DWrite (result : gmap string pyval)
| DPrint (line : console_line)
| DExit (status : Z).

(** Where the body of the completion loop raises, apart from a future
    that holds an exception: in the status display before the result
    is taken, in [handler.write], or in the bookkeeping and display
    after the write. *)
Inductive fault :=
| NoFault
| DisplayFault
| WriteFault
| TrackingFault.

(** A future handed out by [as_completed], with what the surroundings
    do while it is processed. *)
Record completion := {
  cmp_result : py_result (gmap string pyval);
  cmp_clock : Q;
  cmp_fault : fault;
}.

(** The [except Exception] block of the completion loop. *)
Definition abort : list dispatch_event :=
  [DPrint CriticalError; DPrint AbortingProgram; DExit 1].

(** The body of [for future in as_completed(futures)].  The boolean
    tells whether the loop goes on. *)
Definition process_completion (c : completion) (ds : dispatch_state)
  : dispatch_state * list dispatch_event * bool :=
  match cmp_fault c, cmp_result c with
  | DisplayFault, _ => (ds, abort, false)
  | _, Raised _ => (ds, abort, false)
  | f, Returned result =>
    let '(result, content_filter) :=
      count_error_type result (error_counts_content_filter ds) in
    let result := strip_tracking_fields result in
    let ds := {| error_counts_content_filter := content_filter;
                 last_completion_time := cmp_clock c;
                 completed_count := (completed_count ds + 1)%Z;
                 stall_event := false |} in
    match f with
    | NoFault => (ds, [DWrite result], true)
    | _ => (ds, DWrite result :: abort, false)
    end
  end.

(** How the loop ends: over all completions, or in [sys.exit]. *)
Inductive run_end :=
| Finished
| Exited (status : Z).

Fixpoint completion_loop (cs : list completion) (ds : dispatch_state)
  : run_end * dispatch_state * list dispatch_event :=
  match cs with
  | [] => (Finished, ds, [])
  | c :: rest =>
    let '(ds, evs, go_on) := process_completion c ds in
    if go_on then
      let '(e, ds, evs') := completion_loop rest ds in (e, ds, evs ++ evs')
    else (Exited 1, ds, evs)
  end.

Definition initial_dispatch_state (now : Q) : dispatch_state :=
  {| error_counts_content_filter := 0; last_completion_time := now;
     completed_count := 0; stall_event := false |}.

(** What [as_completed] yields: the futures that are done, in the order
    [order] in which they finish. *)
Definition as_completed (fs : list (option (py_result (gmap string pyval))))
    (order : list (nat * Q * fault)) : list completion :=
  omap (fun o =>
          match fs !! o.1.1 with
          | Some (Some r) =>
            Some {| cmp_result := r; cmp_clock := o.1.2; cmp_fault := o.2 |}
          | _ => None
          end) order.

(** How the thread-pool branch ends.  The submit loop and the
    completion loop run inside [with ThreadPoolExecutor]: whichever
    way the block is left, at its end, by [sys.exit] or by an
    exception of the submit loop, the executor first waits for every
    job submitted.  [Waiting] says that a job submitted has not come
    to an end: the branch is still in [as_completed] or in the
    executor's wait. *)
Inductive pool_end :=
| Returns
| Exits (status : Z)
| Raises (err : py_error)
| Waiting.

(** The thread-pool branch of [generate_results]: the submit loop, then
    the completion loop over the futures as they complete, then the
    way out of the [with] block. *)
Definition generate_results (now : Q) (jobs : list (gmap string pyval * job_run))
    (order : list (nat * Q * fault))
  : pool_end * dispatch_state * list dispatch_event :=
  let '(fs, err) := futures jobs in
  let all_done := forallb is_done fs in
  match err with
  | Some err =>
    (if all_done then Raises err else Waiting, initial_dispatch_state now, [])
  | None =>
    let '(e, ds, evs) :=
      completion_loop (as_completed fs order) (initial_dispatch_state now) in
    (if all_done then
       match e with
       | Finished => Returns
       | Exited status => Exits status
       end
     else Waiting, ds, evs)
  end.

(** The results [handler.write] was called with. *)
Definition written (evs : list dispatch_event) : list (gmap string pyval) :=
  omap (fun ev => match ev with DWrite r => Some r | _ => None end) evs.

(** ** The job source *)

#[global] Instance py_result_ret : MRet py_result := fun A a => Returned a.
#[global] Instance py_result_bind : MBind py_result := fun A B f m =>
  match m with
  | Returned a => f a
  | Raised e => Raised e
  end.

(** [for x in xs: ...] with a body that may raise. *)
Fixpoint for_each {A B : Type} (body : B -> A -> py_result B) (xs : list A) (acc : B)
  : py_result B :=
  match xs with
  | [] => Returned acc
  | x :: rest => acc ← body acc x; for_each body rest acc
  end.

(** The number a value stands for in a comparison, if it is one. *)
Definition as_number (v : pyval) : option Q :=
  match v with
  | PBool b => Some (if b then 1 else 0)%Q
  | PInt z => Some (inject_Z z)
  | PFloat q => Some q
  | _ => None
  end.

(** [a == b] *)
Fixpoint py_eqb (a b : pyval) : bool :=
  match a, b with
  | PNone, PNone => true
  | PStr x, PStr y => String.eqb x y
  | PList x, PList y =>
    (fix all2 (x y : list pyval) : bool :=
       match x, y with
       | [], [] => true
       | u :: x, v :: y => py_eqb u v && all2 x y
       | _, _ => false
       end) x y
  | PDict x, PDict y =>
    (length x =? length y)%nat &&
    forallb (fun kv => match (list_to_map y : gmap string pyval) !! kv.1 with
                       | Some v => py_eqb kv.2 v
                       | None => false
                       end) x
  | PCallable x, PCallable y => String.eqb x y
  | PEvent, PEvent => true
  | _, _ =>
    match as_number a, as_number b with
    | Some p, Some q => Qeq_bool p q
    | _, _ => false
    end
  end.

(** [v in l] for a list [l]. *)
Definition py_in (v : pyval) (l : list pyval) : bool := existsb (py_eqb v) l.

(** The elements a [for] loop over [v] visits. *)
Definition iterate (v : pyval) : py_result (list pyval) :=
  match v with
  | PList l => Returned l
  | PDict d => Returned (map (fun kv => PStr kv.1) d)
  | PStr s => Returned (map (fun c => PStr (String c EmptyString)) (list_ascii_of_string s))
  | _ => Raised TypeError
  end.

(** [v.items()] *)
Definition items (v : pyval) : py_result (list (string * pyval)) :=
  match v with
  | PDict d => Returned d
  | _ => Raised AttributeError
  end.

(** [func_doc["name"]] for an element of a function list. *)
Definition doc_name (func_doc : pyval) : py_result pyval :=
  match func_doc with
  | PDict d =>
    match (list_to_map d : gmap string pyval) !! "name" with
    | Some n => Returned n
    | None => Raised (KeyError "name")
    end
  | _ => Raised TypeError
  end.

(** The innermost loop of [process_multi_turn_test_case]: the first
    function whose name is [missed] is taken out of the list. *)
Fixpoint take_named (missed : pyval) (functions : list pyval)
  : py_result (option pyval * list pyval) :=
  match functions with
  | [] => Returned (None, [])
  | func_doc :: rest =>
    name ← doc_name func_doc;
    if py_eqb name missed then Returned (Some func_doc, rest)
    else
      r ← take_named missed rest;
      Returned (r.1, func_doc :: r.2)
  end.

(** [s.replace(old, new)] for a non-empty [old]; [skip] counts the
    characters of a match still to be passed over. *)
Fixpoint replace_from (old new : string) (skip : nat) (s : string) : string :=
  match s with
  | EmptyString => EmptyString
  | String c r =>
    match skip with
    | S k => replace_from old new k r
    | O =>
      if String.prefix old s
      then new +:+ replace_from old new (String.length old - 1) r
      else String c (replace_from old new 0 r)
    end
  end.

Definition replace (old new s : string) : string := replace_from old new 0 s.

Section JobSource.

(** [is_multi_turn], [sort_key] and the function documents read by
    [load_file] come from modules and files outside this one; they are
    parameters.  [key_lt] is the [<] of the sort keys. *)
Context {K : Type}.
Variable is_multi_turn : pyval -> bool.
Variable load_func_doc : pyval -> py_result (list pyval).
Variable sort_key : gmap string pyval -> K.
Variable key_lt : K -> K -> bool.

(** The body of the outer loop of [process_multi_turn_test_case]. *)
Definition process_entry (entry : gmap string pyval)
  : py_result (gmap string pyval) :=
  id ← getitem entry "id";
  if negb (is_multi_turn id) then Returned entry
  else
    involved_classes ← getitem entry "involved_classes";
    classes ← iterate involved_classes;
    functions ← for_each (fun acc func_collection =>
                            func_doc ← load_func_doc func_collection;
                            Returned (acc ++ func_doc)) classes [];
    match entry !! "missed_function" with
    | None => Returned (<["function" := PList functions]> entry)
    | Some missed_function =>
      turns ← items missed_function;
      r ← for_each
            (fun (acc : list (string * pyval) * list pyval) turn =>
               names ← iterate turn.2;
               r ← for_each
                     (fun (acc : list pyval * list pyval) missed_func_name =>
                        t ← take_named missed_func_name acc.2;
                        Returned (match t.1 with
                                  | Some func_doc => acc.1 ++ [func_doc]
                                  | None => acc.1
                                  end, t.2))
                     names ([], acc.2);
               Returned (acc.1 ++ [(turn.1, PList r.1)], r.2))
            turns ([], functions);
      Returned (<["missed_function" := PDict r.1]>
                  (<["function" := PList r.2]> entry))
    end.

Definition process_multi_turn_test_case (test_cases : list (gmap string pyval))
  : py_result (list (gmap string pyval)) :=
  for_each (fun acc entry => e ← process_entry entry; Returned (acc ++ [e]))
           test_cases [].

(** [sorted(..., key=sort_key)]: the stable sort.  An element goes in
    front of the first one whose key is not smaller than its own. *)
Fixpoint insert_sorted (x : gmap string pyval) (l : list (gmap string pyval))
  : list (gmap string pyval) :=
  match l with
  | [] => [x]
  | y :: rest =>
    if key_lt (sort_key y) (sort_key x) then y :: insert_sorted x rest
    else x :: y :: rest
  end.

Definition sorted (l : list (gmap string pyval)) : list (gmap string pyval) :=
  foldr insert_sorted [] l.

(** [[entry["id"] for entry in entries]] *)
Definition ids_of (entries : list (gmap string pyval)) : py_result (list pyval) :=
  for_each (fun acc entry => id ← getitem entry "id"; Returned (acc ++ [id]))
           entries [].

(** [{entry["id"] for entry in entries}]: the identifiers must be
    there and hashable; the set itself is only used for the log. *)
Definition id_set (entries : list (gmap string pyval)) : py_result unit :=
  for_each (fun _ entry =>
              id ← getitem entry "id";
              match id with
              | PList _ | PDict _ => Raised TypeError
              | _ => Returned tt
              end) entries tt.

(** The log of what was found: [t["id"].startswith(cat)] is evaluated
    for every test case once some result exists. *)
Definition log_existing (existing_ids : list pyval)
    (entries : list (gmap string pyval)) : py_result unit :=
  match existing_ids with
  | [] => Returned tt
  | _ =>
    for_each (fun _ t =>
                id ← getitem t "id";
                match id with
                | PStr _ => Returned tt
                | _ => Raised AttributeError
                end) entries tt
  end.

(** The result files under the model's result directory: the entries
    of each file that exists. *)
Variable result_files : string -> string -> option (list (gmap string pyval)).

(** The loop over [zip(all_test_categories, all_test_file_paths)]. *)
Definition existing_results (model_name : string)
    (all_test_categories all_test_file_paths : list string)
  : py_result (list (gmap string pyval)) :=
  let model_name_dir := replace "/" "_" model_name in
  for_each
    (fun acc cat_file =>
       match result_files model_name_dir (replace ".json" "_result.json" cat_file.2) with
       | Some category_results =>
         _ ← id_set category_results;
         Returned (acc ++ category_results)
       | None => Returned acc
       end)
    (zip all_test_categories all_test_file_paths) [].

(** The list comprehension that keeps the test cases without a result. *)
Definition without_results (existing_ids : list pyval)
    (entries : list (gmap string pyval))
  : py_result (list (gmap string pyval)) :=
  for_each (fun acc test_case =>
              id ← getitem test_case "id";
              Returned (if py_in id existing_ids then acc else acc ++ [test_case]))
           entries [].

Definition collect_test_cases (model_name : string)
    (all_test_categories all_test_file_paths : list string)
    (all_test_entries_involved : list (gmap string pyval))
  : py_result (list (gmap string pyval)) :=
  existing_result ← existing_results model_name all_test_categories all_test_file_paths;
  existing_ids ← ids_of existing_result;
  _ ← log_existing existing_ids all_test_entries_involved;
  test_cases_to_generate ← without_results existing_ids all_test_entries_involved;
  test_cases_to_generate ← process_multi_turn_test_case test_cases_to_generate;
  Returned (sorted test_cases_to_generate).

(** What [main] does with one model once the test cases are
    collected. *)
Inductive main_action :=
| ReportNothingToGenerate
| GenerateResults (test_cases_total : list (gmap string pyval)).

Definition main (model_name : string)
    (all_test_categories all_test_file_paths : list string)
    (all_test_entries_involved : list (gmap string pyval))
  : py_result main_action :=
  test_cases_total ← collect_test_cases model_name all_test_categories
                       all_test_file_paths all_test_entries_involved;
  if (length test_cases_total =? 0)%nat then Returned ReportNothingToGenerate
  else Returned (GenerateResults test_cases_total).

End JobSource.

(** ** The stall watchdog *)

(** The attributes the watchdog keeps on its own function object; each
    is unset until the first poke.  [stall_signal] is the shared
    event. *)
Record watchdog_state := {
  last_poke_time : option Z;
  poke_count : option Z;
  last_poke_timestamp : option Q;
  stall_signal : bool;
}.

Inductive watchdog_event :=
| WSleep (seconds : Q)
| WSet
| WClear.

(** What one round of the watchdog sees: the futures not yet done, the
    time since the last completion, and the clock at the moment of the
    poke. *)
Record watchdog_obs := {
  obs_active_count : Z;
  obs_time_since_last_completion : Q;
  obs_clock : Q;
}.

(** [int(x)]: truncation towards zero. *)
Definition py_int (x : Q) : Z := Z.quot (Qnum x) (Zpos (Qden x)).

(** The guard of the poke: the four nested [if]s. *)
Definition should_poke (o : watchdog_obs) (w : watchdog_state) : bool :=
  let active_count := obs_active_count o in
  let time_since_last_completion := obs_time_since_last_completion o in
  ((1 <=? active_count)%Z && (active_count <=? 8)%Z)
  && negb (Qle_bool time_since_last_completion 10)
  && (py_int time_since_last_completion mod 10 =? 0)%Z
  && match last_poke_time w with
     | None => true
     | Some t => negb (t =? py_int time_since_last_completion)%Z
     end.

(** One round of [while True] in [stall_watchdog]; the boolean tells
    whether the loop goes on. *)
Definition watchdog_round (o : watchdog_obs) (w : watchdog_state)
  : watchdog_state * list watchdog_event * bool :=
  let go_on := negb (obs_active_count o =? 0)%Z in
  if should_poke o w then
    ({| last_poke_time := Some (py_int (obs_time_since_last_completion o));
        poke_count := Some (default 0%Z (poke_count w) + 1)%Z;
        last_poke_timestamp := Some (obs_clock o);
        stall_signal := false |},
     [WSleep 1; WSet; WSleep (1 # 2); WClear], go_on)
  else (w, [WSleep 1], go_on).

(** The watchdog over the successive observations; [None] when they end
    before the active count has reached zero. *)
Fixpoint stall_watchdog (obs : list watchdog_obs) (w : watchdog_state)
  : option watchdog_state * list watchdog_event :=
  match obs with
  | [] => (None, [])
  | o :: rest =>
    let '(w, evs, go_on) := watchdog_round o w in
    if go_on then
      let '(r, evs') := stall_watchdog rest w in (r, evs ++ evs')
    else (Some w, evs)
  end.

Definition initial_watchdog_state : watchdog_state :=
  {| last_poke_time := None; poke_count := None;
     last_poke_timestamp := None; stall_signal := false |}.


(** ** The test entries of a run *)

(** [len(v)] *)
Definition py_len (v : pyval) : py_result nat :=
  match v with
  | PList l => Returned (length l)
  | PDict d => Returned (length d)
  | PStr s => Returned (String.length s)
  | _ => Raised TypeError
  end.

(** [x in v]: membership in a list, among the keys of a dictionary,
    which asks for a hashable [x], or as a substring. *)
Definition py_contains (x v : pyval) : py_result bool :=
  match v with
  | PList l => Returned (py_in x l)
  | PDict d =>
    match x with
    | PList _ | PDict _ => Raised TypeError
    | _ => Returned (existsb (fun kv : string * pyval => py_eqb x (PStr kv.1)) d)
    end
  | PStr s =>
    match x with
    | PStr t => Returned (str_in t s)
    | _ => Raised TypeError
    end
  | _ => Raised TypeError
  end.

Section TestEntries.

(** What the function reads from outside: the JSON of the file of test
    identifiers to generate, the mapping from categories to test files,
    the entries of a test file, and the parser of the category
    arguments, which gives the file paths and the categories. *)
Variable test_ids_to_generate : pyval.
Variable TEST_FILE_MAPPING : string -> option string.
Variable load_file : string -> py_result (list (gmap string pyval)).
Variable parse_test_category_argument :
  list string -> py_result (list string * list string).

(** [[entry for entry in load_file(...) if entry["id"] in test_ids]] *)
Definition entries_with_ids (test_ids : pyval) (entries : list (gmap string pyval))
  : py_result (list (gmap string pyval)) :=
  for_each (fun acc entry =>
              id ← getitem entry "id";
              found ← py_contains id test_ids;
              Returned (if found : bool then acc ++ [entry] else acc))
           entries [].

Definition get_involved_test_entries (test_category_args : list string)
    (run_ids : bool)
  : py_result (list string * list string * list (gmap string pyval)) :=
  if run_ids then
    categories ← items test_ids_to_generate;
    for_each
      (fun (acc : list string * list string * list (gmap string pyval)) category_ids =>
         let '(all_test_file_paths, all_test_categories, all_test_entries_involved) :=
           acc in
         let '(category, test_ids) := (category_ids : string * pyval) in
         n ← py_len test_ids;
         if (n =? 0)%nat then Returned acc
         else
           test_file_path ← match TEST_FILE_MAPPING category with
                            | Some path => Returned path
                            | None => Raised (KeyError category)
                            end;
           entries ← load_file test_file_path;
           selected ← entries_with_ids test_ids entries;
           Returned (all_test_file_paths ++ [test_file_path],
                     all_test_categories ++ [category],
                     all_test_entries_involved ++ selected))
      categories ([], [], [])
  else
    parsed ← parse_test_category_argument test_category_args;
    let '(all_test_file_paths, all_test_categories) :=
      (parsed : list string * list string) in
    all_test_entries_involved ←
      for_each (fun acc (category_file : string * string) =>
                  entries ← load_file category_file.2;
                  Returned (acc ++ entries))
               (zip all_test_categories all_test_file_paths) [];
    Returned (all_test_file_paths, all_test_categories, all_test_entries_involved).

End TestEntries.

(** * Vocabulary of the statements *)

(** What the loop relies on in a test case: an identifier and the three
    handles [generate_results] has stored. *)
Definition job_ready (id : pyval) (tc : gmap string pyval) : Prop :=
  tc !! "id" = Some id
  /\ tc !! "_stall_event" = Some PEvent
  /\ tc !! "_get_active_count" = Some (PCallable "get_active_count")
  /\ tc !! "_increment_rate_limit" = Some (PCallable "increment_rate_limit").

(** The copy given to the handler: the test case without the handles. *)
Definition job_copy (tc : gmap string pyval) : gmap string pyval :=
  delete "_get_active_count"
    (delete "_increment_rate_limit" (delete "_stall_event" tc)).

(** The job state after some more events. *)
Definition with_trace (st : job_state) (evs : list event) : job_state :=
  {| test_case := test_case st; retry_count := retry_count st;
     rate_limit_count := rate_limit_count st; trace := trace st ++ evs |}.

(** The success result: the handler's metadata over the identifier and
    the payload, and the retry counter when it is positive. *)
Definition success_result (id result : pyval) (metadata : gmap string pyval)
    (n : Z) : gmap string pyval :=
  let updated := metadata ∪ <["result" := result]> (<["id" := id]> ∅) in
  if (0 <? n)%Z then <["_rate_limit_count" := PInt n]> updated else updated.

(** The error result of the [else] branch. *)
Definition error_result (id : pyval) (e : exn) : gmap string pyval :=
  <["_error_type" := error_type_of e]>
    (<["traceback" := PStr (exn_traceback e)]>
    (<["result" := PStr ("Error during inference: " +:+ exn_message e)]>
    (<["id" := id]> ∅))).

(** What the [else] branch prints. *)
Definition fatal_log (id : pyval) (e : exn) : list event :=
  if is_content_filter e then []
  else [ELog (LogInferenceError id (exn_message e))].

(** The wait after a failure that is not a timeout. *)
Definition backoff_wait (a : attempt) : bool * list event :=
  let delay := inject_Z (dynamic_delay (att_active a)) in
  stall_wait (wait_fuel delay) (att_stall a) 0 0 delay.

(** What happens between a transient failure and the next attempt. *)
Definition transient_events (id : pyval) (a : attempt) (e : exn) : list event :=
  ECall "increment_rate_limit" ::
  if is_timeout e then [ELog (LogTimeoutRetry id)]
  else ECall "get_active_count" :: EBackoff (dynamic_delay (att_active a))
       :: (backoff_wait a).2.

(** The job state when the next attempt starts. *)
Definition after_transient (id : pyval) (a : attempt) (e : exn) (st : job_state)
  : job_state :=
  let n := (rate_limit_count st + 1)%Z in
  let tc := <["_last_retry_time" := PFloat (att_clock a)]>
              (<["_rate_limit_count" := PInt n]> (test_case st)) in
  {| test_case :=
       if negb (is_timeout e) && (backoff_wait a).1
       then <["_last_poke_time" := PFloat (att_poke_clock a)]> tc else tc;
     retry_count := (retry_count st + 1)%Z;
     rate_limit_count := n;
     trace := trace st ++ EInfer (job_copy (test_case st)) :: transient_events id a e |}.

(** The time spent in [time.sleep]. *)
Fixpoint slept (evs : list event) : Q :=
  match evs with
  | [] => 0
  | ESleep d :: rest => d + slept rest
  | _ :: rest => slept rest
  end.

(** The values given to [dynamic_delay]. *)
Fixpoint backoffs (evs : list event) : list Z :=
  match evs with
  | [] => []
  | EBackoff d :: rest => d :: backoffs rest
  | _ :: rest => backoffs rest
  end.

(** An attempt ends the loop when the handler succeeds or fails with an
    error that is not transient. *)
Definition terminal (a : attempt) : bool :=
  match att_outcome a with
  | Success _ _ => true
  | Failure e => negb (is_transient e)
  end.

(** The job state after a run of transient failures. *)
Definition after_attempt (id : pyval) (st : job_state) (a : attempt) : job_state :=
  match att_outcome a with
  | Failure e => after_transient id a e st
  | Success _ _ => st
  end.

Definition after_failures (id : pyval) (fails : list attempt) (st : job_state)
  : job_state :=
  foldl (after_attempt id) st fails.

(** The job state when the loop is entered. *)
Definition initial_job_state (start : Q) (tc : gmap string pyval) : job_state :=
  {| test_case := <["_rate_limit_count" := PInt 0]>
                    (<["_processing_start_time" := PFloat start]> tc);
     retry_count := 0; rate_limit_count := 0; trace := [] |}.

(** Events that are calls of [time.sleep], and events that are not. *)
Definition is_sleep (ev : event) : Prop :=
  match ev with ESleep _ => True | _ => False end.

(** The failures the retry policy calls transient, in words: one of the
    three status codes, the rate-limit phrase, a timeout phrase, or one
    of the two overload strings of a provider. *)
Definition StatusTransient (e : exn) : Prop :=
  exn_status_code e = Some 429%Z \/ exn_status_code e = Some 500%Z
  \/ exn_status_code e = Some 503%Z.

Definition RateLimitPhrasing (e : exn) : Prop :=
  Contains "rate limit reached" (lower (exn_message e)).

Definition TimeoutPhrasing (e : exn) : Prop :=
  Contains "timeout" (lower (exn_message e))
  \/ Contains "timed out" (lower (exn_message e)).

Definition OverloadString (e : exn) : Prop :=
  Contains "负载已饱和" (exn_message e)
  \/ Contains "relay error" (lower (exn_message e)).

Definition Transient (e : exn) : Prop :=
  StatusTransient e \/ RateLimitPhrasing e \/ TimeoutPhrasing e \/ OverloadString e.

Definition ContentPolicy (e : exn) : Prop :=
  Contains "content_filter" (exn_message e)
  \/ Contains "content management policy" (exn_message e).

(** A test case, an attempt in quiet surroundings and a few answers of
    the handler, for the examples. *)
Definition example_case : gmap string pyval :=
  <["id" := PStr "simple_0"]> (<["function" := PList []]> ∅).

Definition example_attempt (o : outcome) : attempt :=
  {| att_outcome := o; att_clock := 0; att_active := 1;
     att_stall := fun _ => false; att_poke_clock := 0 |}.

Definition rate_limited : exn :=
  {| exn_message := "Rate limit reached for requests";
     exn_status_code := Some 429%Z; exn_traceback := "" |}.

Definition invalid_json : exn :=
  {| exn_message := "Expecting value: line 1 column 1 (char 0)";
     exn_status_code := None; exn_traceback := "" |}.

Definition filtered : exn :=
  {| exn_message := "The response was filtered due to the prompt triggering the content management policy";
     exn_status_code := Some 400%Z; exn_traceback := "" |}.

Definition filtered_overloaded : exn :=
  {| exn_message := "content_filter";
     exn_status_code := Some 500%Z; exn_traceback := "" |}.

Definition answer : outcome := Success (PStr "[f(x=1)]") ∅.

(** The identifier of the test case submitted as number [i]. *)
Definition submitted_id (jobs : list (gmap string pyval * job_run)) (i : nat)
  : option pyval :=
  job ← jobs !! i; job.1 !! "id".

(** A test case the submit loop gets past: its identifier is there and
    can be a key of [start_times]. *)
Definition has_key_id (job : gmap string pyval * job_run) : Prop :=
  exists id, job.1 !! "id" = Some id /\ hashable id = true.

(** A test case the dispatcher admits: the submit loop gets past it and
    it has a function list. *)
Definition admitted (job : gmap string pyval * job_run) : Prop :=
  exists id fs,
    job.1 !! "id" = Some id /\ hashable id = true
    /\ job.1 !! "function" = Some (PList fs).

(** The future the pool gives for a test case. *)
Definition future_of (job : gmap string pyval * job_run)
  : option (py_result (gmap string pyval)) :=
  (multi_threaded_inference (run_start job.2) (run_script job.2) (submit job.1)).1.

(** An attempt that leaves the identifier of the test case in the
    result: a failure, or a success whose metadata brings no ["id"]. *)
Definition keeps_id (a : attempt) : Prop :=
  match att_outcome a with
  | Success _ metadata => metadata !! "id" = None
  | Failure _ => True
  end.

(** A completion whose future holds a result. *)
Definition written_completion (result : gmap string pyval) (clock : Q) (f : fault)
  : completion :=
  {| cmp_result := Returned result; cmp_clock := clock; cmp_fault := f |}.

(** A failure that speaks of the rate limit in other words than the
    ones the code looks for. *)
Definition rate_limit_exceeded : exn :=
  {| exn_message := "Rate limit exceeded, please retry later";
     exn_status_code := None; exn_traceback := "" |}.

(** The invariant of a job without the active-count callback: the
    callback stays absent and every delay chosen so far is the flat
    one. *)
Definition flat (st : job_state) : Prop :=
  test_case st !! "_get_active_count" = None
  /\ Forall (fun d => d = RETRY_DELAY) (backoffs (trace st)).

(** [triple I m Q]: [m] keeps the invariant [I], whether it returns or
    raises, and what it returns satisfies [Q]. *)
Definition triple {A : Type} (I : job_state -> Prop) (m : M A) (Q : A -> Prop)
  : Prop :=
  forall st r st', m st = (r, st') -> I st ->
    I st' /\ match r with Returned a => Q a | Raised _ => True end.

(** A test case as it is without the dispatcher: an identifier and
    none of the three handles. *)
Definition bare (id : pyval) (tc : gmap string pyval) : Prop :=
  tc !! "id" = Some id
  /\ tc !! "_stall_event" = None
  /\ tc !! "_get_active_count" = None
  /\ tc !! "_increment_rate_limit" = None.

(** The calls of [time.sleep]. *)
Fixpoint sleeps (evs : list event) : list Q :=
  match evs with
  | [] => []
  | ESleep d :: rest => d :: sleeps rest
  | _ :: rest => sleeps rest
  end.

(** The job state after a rate-limit failure of such a test case. *)
Definition after_flat_backoff (a : attempt) (st : job_state) : job_state :=
  {| test_case := <["_last_retry_time" := PFloat (att_clock a)]>
                    (<["_rate_limit_count" := PInt (rate_limit_count st + 1)]>
                       (test_case st));
     retry_count := (retry_count st + 1)%Z;
     rate_limit_count := (rate_limit_count st + 1)%Z;
     trace := trace st ++ [EInfer (test_case st); EBackoff RETRY_DELAY;
                           ESleep (inject_Z RETRY_DELAY)] |}.



(** Processing a completion raises when the future holds an exception
    or when something in the body of the loop does. *)
Definition raises (c : completion) : bool :=
  match cmp_fault c, cmp_result c with
  | NoFault, Returned _ => false
  | _, _ => true
  end.

(** The result as it reaches [handler.write]. *)
Definition cleaned (result : gmap string pyval) : gmap string pyval :=
  strip_tracking_fields (count_error_type result 0).1.

(** The calls of [handler.write] made for a completion. *)
Definition writes_of (c : completion) : list (gmap string pyval) :=
  match cmp_fault c, cmp_result c with
  | DisplayFault, _ => []
  | _, Returned result => [cleaned result]
  | _, Raised _ => []
  end.

(** [entry["id"]], with [None] standing in where there is none. *)
Definition get_id (entry : gmap string pyval) : pyval := default PNone (entry !! "id").

(** Identifiers as the test files have them. *)
Definition has_string_id (entry : gmap string pyval) : Prop :=
  exists s, entry !! "id" = Some (PStr s).

(** The test cases still to be generated. *)
Definition pending (existing_ids : list pyval) (entries : list (gmap string pyval))
  : list (gmap string pyval) :=
  List.filter (fun e => negb (py_in (get_id e) existing_ids)) entries.

(** The result entries on file for the categories of the run. *)
Definition persisted (result_files : string -> string -> option (list (gmap string pyval)))
    (model_name : string) (all_test_categories all_test_file_paths : list string)
  : list (gmap string pyval) :=
  concat (omap (fun cat_file : string * string =>
                  result_files (replace "/" "_" model_name)
                               (replace ".json" "_result.json" cat_file.2))
               (zip all_test_categories all_test_file_paths)).

(** [x] may stand before [y] in sorted order: [y]'s key is not smaller. *)
Definition key_le {K : Type} (sort_key : gmap string pyval -> K)
    (key_lt : K -> K -> bool) (x y : gmap string pyval) : Prop :=
  key_lt (sort_key y) (sort_key x) = false.

(** Test cases told apart by a number, their sort key, and a result
    directory with one result on file, for the example of a resumed
    run. *)
Definition numbered (id : string) (number : nat) : gmap string pyval :=
  <["id" := PStr id]> (<["number" := PInt (Z.of_nat number)]> ∅).

Definition number_of (entry : gmap string pyval) : nat :=
  match entry !! "number" with
  | Some (PInt z) => Z.to_nat z
  | _ => 0
  end.

Definition one_result_file (dir file : string)
  : option (list (gmap string pyval)) :=
  if String.eqb file "simple_result.json"
  then Some [<["id" := PStr "simple_1"]> ∅] else None.

(** A dictionary free of the three handles of the dispatcher. *)
Definition no_handles (d : gmap string pyval) : Prop :=
  d !! "_stall_event" = None
  /\ d !! "_increment_rate_limit" = None
  /\ d !! "_get_active_count" = None.

Definition handler_sees_no_handles (ev : event) : Prop :=
  match ev with
  | EInfer test_case_copy => no_handles test_case_copy
  | _ => True
  end.

(** An invariant of the job state that only looks at the trace. *)
Definition traced (P : event -> Prop) (st : job_state) : Prop :=
  Forall P (trace st).

(** The keys [multi_threaded_inference] writes in the test case. *)
Definition bookkeeping_keys : list string :=
  ["_processing_start_time"; "_rate_limit_count"; "_last_retry_time";
   "_last_poke_time"; "_stall_event"; "_increment_rate_limit";
   "_get_active_count"].

(** The invariant that key [k] holds [v]. *)
Definition holds (k : string) (v : option pyval) (st : job_state) : Prop :=
  test_case st !! k = v.

(** The number of calls of the callback [name]. *)
Definition is_call (name : string) (ev : event) : bool :=
  match ev with ECall f => bool_decide (f = name) | _ => false end.

Definition calls (name : string) (tr : list event) : nat :=
  length (List.filter (is_call name) tr).

(** The transient failures at the head of a script: the attempts before
    the first one that ends the loop. *)
Fixpoint transient_prefix (script : list attempt) : list attempt :=
  match script with
  | [] => []
  | a :: rest => if terminal a then [] else a :: transient_prefix rest
  end.

(** The record of a failed job as it is written. *)
Definition error_record (id : pyval) (e : exn) : gmap string pyval :=
  <["traceback" := PStr (exn_traceback e)]>
    (<["result" := PStr ("Error during inference: " +:+ exn_message e)]>
    (<["id" := id]> ∅)).

(** A completion whose result carries the content-filter tag. *)
Definition content_filtered (c : completion) : bool :=
  match cmp_result c with
  | Returned result =>
    match result !! "_error_type" with
    | Some tag => eq_str tag "content_filter"
    | None => false
    end
  | Raised _ => false
  end.

(** The number of times the watchdog has set the stall event. *)
Definition is_set (ev : watchdog_event) : bool :=
  match ev with WSet => true | _ => false end.

Definition pokes (evs : list watchdog_event) : nat := length (List.filter is_set evs).

(** The rounds of the watchdog: one sleep of a second opens each. *)
Definition is_round (ev : watchdog_event) : bool :=
  match ev with WSleep d => Qeq_bool d 1 | _ => false end.

Definition rounds (evs : list watchdog_event) : nat := length (List.filter is_round evs).

(** The loops of [process_multi_turn_test_case], by name: the function
    documents of the involved classes, the names of one turn taken out
    of the function list, and the same for every turn. *)
Definition load_all (load_func_doc : pyval -> py_result (list pyval))
    (classes : list pyval) : py_result (list pyval) :=
  for_each (fun acc func_collection =>
              func_doc ← load_func_doc func_collection;
              Returned (acc ++ func_doc)) classes [].

Definition hold_out_names (names : list pyval) (acc : list pyval * list pyval)
  : py_result (list pyval * list pyval) :=
  for_each (fun (acc : list pyval * list pyval) missed_func_name =>
              t ← take_named missed_func_name acc.2;
              Returned (match t.1 with
                        | Some func_doc => acc.1 ++ [func_doc]
                        | None => acc.1
                        end, t.2))
           names acc.

Definition hold_out_turns (turns : list (string * pyval))
    (acc : list (string * pyval) * list pyval)
  : py_result (list (string * pyval) * list pyval) :=
  for_each (fun (acc : list (string * pyval) * list pyval) turn =>
              names ← iterate turn.2;
              r ← hold_out_names names ([], acc.2);
              Returned (acc.1 ++ [(turn.1, PList r.1)], r.2))
           turns acc.

(** The function documents held out in the turns of a
    [missed_function] dictionary. *)
Definition held_out (turns : list (string * pyval)) : list pyval :=
  concat (map (fun t : string * pyval =>
                 match t.2 with PList l => l | _ => [] end) turns).

(** The same turns with nothing held out. *)
Definition emptied (turns : list (string * pyval)) : list (string * pyval) :=
  map (fun t : string * pyval => (t.1, PList [])) turns.

(** A function document with a string for a name. *)
Definition named (func_doc : pyval) : Prop :=
  exists s, doc_name func_doc = Returned (PStr s).

Definition is_dict (v : pyval) : Prop := exists d, v = PDict d.

(** A multi-turn entry of the missed-function kind: one class with the
    documents of [f] and [g], and [g] held out for turn 1. *)
Definition named_doc (name : string) : pyval := PDict [("name", PStr name)].

Definition miss_func_case : gmap string pyval :=
  <["id" := PStr "multi_turn_miss_func_0"]>
    (<["involved_classes" := PList [PStr "A"]]>
    (<["missed_function" := PDict [("1", PList [PStr "g"])]]> ∅)).

Definition miss_func_processed : gmap string pyval :=
  <["missed_function" := PDict [("1", PList [named_doc "g"])]]>
    (<["function" := PList [named_doc "f"]]> miss_func_case).

(** A category of the file of test identifiers that asks for nothing. *)
Definition asks_nothing (category_ids : string * pyval) : bool :=
  match py_len category_ids.2 with
  | Returned n => (n =? 0)%nat
  | Raised _ => false
  end.

(** An entry whose identifier is among [test_ids]. *)
Definition asked_for (test_ids : pyval) (entry : gmap string pyval) : bool :=
  match entry !! "id" with
  | Some id =>
    match py_contains id test_ids with
    | Returned found => found
    | Raised _ => false
    end
  | None => false
  end.

(** A file of test identifiers that asks for one entry of [simple] and
    for nothing of a category the mapping does not know. *)
Definition ids_to_generate_example : pyval :=
  PDict [("simple", PList [PStr "simple_1"]); ("unknown", PList [])].

Definition file_mapping_example (category : string) : option string :=
  if String.eqb category "simple" then Some "simple.json" else None.

(** The copies of the test case handed to [handler.inference], in the
    order of the attempts. *)
Definition copies (tr : list event) : list (gmap string pyval) :=
  omap (fun ev => match ev with EInfer c => Some c | _ => None end) tr.

(** * Properties *)

(** ** Substrings *)

Lemma append_cons (c : ascii) (a b : string) :
  String c a +:+ b = String c (a +:+ b).
Proof. reflexivity. Qed.

Lemma append_nil (b : string) : EmptyString +:+ b = b.
Proof. reflexivity. Qed.

Lemma prefix_spec (p s : string) :
  String.prefix p s = true <-> exists post : string, s = p +:+ post.
Proof.
  revert s. induction p as [|c p IH]; intros s.
  - destruct s; simpl; (split; [intros _; eexists; reflexivity | reflexivity]).
  - destruct s as [|d s]; simpl.
    + split; [discriminate | intros [post H]; discriminate].
    + destruct (Ascii.ascii_dec c d) as [->|Hne].
      * rewrite IH. split; intros [post H]; exists post.
        -- now rewrite H.
        -- now injection H.
      * split; [discriminate |].
        intros [post H]. injection H as H1 _. congruence.
Qed.

Lemma str_in_cons (pat : string) (c : ascii) (s : string) :
  str_in pat (String c s) = String.prefix pat (String c s) || str_in pat s.
Proof. reflexivity. Qed.

Lemma str_in_spec (pat s : string) : str_in pat s = true <-> Contains pat s.
Proof.
  unfold Contains. split.
  - induction s as [|c s IH].
    + cbn [str_in]. rewrite orb_false_r. intros H.
      apply prefix_spec in H as [post H]. exists EmptyString, post. exact H.
    + rewrite str_in_cons, orb_true_iff. intros [H|H].
      * apply prefix_spec in H as [post H]. exists EmptyString, post. exact H.
      * destruct (IH H) as (pre & post & E).
        exists (String c pre), post. rewrite append_cons. now rewrite E.
  - intros (pre & post & E). revert s E.
    induction pre as [|c pre IH]; intros s E.
    + assert (P : String.prefix pat s = true)
        by (apply prefix_spec; exists post; exact E).
      destruct s; [cbn [str_in] | rewrite str_in_cons]; now rewrite P.
    + rewrite append_cons in E. subst s. rewrite str_in_cons. apply orb_true_iff. right.
      apply IH. reflexivity.
Qed.

Lemma str_in_false (pat s : string) : str_in pat s = false <-> ~ Contains pat s.
Proof.
  rewrite <- str_in_spec. destruct (str_in pat s); split; congruence.
Qed.

(** ** The retry loop on a job the dispatcher has submitted *)

Lemma job_ready_submit (id : pyval) (raw : gmap string pyval) :
  raw !! "id" = Some id -> job_ready id (submit raw).
Proof.
  intros H. unfold job_ready, submit. repeat split; by simplify_map_eq.
Qed.

Lemma copy_test_case_ready (id : pyval) (st : job_state) :
  job_ready id (test_case st) ->
  copy_test_case st = (Returned (job_copy (test_case st)), st).
Proof.
  destruct st as [tc rc rl tr]. simpl. intros (Hid & Hse & Hgac & Hinc).
  unfold copy_test_case, mbind, M_bind, get_case, set_case, pop_default,
    restore_if_truthy, mret, M_ret, job_copy. simpl.
  rewrite Hse. rewrite !lookup_delete_ne by done. rewrite Hinc, Hgac. simpl.
  do 2 f_equal. apply map_eq. intros k.
  destruct (decide (k = "_get_active_count")) as [->|?];
    [by simplify_map_eq|].
  destruct (decide (k = "_increment_rate_limit")) as [->|?];
    [by simplify_map_eq|].
  destruct (decide (k = "_stall_event")) as [->|?];
    [by simplify_map_eq|].
  by simplify_map_eq.
Qed.

Lemma dynamic_delay_pos (n : Z) : (0 < dynamic_delay n)%Z.
Proof.
  unfold dynamic_delay, RETRY_DELAY. repeat case_match; lia.
Qed.

Lemma job_ready_after_transient id a e st :
  job_ready id (test_case st) -> job_ready id (test_case (after_transient id a e st)).
Proof.
  intros (H1 & H2 & H3 & H4). unfold after_transient, job_ready. simpl.
  destruct (negb (is_timeout e) && (backoff_wait a).1); repeat split;
    by simplify_map_eq.
Qed.

Arguments stall_wait : simpl never.
Arguments dynamic_delay : simpl never.
Arguments Qle_bool : simpl never.
Arguments inject_Z : simpl never.

Ltac monad_step :=
  unfold mbind, M_bind, mret, M_ret, bump_counters, get_rate_limit_count,
    setitem, get_case, set_case, call, case_item, lift, getitem,
    get_active_test_count, backoff_sleep, emit, as_event, raise in *;
  simpl in *.

Ltac run_monad := repeat progress monad_step.

Ltac run_lookups :=
  repeat first
    [ progress run_monad
    | rewrite lookup_insert_ne by done
    | match goal with
      | H : ?m !! ?k = Some _ |- context [?m !! ?k] => rewrite H
      end ].

Lemma retry_loop_success id a rest st result metadata :
  job_ready id (test_case st) ->
  att_outcome a = Success result metadata ->
  retry_loop (a :: rest) st =
  (Some (Returned (success_result id result metadata (rate_limit_count st))),
   with_trace st [EInfer (job_copy (test_case st))]).
Proof.
  intros R Ha. cbn [retry_loop]. unfold mbind at 1. unfold M_bind.
  rewrite (copy_test_case_ready id st R). unfold emit. rewrite Ha.
  unfold result_to_write. destruct R as (Hid & _). run_lookups. reflexivity.
Qed.

Lemma retry_loop_fatal id a rest st e :
  job_ready id (test_case st) ->
  att_outcome a = Failure e -> is_transient e = false ->
  retry_loop (a :: rest) st =
  (Some (Returned (error_result id e)),
   with_trace st (EInfer (job_copy (test_case st)) :: fatal_log id e)).
Proof.
  intros R Ha Ht. cbn [retry_loop]. unfold mbind at 1. unfold M_bind.
  rewrite (copy_test_case_ready id st R). unfold emit. rewrite Ha, Ht.
  unfold on_fatal, fatal_log, with_trace. destruct R as (Hid & _).
  destruct (is_content_filter e) eqn:Hc; run_lookups.
  - reflexivity.
  - rewrite <- app_assoc. reflexivity.
Qed.

Lemma retry_loop_transient id a rest st e :
  job_ready id (test_case st) ->
  att_outcome a = Failure e -> is_transient e = true ->
  retry_loop (a :: rest) st = retry_loop rest (after_transient id a e st).
Proof.
  intros R Ha Ht. cbn [retry_loop]. unfold mbind at 1. unfold M_bind.
  rewrite (copy_test_case_ready id st R). unfold emit. rewrite Ha, Ht.
  destruct R as (Hid & Hse & Hgac & Hinc).
  assert (Hpos : Qle_bool (inject_Z (dynamic_delay (att_active a))) 0 = false).
  { apply not_true_is_false. rewrite Qle_bool_iff.
    pose proof (dynamic_delay_pos (att_active a)) as P.
    intros Q. change 0%Q with (inject_Z 0) in Q. rewrite <- Zle_Qle in Q. lia. }
  unfold on_transient, after_transient, transient_events, backoff_wait.
  destruct (is_timeout e) eqn:Hto; run_lookups.
  - rewrite <- !app_assoc. reflexivity.
  - rewrite Hpos. simpl.
    destruct (stall_wait _ _ _ _ _) as [poked sleeps]. simpl.
    destruct poked; run_lookups; rewrite <- !app_assoc; reflexivity.
Qed.

(** ** The interruptible wait *)

Lemma stall_wait_unfold fuel is_set poll elapsed delay :
  stall_wait (S fuel) is_set poll elapsed delay =
  if negb (Qle_bool delay elapsed) then
    if is_set poll then (true, [])
    else
      let '(poked, sleeps) :=
        stall_wait fuel is_set (S poll) (elapsed + (1 # 2)) delay in
      (poked, ESleep (Qmin (1 # 2) (delay - elapsed)) :: sleeps)
  else (false, []).
Proof. reflexivity. Qed.

Lemma Qle_bool_false (x y : Q) : Qle_bool x y = false <-> (y < x)%Q.
Proof.
  rewrite <- not_true_iff_false, Qle_bool_iff. split.
  - apply Qnot_le_lt.
  - apply Qlt_not_le.
Qed.

(** Once the fuel covers the remaining half seconds, more fuel changes
    nothing: the loop stops on its own test. *)
Lemma stall_wait_fuel fuel is_set poll elapsed delay :
  ((delay - elapsed) * 2 <= inject_Z (Z.of_nat fuel))%Q ->
  stall_wait (S fuel) is_set poll elapsed delay =
  stall_wait fuel is_set poll elapsed delay.
Proof.
  revert poll elapsed. induction fuel as [|fuel IH]; intros poll elapsed H.
  - rewrite stall_wait_unfold.
    destruct (Qle_bool delay elapsed) eqn:E; [reflexivity|].
    apply Qle_bool_false in E. exfalso.
    change (inject_Z (Z.of_nat 0)) with 0%Q in H. lra.
  - rewrite (stall_wait_unfold (S fuel)),
      (stall_wait_unfold fuel is_set poll elapsed delay).
    destruct (Qle_bool delay elapsed) eqn:E; [reflexivity|]. simpl.
    destruct (is_set poll); [reflexivity|].
    rewrite IH; [reflexivity|].
    rewrite Nat2Z.inj_succ in H. unfold Z.succ in H.
    rewrite inject_Z_plus in H. change (inject_Z 1) with 1%Q in H. lra.
Qed.

Lemma wait_fuel_enough (delay : Q) :
  (delay * 2 <= inject_Z (Z.of_nat (wait_fuel delay)))%Q.
Proof.
  unfold wait_fuel. pose proof (Qle_ceiling (delay * 2)) as H.
  eapply Qle_trans; [exact H|]. rewrite <- Zle_Qle. lia.
Qed.

(** The fuel the code is run with is enough: any more of it gives the
    same wait. *)
Lemma stall_wait_more_fuel is_set delay extra :
  stall_wait (wait_fuel delay + extra) is_set 0 0 delay
  = stall_wait (wait_fuel delay) is_set 0 0 delay.
Proof.
  induction extra as [|extra IH].
  - rewrite Nat.add_0_r. reflexivity.
  - rewrite Nat.add_succ_r, stall_wait_fuel; [exact IH|].
    pose proof (wait_fuel_enough delay) as H.
    rewrite Nat2Z.inj_add, inject_Z_plus.
    assert (0 <= inject_Z (Z.of_nat extra))%Q.
    { change 0%Q with (inject_Z 0). rewrite <- Zle_Qle. lia. }
    lra.
Qed.



(** A nudge seen at the first poll ends the wait before any sleep. *)
Lemma stall_wait_nudged fuel is_set elapsed delay :
  is_set 0%nat = true -> (elapsed < delay)%Q ->
  stall_wait (S fuel) is_set 0 elapsed delay = (true, []).
Proof.
  intros H Hlt. rewrite stall_wait_unfold.
  assert (E : Qle_bool delay elapsed = false) by (apply Qle_bool_false; exact Hlt).
  rewrite E, H. reflexivity.
Qed.

(** ** Runs of the retry loop *)

Lemma invocations_app (l l' : list event) :
  invocations (l ++ l') = (invocations l + invocations l')%nat.
Proof. unfold invocations. rewrite List.filter_app. apply length_app. Qed.

Lemma invocations_infer (c : gmap string pyval) (l : list event) :
  invocations (EInfer c :: l) = S (invocations l).
Proof. reflexivity. Qed.

Lemma invocations_log (line : log_line) (l : list event) :
  invocations (ELog line :: l) = invocations l.
Proof. reflexivity. Qed.

Lemma invocations_nil : invocations [] = 0%nat.
Proof. reflexivity. Qed.

Lemma backoffs_app (l l' : list event) : backoffs (l ++ l') = backoffs l ++ backoffs l'.
Proof.
  induction l as [|ev l IH]; [reflexivity|].
  destruct ev; simpl; rewrite IH; reflexivity.
Qed.

Lemma slept_app (l l' : list event) : (slept (l ++ l') == slept l + slept l')%Q.
Proof.
  induction l as [|ev l IH]; simpl; [lra|].
  destruct ev; rewrite ?IH; lra.
Qed.

Lemma stall_wait_sleeps fuel is_set poll elapsed delay :
  Forall is_sleep (stall_wait fuel is_set poll elapsed delay).2.
Proof.
  revert poll elapsed. induction fuel as [|fuel IH]; intros poll elapsed.
  - constructor.
  - rewrite stall_wait_unfold.
    destruct (negb (Qle_bool delay elapsed)); [|constructor].
    destruct (is_set poll); [constructor|].
    specialize (IH (S poll) (elapsed + (1 # 2))%Q).
    destruct (stall_wait fuel is_set (S poll) (elapsed + (1 # 2)) delay).
    simpl in *. constructor; [exact I | exact IH].
Qed.

Lemma sleeps_invocations (evs : list event) :
  Forall is_sleep evs -> invocations evs = 0%nat /\ backoffs evs = [].
Proof.
  induction 1 as [|ev evs H _ [IH1 IH2]]; [split; reflexivity|].
  destruct ev; try contradiction. split; [exact IH1 | exact IH2].
Qed.

Lemma transient_events_invocations id a e : invocations (transient_events id a e) = 0%nat.
Proof.
  unfold transient_events. destruct (is_timeout e); [reflexivity|].
  change (invocations (ECall "increment_rate_limit" :: ECall "get_active_count"
            :: EBackoff (dynamic_delay (att_active a)) :: (backoff_wait a).2))
    with (invocations (backoff_wait a).2).
  apply sleeps_invocations, stall_wait_sleeps.
Qed.

Lemma after_transient_invocations id a e st :
  invocations (trace (after_transient id a e st)) = S (invocations (trace st)).
Proof.
  unfold after_transient. simpl. rewrite invocations_app.
  change (invocations (EInfer (job_copy (test_case st)) :: transient_events id a e))
    with (S (invocations (transient_events id a e))).
  rewrite transient_events_invocations. lia.
Qed.

Lemma terminal_false (a : attempt) :
  terminal a = false <-> exists e, att_outcome a = Failure e /\ is_transient e = true.
Proof.
  unfold terminal. destruct (att_outcome a) as [r m|e].
  - split; [discriminate | intros (e & H & _); discriminate].
  - rewrite negb_false_iff. split.
    + intros H. exists e. split; [reflexivity | exact H].
    + intros (e' & H & Ht). injection H as <-. exact Ht.
Qed.

Lemma retry_loop_failures id fails rest st :
  job_ready id (test_case st) ->
  Forall (fun a => terminal a = false) fails ->
  retry_loop (fails ++ rest) st = retry_loop rest (after_failures id fails st).
Proof.
  intros R H. revert st R. induction H as [|a fails Ha _ IH]; intros st R.
  - reflexivity.
  - apply terminal_false in Ha as (e & Ha & Ht).
    rewrite <- app_comm_cons.
    rewrite (retry_loop_transient id a _ st e R Ha Ht).
    unfold after_failures. simpl. unfold after_attempt at 2. rewrite Ha.
    apply IH. apply job_ready_after_transient. exact R.
Qed.

Lemma after_failures_spec id fails st :
  job_ready id (test_case st) ->
  Forall (fun a => terminal a = false) fails ->
  job_ready id (test_case (after_failures id fails st))
  /\ rate_limit_count (after_failures id fails st)
     = (rate_limit_count st + Z.of_nat (length fails))%Z
  /\ invocations (trace (after_failures id fails st))
     = (invocations (trace st) + length fails)%nat.
Proof.
  intros R H. revert st R. induction H as [|a fails Ha _ IH]; intros st R.
  - simpl. split; [exact R | split; lia].
  - apply terminal_false in Ha as (e & Ha & Ht).
    unfold after_failures. simpl. unfold after_attempt at 2 4 6. rewrite Ha.
    destruct (IH (after_transient id a e st)) as (R' & C & N).
    { apply job_ready_after_transient. exact R. }
    unfold after_failures in *. split; [exact R' | split].
    + rewrite C. simpl. lia.
    + rewrite N, after_transient_invocations. simpl. lia.
Qed.

Lemma prologue_list start tc fs :
  tc !! "function" = Some (PList fs) ->
  prologue start {| test_case := tc; retry_count := 0; rate_limit_count := 0;
                    trace := [] |}
  = (Returned tt, initial_job_state start tc).
Proof.
  intros H. unfold prologue, initial_job_state. run_lookups. reflexivity.
Qed.

Lemma multi_threaded_inference_loop start script tc fs :
  tc !! "function" = Some (PList fs) ->
  multi_threaded_inference start script tc
  = retry_loop script (initial_job_state start tc).
Proof.
  intros H. unfold multi_threaded_inference.
  rewrite (prologue_list start tc fs H). reflexivity.
Qed.

Lemma job_ready_initial id start tc :
  job_ready id tc -> job_ready id (test_case (initial_job_state start tc)).
Proof.
  intros (H1 & H2 & H3 & H4). unfold job_ready. simpl.
  repeat split; by simplify_map_eq.
Qed.

Lemma submit_function (raw : gmap string pyval) :
  submit raw !! "function" = raw !! "function".
Proof. unfold submit. by simplify_map_eq. Qed.

(** The three ways the loop can go on a submitted job: [fails] are the
    transient failures met first. *)
Lemma run_success raw id fs start fails a rest result metadata :
  raw !! "id" = Some id -> raw !! "function" = Some (PList fs) ->
  Forall (fun a => terminal a = false) fails ->
  att_outcome a = Success result metadata ->
  let r := multi_threaded_inference start (fails ++ a :: rest) (submit raw) in
  r.1 = Some (Returned (success_result id result metadata (Z.of_nat (length fails))))
  /\ invocations (trace r.2) = S (length fails).
Proof.
  intros Hid Hf Hfails Ha. simpl.
  rewrite (multi_threaded_inference_loop _ _ _ fs)
    by (rewrite submit_function; exact Hf).
  pose proof (job_ready_initial id start _ (job_ready_submit id raw Hid)) as R.
  rewrite (retry_loop_failures id _ _ _ R Hfails).
  destruct (after_failures_spec id fails _ R Hfails) as (R' & C & N).
  rewrite (retry_loop_success id a rest _ result metadata R' Ha). simpl.
  rewrite C. simpl. split; [reflexivity|].
  rewrite invocations_app, N, invocations_infer, invocations_nil. simpl. lia.
Qed.

Lemma run_fatal raw id fs start fails a rest e :
  raw !! "id" = Some id -> raw !! "function" = Some (PList fs) ->
  Forall (fun a => terminal a = false) fails ->
  att_outcome a = Failure e -> is_transient e = false ->
  let r := multi_threaded_inference start (fails ++ a :: rest) (submit raw) in
  r.1 = Some (Returned (error_result id e))
  /\ invocations (trace r.2) = S (length fails).
Proof.
  intros Hid Hf Hfails Ha Ht. simpl.
  rewrite (multi_threaded_inference_loop _ _ _ fs)
    by (rewrite submit_function; exact Hf).
  pose proof (job_ready_initial id start _ (job_ready_submit id raw Hid)) as R.
  rewrite (retry_loop_failures id _ _ _ R Hfails).
  destruct (after_failures_spec id fails _ R Hfails) as (R' & C & N).
  rewrite (retry_loop_fatal id a rest _ e R' Ha Ht). simpl.
  split; [reflexivity|].
  rewrite invocations_app, N, invocations_infer. unfold fatal_log.
  destruct (is_content_filter e);
    rewrite ?invocations_log, invocations_nil; simpl; lia.
Qed.

Lemma run_pending raw id fs start fails :
  raw !! "id" = Some id -> raw !! "function" = Some (PList fs) ->
  Forall (fun a => terminal a = false) fails ->
  let r := multi_threaded_inference start fails (submit raw) in
  r.1 = None /\ invocations (trace r.2) = length fails.
Proof.
  intros Hid Hf Hfails. simpl.
  rewrite (multi_threaded_inference_loop _ _ _ fs)
    by (rewrite submit_function; exact Hf).
  pose proof (job_ready_initial id start _ (job_ready_submit id raw Hid)) as R.
  rewrite <- (app_nil_r fails) at 1 2.
  rewrite (retry_loop_failures id _ _ _ R Hfails).
  destruct (after_failures_spec id fails _ R Hfails) as (R' & C & N).
  simpl. split; [reflexivity|]. rewrite N. reflexivity.
Qed.

(** Every script is a run of transient failures, followed or not by an
    attempt that ends the loop. *)
Lemma script_split (script : list attempt) :
  Forall (fun a => terminal a = false) script
  \/ exists fails a rest, script = fails ++ a :: rest
       /\ Forall (fun a => terminal a = false) fails /\ terminal a = true.
Proof.
  induction script as [|a script IH].
  - left. constructor.
  - destruct (terminal a) eqn:Ha.
    + right. exists [], a, script. repeat split; [constructor | exact Ha].
    + destruct IH as [IH|(fails & b & rest & -> & Hf & Hb)].
      * left. constructor; assumption.
      * right. exists (a :: fails), b, rest.
        repeat split; [constructor; assumption | exact Hb].
Qed.

(** ** Classification of failures *)

Lemma append_assoc (a b c : string) : (a +:+ b) +:+ c = a +:+ (b +:+ c).
Proof.
  induction a as [|x a IH]; [reflexivity|].
  rewrite !append_cons, IH. reflexivity.
Qed.

Lemma Contains_suffix (a b s : string) : Contains (a +:+ b) s -> Contains b s.
Proof.
  intros (pre & post & ->). exists (pre +:+ a), post.
  rewrite !append_assoc. reflexivity.
Qed.

Lemma status_code_transient_spec (e : exn) :
  status_code_transient e = true <-> StatusTransient e.
Proof.
  unfold status_code_transient, StatusTransient.
  destruct (exn_status_code e) as [c|].
  - rewrite !orb_true_iff, !Z.eqb_eq. split.
    + intros [[->| ->]| ->]; auto.
    + intros [H|[H|H]]; injection H as ->; auto.
  - split; [discriminate | intros [H|[H|H]]; discriminate].
Qed.


Lemma is_transient_spec (e : exn) : is_transient e = true <-> Transient e.
Proof.
  unfold is_transient, Transient, RateLimitPhrasing, TimeoutPhrasing, OverloadString.
  rewrite !orb_true_iff, !str_in_spec, status_code_transient_spec.
  split.
  - intros [[[[[[H|H]|H]|H]|H]|H]|H]; auto.
    right; right; left; right.
    apply (Contains_suffix "read " "timed out"). exact H.
  - intros [H|[H|[[H|H]|[H|H]]]]; auto 10.
Qed.

Lemma is_content_filter_spec (e : exn) : is_content_filter e = true <-> ContentPolicy e.
Proof.
  unfold is_content_filter, ContentPolicy.
  rewrite orb_true_iff, !str_in_spec. reflexivity.
Qed.

Lemma not_transient_spec (e : exn) : is_transient e = false <-> ~ Transient e.
Proof.
  rewrite <- is_transient_spec. destruct (is_transient e); split; congruence.
Qed.


(** ** What the loop does to the trace *)

Lemma retry_loop_invocations id script st :
  job_ready id (test_case st) ->
  (invocations (trace st) + Nat.min 1 (length script)
   <= invocations (trace (retry_loop script st).2))%nat.
Proof.
  revert st. induction script as [|a script IH]; intros st R.
  - simpl. lia.
  - destruct (att_outcome a) as [result metadata|e] eqn:Ha.
    + rewrite (retry_loop_success id a script st result metadata R Ha).
      simpl. rewrite invocations_app, invocations_infer. lia.
    + destruct (is_transient e) eqn:Ht.
      * rewrite (retry_loop_transient id a script st e R Ha Ht).
        specialize (IH _ (job_ready_after_transient id a e st R)).
        rewrite after_transient_invocations in IH. simpl. lia.
      * rewrite (retry_loop_fatal id a script st e R Ha Ht).
        simpl. rewrite invocations_app, invocations_infer. lia.
Qed.

(** ** The retry policy: claims about single jobs *)

(** C4.  The handler is called once more than the number of transient
    failures met: after any number of transient failures in a row, a
    success returns the success result and a failure that is not
    transient returns the error result at once, and as long as only
    transient failures come the loop keeps asking for another attempt.
    No bound such as [RETRY_LIMIT] enters. *)
Theorem retries_are_unbounded raw id fs start fails a rest :
  raw !! "id" = Some id -> raw !! "function" = Some (PList fs) ->
  Forall (fun a => terminal a = false) fails ->
  let r := multi_threaded_inference start (fails ++ a :: rest) (submit raw) in
  let p := multi_threaded_inference start fails (submit raw) in
  (forall result metadata, att_outcome a = Success result metadata ->
     r.1 = Some (Returned (success_result id result metadata
                             (Z.of_nat (length fails))))
     /\ invocations (trace r.2) = S (length fails))
  /\ (forall e, att_outcome a = Failure e -> is_transient e = false ->
        r.1 = Some (Returned (error_result id e))
        /\ invocations (trace r.2) = S (length fails))
  /\ p.1 = None /\ invocations (trace p.2) = length fails.
Proof.
  intros Hid Hf Hfails r p. split; [|split].
  - intros result metadata Ha.
    exact (run_success raw id fs start fails a rest result metadata Hid Hf Hfails Ha).
  - intros e Ha Ht.
    exact (run_fatal raw id fs start fails a rest e Hid Hf Hfails Ha Ht).
  - exact (run_pending raw id fs start fails Hid Hf Hfails).
Qed.

(** Five transient failures, more than [RETRY_LIMIT], and then an
    answer: six calls of the handler. *)
Lemma retries_are_unbounded_witness :
  (RETRY_LIMIT < 5)%Z
  /\ invocations
       (trace (multi_threaded_inference 0
                 (repeat (example_attempt (Failure rate_limited)) 5
                    ++ example_attempt answer :: [])
                 (submit example_case)).2) = 6%nat.
Proof.
  split; [reflexivity|].
  destruct (retries_are_unbounded example_case (PStr "simple_0") [] 0
              (repeat (example_attempt (Failure rate_limited)) 5)
              (example_attempt answer) [])
    as (H & _).
  - reflexivity.
  - reflexivity.
  - repeat constructor.
  - destruct (H (PStr "[f(x=1)]") ∅ eq_refl) as [_ N]. exact N.
Defined.

Lemma success_result_id (id result : pyval) (metadata : gmap string pyval) (n : Z) :
  metadata !! "id" = None -> success_result id result metadata n !! "id" = Some id.
Proof.
  intros H. unfold success_result.
  assert (E : (metadata ∪ <["result" := result]> (<["id" := id]> ∅)) !! "id" = Some id).
  { rewrite lookup_union_r by exact H. by simplify_map_eq. }
  destruct (0 <? n)%Z; [|exact E].
  rewrite lookup_insert_ne by done. exact E.
Qed.

Lemma success_result_counter (id result : pyval) (metadata : gmap string pyval) (n : Z) :
  (0 < n)%Z -> success_result id result metadata n !! "_rate_limit_count" = Some (PInt n).
Proof.
  intros H. unfold success_result.
  apply Z.ltb_lt in H. rewrite H. by simplify_map_eq.
Qed.

Lemma error_result_id (id : pyval) (e : exn) : error_result id e !! "id" = Some id.
Proof. unfold error_result. by simplify_map_eq. Qed.

Lemma error_result_tag (id : pyval) (e : exn) :
  error_result id e !! "_error_type" = Some (error_type_of e).
Proof. unfold error_result. by simplify_map_eq. Qed.

(** The result of a submitted job, whenever its loop comes to an end. *)
Lemma run_result raw id fs start script out :
  raw !! "id" = Some id -> raw !! "function" = Some (PList fs) ->
  (multi_threaded_inference start script (submit raw)).1 = Some out ->
  exists fails a rest,
    script = fails ++ a :: rest
    /\ Forall (fun a => terminal a = false) fails
    /\ match att_outcome a with
       | Success result metadata =>
         out = Returned (success_result id result metadata (Z.of_nat (length fails)))
       | Failure e => is_transient e = false /\ out = Returned (error_result id e)
       end.
Proof.
  intros Hid Hf Hout.
  destruct (script_split script) as [Hall|(fails & a & rest & -> & Hfails & Ha)].
  - destruct (run_pending raw id fs start script Hid Hf Hall) as [E _].
    rewrite E in Hout. discriminate.
  - exists fails, a, rest. split; [reflexivity|]. split; [exact Hfails|].
    unfold terminal in Ha. destruct (att_outcome a) as [result metadata|e] eqn:Ho.
    + destruct (run_success raw id fs start fails a rest result metadata
                  Hid Hf Hfails Ho) as [E _].
      rewrite E in Hout. injection Hout as <-. reflexivity.
    + apply negb_true_iff in Ha.
      destruct (run_fatal raw id fs start fails a rest e Hid Hf Hfails Ho Ha)
        as [E _].
      rewrite E in Hout. injection Hout as <-. split; [exact Ha | reflexivity].
Qed.

Lemma run_ends raw id fs start script :
  raw !! "id" = Some id -> raw !! "function" = Some (PList fs) ->
  (multi_threaded_inference start script (submit raw)).1 = None
  <-> Forall (fun a => terminal a = false) script.
Proof.
  intros Hid Hf. split.
  - intros Hnone.
    destruct (script_split script) as [Hall|(fails & a & rest & -> & Hfails & Ha)];
      [exact Hall|].
    exfalso. unfold terminal in Ha.
    destruct (att_outcome a) as [result metadata|e] eqn:Ho.
    + destruct (run_success raw id fs start fails a rest result metadata
                  Hid Hf Hfails Ho) as [E _]. congruence.
    + apply negb_true_iff in Ha.
      destruct (run_fatal raw id fs start fails a rest e Hid Hf Hfails Ho Ha)
        as [E _]. congruence.
  - intros Hall. apply (run_pending raw id fs start script Hid Hf Hall).
Qed.

Lemma strip_tracking_fields_lookup (result : gmap string pyval) (k : string) :
  strip_tracking_fields result !! k
  = if bool_decide (k ∈ tracking_fields) then None else result !! k.
Proof.
  unfold strip_tracking_fields, tracking_fields. simpl.
  repeat match goal with
         | |- context [match ?m !! ?f with Some _ => delete ?f ?m | None => ?m end] =>
           replace (match m !! f with Some _ => delete f m | None => m end)
             with (delete f m)
             by (destruct (m !! f) eqn:E; [reflexivity | by rewrite delete_id])
         end.
  case_bool_decide as Hk.
  - repeat (apply elem_of_cons in Hk as [->|Hk];
            [by rewrite ?lookup_delete_eq, ?lookup_delete_ne, ?lookup_delete_eq by done|]).
    by apply elem_of_nil in Hk.
  - rewrite !lookup_delete_ne; [reflexivity|..];
      intros <-; apply Hk; set_solver.
Qed.

Lemma count_error_type_fst result n m :
  (count_error_type result n).1 = (count_error_type result m).1.
Proof. unfold count_error_type. destruct (result !! "_error_type"); reflexivity. Qed.

Lemma cleaned_id (result : gmap string pyval) :
  strip_tracking_fields (count_error_type result 0).1 !! "id" = result !! "id".
Proof.
  rewrite strip_tracking_fields_lookup. case_bool_decide as H.
  - exfalso. unfold tracking_fields in H.
    repeat (apply elem_of_cons in H as [H|H]; [discriminate|]).
    by apply elem_of_nil in H.
  - unfold count_error_type. destruct (result !! "_error_type"); simpl;
      [apply lookup_delete_ne; done | reflexivity].
Qed.

Lemma lookups_seq {A B : Type} (l : list A) (h : option A -> B) :
  map (fun i => h (l !! i)) (seq 0 (length l)) = map (fun x => h (Some x)) l.
Proof.
  induction l as [|x l IH]; [reflexivity|].
  simpl. f_equal. rewrite <- seq_shift, map_map. exact IH.
Qed.

Lemma submit_id (raw : gmap string pyval) : submit raw !! "id" = raw !! "id".
Proof. unfold submit. by simplify_map_eq. Qed.

Lemma admitted_has_key_id job : admitted job -> has_key_id job.
Proof. intros (id & fs & Hid & Hh & _). exists id. split; assumption. Qed.

(** The submit loop over test cases it gets past. *)
Lemma futures_submitted jobs :
  Forall has_key_id jobs -> futures jobs = (map future_of jobs, None).
Proof.
  induction 1 as [|job jobs (id & Hid & Hh) _ IH]; [reflexivity|].
  cbn [futures]. unfold getitem. rewrite submit_id, Hid, Hh, IH. reflexivity.
Qed.

(** The submit loop raises at the first test case without such an
    identifier, and only there. *)
Lemma futures_raises jobs :
  (futures jobs).2 = None <-> Forall has_key_id jobs.
Proof.
  split; [|intros H; rewrite (futures_submitted jobs H); reflexivity].
  induction jobs as [|job jobs IH]; intros H; [constructor|].
  cbn [futures] in H. unfold getitem in H. rewrite submit_id in H.
  destruct (job.1 !! "id") as [id|] eqn:Hid; [|discriminate].
  destruct (hashable id) eqn:Hh; [|discriminate].
  destruct (futures jobs) as [fs err]. simpl in H.
  constructor; [exists id; split; assumption | apply IH; exact H].
Qed.

Lemma generate_results_submitted now jobs order :
  Forall has_key_id jobs ->
  generate_results now jobs order
  = let r := completion_loop (as_completed (map future_of jobs) order)
               (initial_dispatch_state now) in
    (if forallb is_done (map future_of jobs)
     then match r.1.1 with Finished => Returns | Exited status => Exits status end
     else Waiting, r.1.2, r.2).
Proof.
  intros H. unfold generate_results. rewrite (futures_submitted jobs H).
  destruct (completion_loop _ _) as [[e ds] evs]. reflexivity.
Qed.

(** The attempt that ends the loop is the first one that is not a
    transient failure. *)
Lemma find_terminal fails a rest :
  Forall (fun a => terminal a = false) fails -> terminal a = true ->
  List.find terminal (fails ++ a :: rest) = Some a.
Proof.
  intros H Ha. induction H as [|b fails Hb _ IH]; simpl.
  - rewrite Ha. reflexivity.
  - rewrite Hb. exact IH.
Qed.

Lemma find_terminal_none script :
  Forall (fun a => terminal a = false) script -> List.find terminal script = None.
Proof.
  induction 1 as [|b script Hb _ IH]; [reflexivity|]. simpl. rewrite Hb. exact IH.
Qed.

(** The future of a test case with an identifier and a function list. *)
Lemma future_of_spec job id fs :
  job.1 !! "id" = Some id -> job.1 !! "function" = Some (PList fs) ->
  match List.find terminal (run_script job.2) with
  | None =>
    future_of job = None /\ Forall (fun a => terminal a = false) (run_script job.2)
  | Some a =>
    exists d, future_of job = Some (Returned d) /\ (keeps_id a -> d !! "id" = Some id)
  end.
Proof.
  intros Hid Hf. unfold future_of.
  destruct (script_split (run_script job.2))
    as [Hall|(fails & a & rest & Hs & Hfails & Ha)].
  - rewrite (find_terminal_none _ Hall). split; [|exact Hall].
    apply (run_ends _ id fs _ _ Hid Hf). exact Hall.
  - rewrite Hs, (find_terminal fails a rest Hfails Ha).
    unfold terminal in Ha. unfold keeps_id.
    destruct (att_outcome a) as [result metadata|e] eqn:Ho.
    + destruct (run_success job.1 id fs (run_start job.2) fails a rest result metadata
                  Hid Hf Hfails Ho) as [E _].
      eexists. split; [exact E|]. intros Hm. apply success_result_id. exact Hm.
    + apply negb_true_iff in Ha.
      destruct (run_fatal job.1 id fs (run_start job.2) fails a rest e
                  Hid Hf Hfails Ho Ha) as [E _].
      eexists. split; [exact E|]. intros _. apply error_result_id.
Qed.

Lemma completion_loop_done jobs order ds :
  Forall (fun o => o.2 = NoFault
                   /\ exists d, map future_of jobs !! o.1.1 = Some (Some (Returned d))
                                /\ d !! "id" = submitted_id jobs o.1.1) order ->
  (completion_loop (as_completed (map future_of jobs) order) ds).1.1 = Finished
  /\ map (fun d => d !! "id")
         (written (completion_loop (as_completed (map future_of jobs) order) ds).2)
     = map (fun o => submitted_id jobs o.1.1) order.
Proof.
  intros H. revert ds. induction H as [|o order (Hf & d & Hd & Hid) _ IH]; intros ds.
  - split; reflexivity.
  - unfold as_completed. cbn [omap list_omap]. rewrite Hd.
    fold (as_completed (map future_of jobs) order).
    cbn [completion_loop]. unfold process_completion. simpl. rewrite Hf.
    destruct (count_error_type d (error_counts_content_filter ds)) as [d' n] eqn:Ec.
    match goal with
    | |- context [completion_loop _ ?s] => destruct (IH s) as [E W]
    end.
    destruct (completion_loop _ _) as [[e ds'] evs]. simpl in *.
    split; [exact E|]. f_equal; [|exact W].
    rewrite <- Hid, <- (cleaned_id d).
    rewrite (count_error_type_fst d 0 (error_counts_content_filter ds)), Ec.
    reflexivity.
Qed.

(** C1, as the code has it.  The submit loop gets past every test case
    that has an identifier fit for a dictionary key, and gives each one
    future.  The future of a test case that has a function list as
    well is not done only while every attempt so far was a transient
    failure; once done it holds a result dictionary, never an
    exception, and the ["id"] of that result is the identifier of the
    test case when the loop ends on a failure, and when it ends on a
    success whose metadata has no ["id"] entry of its own.  When every
    job ends in such a way and the completion loop meets no fault,
    [generate_results] returns, and the results written carry the
    identifiers of the jobs in the order of completion: each job once
    when each future completes once. *)
Theorem one_result_per_job (jobs : list (gmap string pyval * job_run)) :
  Forall admitted jobs ->
  (futures jobs).2 = None
  /\ length (futures jobs).1 = length jobs
  /\ (forall i job, jobs !! i = Some job ->
        exists future, (futures jobs).1 !! i = Some future
          /\ (future = None <->
                Forall (fun a => terminal a = false) (run_script job.2))
          /\ (forall out, future = Some out ->
                exists a d,
                  List.find terminal (run_script job.2) = Some a
                  /\ out = Returned d
                  /\ (keeps_id a -> d !! "id" = job.1 !! "id")))
  /\ (Forall (fun job => exists a, List.find terminal (run_script job.2) = Some a
                                   /\ keeps_id a) jobs ->
      forall now order,
        Forall (fun o => o.1.1 < length jobs /\ o.2 = NoFault)%nat order ->
        let r := generate_results now jobs order in
        r.1.1 = Returns
        /\ map (fun d => d !! "id") (written r.2)
           = map (fun o => submitted_id jobs o.1.1) order
        /\ (Permutation (map (fun o => o.1.1) order) (seq 0 (length jobs)) ->
            Permutation (map (fun d => d !! "id") (written r.2))
                        (map (fun job => job.1 !! "id") jobs))).
Proof.
  intros Hwf.
  assert (Hkey : Forall has_key_id jobs)
    by (eapply Forall_impl; [exact Hwf | exact admitted_has_key_id]).
  rewrite (futures_submitted jobs Hkey). cbn [fst snd].
  split; [reflexivity|]. split; [apply length_map|]. split.
  - intros i job Hi.
    assert (Hin : job ∈ jobs) by (eapply list_elem_of_lookup_2; exact Hi).
    rewrite Forall_forall in Hwf.
    destruct (Hwf job Hin) as (id & fs & Hid & _ & Hf).
    exists (future_of job). split; [rewrite list_lookup_fmap, Hi; reflexivity|].
    pose proof (future_of_spec job id fs Hid Hf) as S.
    destruct (List.find terminal (run_script job.2)) as [a|] eqn:Ea.
    + destruct S as (d & E & Hd). rewrite E. split.
      * split; [discriminate|]. intros Hall.
        rewrite (find_terminal_none _ Hall) in Ea. discriminate.
      * intros out Hout. injection Hout as <-. exists a, d.
        split; [reflexivity|]. split; [reflexivity|].
        intros Hk. rewrite Hid. exact (Hd Hk).
    + destruct S as [E Hall]. rewrite E. split.
      * split; [intros _; exact Hall | reflexivity].
      * intros out Hout. discriminate.
  - intros Hend now order Horder.
    rewrite (generate_results_submitted now jobs order Hkey). cbn [fst snd].
    assert (Hjob : forall i job, jobs !! i = Some job ->
              exists d, future_of job = Some (Returned d)
                        /\ d !! "id" = job.1 !! "id").
    { intros i job Hi.
      assert (Hin : job ∈ jobs) by (eapply list_elem_of_lookup_2; exact Hi).
      rewrite Forall_forall in Hwf, Hend.
      destruct (Hwf job Hin) as (id & fs & Hid & _ & Hf).
      destruct (Hend job Hin) as (a & Ea & Hk).
      pose proof (future_of_spec job id fs Hid Hf) as S. rewrite Ea in S.
      destruct S as (d & E & Hd). exists d. split; [exact E|].
      rewrite Hid. exact (Hd Hk). }
    assert (Hall : forallb is_done (map future_of jobs) = true).
    { apply forallb_forall. intros f Hf. apply in_map_iff in Hf as (job & <- & Hin).
      apply list_elem_of_In, list_elem_of_lookup_1 in Hin as [i Hi].
      destruct (Hjob i job Hi) as (d & E & _). rewrite E. reflexivity. }
    assert (Hdone : Forall (fun o => o.2 = NoFault
                      /\ exists d, map future_of jobs !! o.1.1 = Some (Some (Returned d))
                                   /\ d !! "id" = submitted_id jobs o.1.1) order).
    { eapply Forall_impl; [exact Horder|]. intros o [Hlt Hf].
      split; [exact Hf|].
      destruct (lookup_lt_is_Some_2 jobs o.1.1 Hlt) as [job Hi].
      destruct (Hjob _ job Hi) as (d & E & Hd).
      exists d. rewrite list_lookup_fmap, Hi. simpl. rewrite E.
      split; [reflexivity|]. unfold submitted_id. rewrite Hi. exact Hd. }
    destruct (completion_loop_done jobs order (initial_dispatch_state now) Hdone)
      as [E W].
    rewrite Hall, E. split; [reflexivity|]. split; [exact W|].
    intros P. rewrite W.
    rewrite <- (map_map (fun o => o.1.1) (submitted_id jobs)).
    rewrite (Permutation_map (submitted_id jobs) P).
    unfold submitted_id.
    rewrite (lookups_seq jobs (fun o => job ← o; job.1 !! "id")). reflexivity.
Qed.

(** Against C1 as it is stated: a handler whose metadata carries an
    ["id"] replaces the identifier of the test case in the result. *)
Lemma one_result_per_job_counterexample :
  exists d,
    (multi_threaded_inference 0
       [example_attempt (Success (PStr "[f(x=1)]") (<["id" := PStr "simple_7"]> ∅))]
       (submit example_case)).1 = Some (Returned d)
    /\ d !! "id" = Some (PStr "simple_7")
    /\ d !! "id" <> example_case !! "id".
Proof.
  eexists. split; [|split].
  - pose proof (run_success example_case (PStr "simple_0") [] 0 []
                  (example_attempt (Success (PStr "[f(x=1)]")
                                      (<["id" := PStr "simple_7"]> ∅)))
                  [] _ _ eq_refl eq_refl (List.Forall_nil _) eq_refl) as [E _].
    exact E.
  - reflexivity.
  - discriminate.
Qed.

Lemma one_result_per_job_witness :
  length (futures [(example_case,
                    {| run_start := 0;
                       run_script := [example_attempt (Failure rate_limited);
                                      example_attempt answer] |})]).1 = 1%nat.
Proof.
  refine (proj1 (proj2 (one_result_per_job _ _))).
  repeat constructor. exists (PStr "simple_0"), []. repeat split; reflexivity.
Defined.

Lemma process_completion_ok result clock ds :
  (process_completion (written_completion result clock NoFault) ds).2 = true.
Proof.
  unfold process_completion, written_completion. simpl.
  destruct (count_error_type result (error_counts_content_filter ds)).
  reflexivity.
Qed.

(** C2, as the code has it.  A failure is transient exactly when it
    carries one of the status codes 429, 500 and 503, or its message in
    lower case holds [rate limit reached], [timeout], [timed out] or
    [relay error], or its message holds the overload string of the
    provider.  A transient failure is followed by another call of the
    handler; any other failure ends the job after that one call with
    an error result, which the completion loop then takes without
    stopping. *)
Theorem transient_iff_retried (e : exn) :
  (is_transient e = true <-> Transient e)
  /\ forall raw id fs start a rest,
       raw !! "id" = Some id -> raw !! "function" = Some (PList fs) ->
       att_outcome a = Failure e ->
       let r := multi_threaded_inference start (a :: rest) (submit raw) in
       (Transient e -> rest <> [] -> (2 <= invocations (trace r.2))%nat)
       /\ (~ Transient e ->
             r.1 = Some (Returned (error_result id e))
             /\ invocations (trace r.2) = 1%nat
             /\ forall clock ds,
                  (process_completion
                     (written_completion (error_result id e) clock NoFault) ds).2
                  = true).
Proof.
  split; [apply is_transient_spec|].
  intros raw id fs start a rest Hid Hf Ha r. split.
  - intros Ht Hrest. apply is_transient_spec in Ht. subst r.
    rewrite (multi_threaded_inference_loop _ _ _ fs)
      by (rewrite submit_function; exact Hf).
    pose proof (job_ready_initial id start _ (job_ready_submit id raw Hid)) as R.
    rewrite (retry_loop_transient id a rest _ e R Ha Ht).
    pose proof (retry_loop_invocations id rest _
                  (job_ready_after_transient id a e _ R)) as N.
    rewrite after_transient_invocations in N.
    destruct rest as [|b rest]; [congruence|]. simpl in N. simpl. lia.
  - intros Hn. apply not_transient_spec in Hn.
    destruct (run_fatal raw id fs start [] a rest e Hid Hf (List.Forall_nil _) Ha Hn)
      as [E N].
    split; [exact E|]. split; [exact N|].
    intros clock ds. apply process_completion_ok.
Qed.

Lemma transient_iff_retried_witness :
  (2 <= invocations
          (trace (multi_threaded_inference 0
                    [example_attempt (Failure rate_limited); example_attempt answer]
                    (submit example_case)).2))%nat
  /\ invocations
       (trace (multi_threaded_inference 0
                 [example_attempt (Failure invalid_json); example_attempt answer]
                 (submit example_case)).2) = 1%nat.
Proof.
  split.
  - refine (proj1 (proj2 (transient_iff_retried rate_limited) example_case
                     (PStr "simple_0") [] 0%Q
                     (example_attempt (Failure rate_limited))
                     [example_attempt answer] eq_refl eq_refl eq_refl) _ _).
    + apply is_transient_spec. reflexivity.
    + discriminate.
  - refine (proj1 (proj2 (proj2 (proj2 (transient_iff_retried invalid_json)
                     example_case (PStr "simple_0") [] 0%Q
                     (example_attempt (Failure invalid_json))
                     [example_attempt answer] eq_refl eq_refl eq_refl) _))).
    apply not_transient_spec. reflexivity.
Defined.

(** Against C2 as it is stated: rate-limit phrasing alone does not make
    a failure transient.  This one names the rate limit, carries no
    status code, and ends the job after one call of the handler with
    the error result. *)
Lemma transient_iff_retried_counterexample :
  Contains "rate limit" (lower (exn_message rate_limit_exceeded))
  /\ exn_status_code rate_limit_exceeded = None
  /\ is_transient rate_limit_exceeded = false
  /\ let r := multi_threaded_inference 0
                [example_attempt (Failure rate_limit_exceeded); example_attempt answer]
                (submit example_case) in
     invocations (trace r.2) = 1%nat
     /\ r.1 = Some (Returned (error_result (PStr "simple_0") rate_limit_exceeded)).
Proof.
  split; [apply str_in_spec; reflexivity|]. split; [reflexivity|].
  split; [reflexivity|].
  destruct (run_fatal example_case (PStr "simple_0") [] 0 []
              (example_attempt (Failure rate_limit_exceeded))
              [example_attempt answer] rate_limit_exceeded
              eq_refl eq_refl (List.Forall_nil _) eq_refl eq_refl) as [E N].
  split; [exact N | exact E].
Qed.

Lemma count_error_type_tagged result n tag :
  result !! "_error_type" = Some tag ->
  count_error_type result n
  = (delete "_error_type" result,
     if eq_str tag "content_filter" then (n + 1)%Z else n).
Proof. intros H. unfold count_error_type. rewrite H. reflexivity. Qed.

(** C9, as the code has it.  A failure whose message names the content
    filter and which is not transient ends the job after one call of
    the handler with an error result tagged [content_filter]; the
    completion loop counts the tag when it takes the result and has
    removed it from whatever it writes. *)
Theorem content_filter_is_fatal raw id fs start a rest e clock f ds :
  raw !! "id" = Some id -> raw !! "function" = Some (PList fs) ->
  att_outcome a = Failure e ->
  ContentPolicy e -> ~ Transient e ->
  let r := multi_threaded_inference start (a :: rest) (submit raw) in
  let p := process_completion (written_completion (error_result id e) clock f) ds in
  r.1 = Some (Returned (error_result id e))
  /\ invocations (trace r.2) = 1%nat
  /\ error_result id e !! "id" = Some id
  /\ error_result id e !! "_error_type" = Some (PStr "content_filter")
  /\ (forall d, In d (written p.1.2) -> d !! "_error_type" = None)
  /\ (f <> DisplayFault ->
      error_counts_content_filter p.1.1 = (error_counts_content_filter ds + 1)%Z
      /\ exists d, written p.1.2 = [d]).
Proof.
  intros Hid Hf Ha Hc Hn r p.
  apply is_content_filter_spec in Hc. apply not_transient_spec in Hn.
  destruct (run_fatal raw id fs start [] a rest e Hid Hf (List.Forall_nil _) Ha Hn)
    as [E N].
  assert (Htag : error_result id e !! "_error_type" = Some (PStr "content_filter")).
  { rewrite error_result_tag. unfold error_type_of. rewrite Hc. reflexivity. }
  split; [exact E|]. split; [exact N|]. split; [apply error_result_id|].
  split; [exact Htag|].
  subst p. unfold process_completion, written_completion. simpl.
  rewrite (count_error_type_tagged _ _ _ Htag).
  assert (Hd : strip_tracking_fields (delete "_error_type" (error_result id e))
               !! "_error_type" = None).
  { rewrite strip_tracking_fields_lookup. case_bool_decide; [reflexivity|].
    apply lookup_delete_eq. }
  split.
  - destruct f; simpl; intros d Hin; try contradiction;
      destruct Hin as [<-|[]]; exact Hd.
  - intros Hne. destruct f; simpl; try congruence;
      (split; [reflexivity | eexists; reflexivity]).
Qed.

Lemma content_filter_is_fatal_witness :
  invocations
    (trace (multi_threaded_inference 0
              [example_attempt (Failure filtered); example_attempt answer]
              (submit example_case)).2) = 1%nat.
Proof.
  refine (proj1 (proj2 (content_filter_is_fatal example_case (PStr "simple_0") [] 0
                          (example_attempt (Failure filtered))
                          [example_attempt answer] filtered 0 NoFault
                          (initial_dispatch_state 0)
                          eq_refl eq_refl eq_refl _ _))).
  - apply is_content_filter_spec. reflexivity.
  - apply not_transient_spec. reflexivity.
Defined.

(** Against C9 as it is stated: a content-filter message on an error
    with status code 500 is retried; the handler is called a second
    time and the job ends with the answer of that call. *)
Lemma content_filter_is_fatal_retried :
  ContentPolicy filtered_overloaded
  /\ let r := multi_threaded_inference 0
                [example_attempt (Failure filtered_overloaded); example_attempt answer]
                (submit example_case) in
     invocations (trace r.2) = 2%nat
     /\ r.1 = Some (Returned (success_result (PStr "simple_0") (PStr "[f(x=1)]") ∅ 1)).
Proof.
  split.
  - apply is_content_filter_spec. reflexivity.
  - destruct (run_success example_case (PStr "simple_0") [] 0
                [example_attempt (Failure filtered_overloaded)]
                (example_attempt answer) [] (PStr "[f(x=1)]") ∅
                eq_refl eq_refl) as [E N].
    + repeat constructor.
    + reflexivity.
    + split; [exact N | exact E].
Qed.

(** ** A job without the active-count callback *)

Lemma dynamic_delay_default : dynamic_delay 999 = RETRY_DELAY.
Proof. reflexivity. Qed.

Lemma backoffs_sleeps (evs : list event) : Forall is_sleep evs -> backoffs evs = [].
Proof. intros H. apply sleeps_invocations, H. Qed.

Lemma triple_ret {A : Type} (I : job_state -> Prop) (a : A) (Q : A -> Prop) :
  Q a -> triple I (mret a) Q.
Proof. intros H st r st' E HI. injection E as <- <-. split; assumption. Qed.

Lemma triple_raise {A : Type} (I : job_state -> Prop) (e : py_error) (Q : A -> Prop) :
  triple I (raise e) Q.
Proof. intros st r st' E HI. injection E as <- <-. split; [assumption | exact Logic.I]. Qed.

Lemma triple_bind {A B : Type} (I : job_state -> Prop) (m : M A) (f : A -> M B)
    (Q : A -> Prop) (R : B -> Prop) :
  triple I m Q -> (forall a, Q a -> triple I (f a) R) -> triple I (m ≫= f) R.
Proof.
  intros Hm Hf st r st' E HI. unfold mbind, M_bind in E.
  destruct (m st) as [[a|err] st1] eqn:Em.
  - destruct (Hm _ _ _ Em HI) as [HI1 Ha]. exact (Hf a Ha _ _ _ E HI1).
  - injection E as <- <-. destruct (Hm _ _ _ Em HI) as [HI1 _].
    split; [exact HI1 | exact Logic.I].
Qed.

Lemma triple_then {A B : Type} (I : job_state -> Prop) (m : M A) (f : A -> M B)
    (R : B -> Prop) :
  triple I m (fun _ => True) -> (forall a, triple I (f a) R) -> triple I (m ≫= f) R.
Proof. intros Hm Hf. eapply triple_bind; [exact Hm|]. intros a _. apply Hf. Qed.

Lemma triple_weaken {A : Type} (I : job_state -> Prop) (m : M A) (Q Q' : A -> Prop) :
  triple I m Q -> (forall a, Q a -> Q' a) -> triple I m Q'.
Proof.
  intros Hm HQ st r st' E HI. destruct (Hm _ _ _ E HI) as [HI1 Hr].
  split; [exact HI1|]. destruct r; [apply HQ; exact Hr | exact Logic.I].
Qed.

Lemma triple_lift {A : Type} (I : job_state -> Prop) (r : py_result A) :
  triple I (lift r) (fun _ => True).
Proof.
  intros st r' st' E HI. injection E as <- <-.
  split; [assumption | destruct r; exact Logic.I].
Qed.

Lemma flat_get_case :
  triple flat get_case (fun tc => tc !! "_get_active_count" = None).
Proof. intros st r st' E F. injection E as <- <-. split; [exact F | apply F]. Qed.

Lemma flat_set_case tc :
  tc !! "_get_active_count" = None -> triple flat (set_case tc) (fun _ => True).
Proof.
  intros H st r st' E [_ F]. injection E as <- <-.
  split; [split; [exact H | exact F] | exact Logic.I].
Qed.

Lemma flat_setitem k v :
  k <> "_get_active_count" -> triple flat (setitem k v) (fun _ => True).
Proof.
  intros Hk. unfold setitem. eapply triple_bind; [apply flat_get_case|].
  intros tc Htc. apply flat_set_case. rewrite lookup_insert_ne by exact Hk. exact Htc.
Qed.

Lemma flat_emit evs :
  Forall (fun d => d = RETRY_DELAY) (backoffs evs) ->
  triple flat (emit evs) (fun _ => True).
Proof.
  intros H st r st' E [H1 H2]. injection E as <- <-.
  split; [|exact Logic.I]. split; [exact H1|]. simpl.
  rewrite backoffs_app. apply Forall_app. split; assumption.
Qed.

Lemma flat_call f : triple flat (call f) (fun _ => True).
Proof.
  destruct f; try apply triple_raise. apply flat_emit. constructor.
Qed.

Lemma flat_case_item k : triple flat (case_item k) (fun _ => True).
Proof.
  unfold case_item. eapply triple_bind; [apply flat_get_case|].
  intros tc _. apply triple_lift.
Qed.

Lemma flat_bump_counters : triple flat bump_counters (fun _ => True).
Proof.
  intros st r st' E F. injection E as <- <-. split; [exact F | exact Logic.I].
Qed.

Lemma flat_get_rate_limit_count : triple flat get_rate_limit_count (fun _ => True).
Proof.
  intros st r st' E F. injection E as <- <-. split; [exact F | exact Logic.I].
Qed.

(** Without the callback the active count reads 999. *)
Lemma flat_get_active_test_count reading :
  triple flat (get_active_test_count reading) (fun n => n = 999%Z).
Proof.
  unfold get_active_test_count. eapply triple_bind; [apply flat_get_case|].
  intros tc Htc. rewrite Htc. apply triple_ret. reflexivity.
Qed.

Lemma flat_as_event v : triple flat (as_event v) (fun _ => True).
Proof. destruct v; try apply triple_raise. apply triple_ret. exact Logic.I. Qed.

Lemma flat_backoff_sleep a delay : triple flat (backoff_sleep a delay) (fun _ => True).
Proof.
  unfold backoff_sleep. eapply triple_bind; [apply flat_get_case|].
  intros tc _. destruct (truthy _).
  - apply triple_then.
    { destruct (negb _); [apply flat_as_event | apply triple_ret; exact Logic.I]. }
    intros _.
    pose proof (stall_wait_sleeps (wait_fuel (inject_Z delay)) (att_stall a) 0 0
                  (inject_Z delay)) as Hs.
    destruct (stall_wait _ _ _ _ _) as [poked sleeps]. simpl in Hs.
    eapply triple_bind.
    { apply flat_emit. rewrite (backoffs_sleeps _ Hs). constructor. }
    intros _ _. destruct poked; [apply flat_setitem; done|].
    apply triple_ret. exact Logic.I.
  - apply flat_emit. simpl. constructor.
Qed.

Lemma flat_on_transient a e : triple flat (on_transient a e) (fun _ => True).
Proof.
  unfold on_transient.
  eapply triple_bind; [apply flat_bump_counters|]. intros _ _.
  eapply triple_bind; [apply flat_get_rate_limit_count|]. intros n _.
  eapply triple_bind; [apply flat_setitem; done|]. intros _ _.
  eapply triple_bind; [apply flat_setitem; done|]. intros _ _.
  eapply triple_bind; [apply flat_get_case|]. intros tc _.
  apply triple_then.
  { destruct (tc !! "_increment_rate_limit");
      [apply flat_call | apply triple_ret; exact Logic.I]. }
  intros _. destruct (is_timeout e).
  - eapply triple_bind; [apply flat_case_item|]. intros id _.
    apply flat_emit. constructor.
  - eapply triple_bind; [apply flat_get_active_test_count|]. intros n' ->.
    eapply triple_bind.
    { apply flat_emit. simpl. rewrite dynamic_delay_default. repeat constructor. }
    intros _ _. apply flat_backoff_sleep.
Qed.

Lemma flat_copy_test_case : triple flat copy_test_case (fun _ => True).
Proof.
  unfold copy_test_case. eapply triple_bind; [apply flat_get_case|].
  intros tc Htc. unfold pop_default, restore_if_truthy.
  apply triple_then; [|intros; apply triple_ret; exact Logic.I].
  apply flat_set_case. rewrite !lookup_delete_ne by done. rewrite Htc. simpl.
  repeat case_match; rewrite ?lookup_insert_ne by done;
    rewrite ?lookup_delete_ne by done; apply lookup_delete_eq.
Qed.

Lemma flat_on_fatal e : triple flat (on_fatal e) (fun _ => True).
Proof.
  unfold on_fatal. apply triple_then.
  { destruct (is_content_filter e); [apply triple_ret; exact Logic.I|].
    eapply triple_bind; [apply flat_case_item|]. intros id _.
    apply flat_emit. constructor. }
  intros _. eapply triple_bind; [apply flat_case_item|]. intros id _.
  apply triple_ret. exact Logic.I.
Qed.

Lemma flat_result_to_write result metadata :
  triple flat (result_to_write result metadata) (fun _ => True).
Proof.
  unfold result_to_write.
  eapply triple_bind; [apply flat_case_item|]. intros id _.
  eapply triple_bind; [apply flat_get_rate_limit_count|]. intros n _.
  apply triple_ret. exact Logic.I.
Qed.

Lemma flat_prologue start : triple flat (prologue start) (fun _ => True).
Proof.
  unfold prologue.
  eapply triple_bind; [apply flat_setitem; done|]. intros _ _.
  eapply triple_bind; [apply flat_setitem; done|]. intros _ _.
  eapply triple_bind; [apply flat_case_item|]. intros f _.
  destruct f; try apply triple_raise. apply triple_ret. exact Logic.I.
Qed.

Lemma retry_loop_flat script st : flat st -> flat (retry_loop script st).2.
Proof.
  revert st. induction script as [|a script IH]; intros st F; [exact F|].
  cbn [retry_loop].
  destruct ((copy_test_case ≫= λ c, emit [EInfer c]) st) as [[[]|err] st1] eqn:Hc.
  2: { eapply (triple_bind flat copy_test_case _ _ (fun _ => True)); [apply flat_copy_test_case | | exact Hc | exact F].
       intros c _. apply flat_emit. constructor. }
  assert (F1 : flat st1).
  { eapply (triple_bind flat copy_test_case _ _ (fun _ => True)); [apply flat_copy_test_case | | exact Hc | exact F].
    intros c _. apply flat_emit. constructor. }
  destruct (att_outcome a) as [result metadata|e].
  - destruct (result_to_write result metadata st1) as [r st2] eqn:Hr.
    exact (proj1 (flat_result_to_write _ _ _ _ _ Hr F1)).
  - destruct (is_transient e).
    + destruct (on_transient a e st1) as [[[]|err] st2] eqn:Ht;
        pose proof (proj1 (flat_on_transient _ _ _ _ _ Ht F1)) as F2;
        [apply IH; exact F2 | exact F2].
    + destruct (on_fatal e st1) as [r st2] eqn:Hr.
      exact (proj1 (flat_on_fatal _ _ _ _ Hr F1)).
Qed.

Lemma sleeps_app (l l' : list event) : sleeps (l ++ l') = sleeps l ++ sleeps l'.
Proof.
  induction l as [|ev l IH]; [reflexivity|].
  destruct ev; simpl; rewrite IH; reflexivity.
Qed.

Lemma copy_test_case_bare id st :
  bare id (test_case st) -> copy_test_case st = (Returned (test_case st), st).
Proof.
  destruct st as [tc rc rl tr]. simpl. intros (Hid & Hse & Hgac & Hinc).
  unfold copy_test_case, mbind, M_bind, get_case, set_case, pop_default,
    restore_if_truthy, mret, M_ret. simpl.
  rewrite Hse. rewrite !lookup_delete_ne by done. rewrite Hinc, Hgac. simpl.
  rewrite !delete_id by (rewrite ?lookup_delete_ne by done; assumption).
  reflexivity.
Qed.

Lemma retry_loop_bare id a rest st e :
  bare id (test_case st) ->
  att_outcome a = Failure e -> is_transient e = true -> is_timeout e = false ->
  retry_loop (a :: rest) st = retry_loop rest (after_flat_backoff a st)
  /\ bare id (test_case (after_flat_backoff a st)).
Proof.
  intros B Ha Ht Hto. split.
  - cbn [retry_loop]. unfold mbind at 1. unfold M_bind.
    rewrite (copy_test_case_bare id st B). unfold emit. rewrite Ha, Ht.
    destruct B as (Hid & Hse & Hgac & Hinc).
    unfold on_transient, after_flat_backoff. rewrite Hto.
    run_monad. rewrite !lookup_insert_ne by done. rewrite Hinc. run_monad.
    rewrite !lookup_insert_ne by done. rewrite Hgac. run_monad.
    rewrite !lookup_insert_ne by done. rewrite Hse. run_monad.
    rewrite dynamic_delay_default, <- !app_assoc. reflexivity.
  - destruct B as (Hid & Hse & Hgac & Hinc). unfold bare, after_flat_backoff. simpl.
    repeat split; by simplify_map_eq.
Qed.

Lemma retry_loop_bare_failures id fails st :
  bare id (test_case st) ->
  Forall (fun a => exists e, att_outcome a = Failure e /\ is_transient e = true
                             /\ is_timeout e = false) fails ->
  backoffs (trace (retry_loop fails st).2)
  = backoffs (trace st) ++ repeat RETRY_DELAY (length fails)
  /\ sleeps (trace (retry_loop fails st).2)
     = sleeps (trace st) ++ repeat (inject_Z RETRY_DELAY) (length fails).
Proof.
  intros B H. revert st B. induction H as [|a fails (e & Ha & Ht & Hto) _ IH];
    intros st B.
  - simpl. rewrite !app_nil_r. split; reflexivity.
  - destruct (retry_loop_bare id a fails st e B Ha Ht Hto) as [-> B'].
    destruct (IH _ B') as [IB IS]. rewrite IB, IS. simpl.
    rewrite backoffs_app, sleeps_app, <- !app_assoc. split; reflexivity.
Qed.

(** C10.  In a test case without the [_get_active_count] callback the
    active count reads 999, so every delay chosen after a rate-limit
    failure is the flat [RETRY_DELAY] of 65 seconds, whatever else the
    test case holds and however the run goes.  Where the test case has
    none of the dispatcher's handles, each rate-limit failure is
    followed by one sleep of 65 seconds. *)
Theorem no_callback_flat_delay :
  (forall tc start script,
     tc !! "_get_active_count" = None ->
     Forall (fun d => d = 65%Z)
            (backoffs (trace (multi_threaded_inference start script tc).2)))
  /\ (forall tc id fs start fails,
        bare id tc -> tc !! "function" = Some (PList fs) ->
        Forall (fun a => exists e, att_outcome a = Failure e
                                   /\ is_transient e = true
                                   /\ is_timeout e = false) fails ->
        let tr := trace (multi_threaded_inference start fails tc).2 in
        backoffs tr = repeat 65%Z (length fails)
        /\ sleeps tr = repeat 65%Q (length fails)).
Proof.
  split.
  - intros tc start script H. unfold multi_threaded_inference.
    set (st := {| test_case := tc; retry_count := 0; rate_limit_count := 0;
                  trace := [] |}).
    assert (F : flat st) by (split; [exact H | constructor]).
    destruct (prologue start st) as [[[]|err] st1] eqn:Hp;
      pose proof (proj1 (flat_prologue _ _ _ _ Hp F)) as F1.
    + apply (retry_loop_flat script st1 F1).
    + apply F1.
  - intros tc id fs start fails B Hf Hfails tr. subst tr.
    rewrite (multi_threaded_inference_loop _ _ _ fs Hf).
    apply (retry_loop_bare_failures id fails (initial_job_state start tc));
      [|exact Hfails].
    destruct B as (H1 & H2 & H3 & H4). unfold bare. simpl.
    repeat split; by simplify_map_eq.
Qed.

(** Two rate-limit failures of a test case that was never given the
    callback: 65 seconds each time, although one job is in flight. *)
Lemma no_callback_flat_delay_witness :
  let tr := trace (multi_threaded_inference 0
                     [example_attempt (Failure rate_limited);
                      example_attempt (Failure rate_limited);
                      example_attempt answer] example_case).2 in
  Forall (fun d => d = 65%Z) (backoffs tr) /\ backoffs tr = [65%Z; 65%Z].
Proof.
  split.
  - apply (proj1 no_callback_flat_delay). reflexivity.
  - vm_compute. reflexivity.
Defined.

(** ** The delay before the next attempt *)






(** ** The completion loop *)

Lemma cleaned_lookup (result : gmap string pyval) (k : string) :
  k ∈ "_error_type" :: tracking_fields -> cleaned result !! k = None.
Proof.
  intros Hk. unfold cleaned. rewrite strip_tracking_fields_lookup.
  case_bool_decide as Hin; [reflexivity|].
  apply elem_of_cons in Hk as [->|Hk]; [|contradiction].
  unfold count_error_type. destruct (result !! "_error_type") eqn:E; simpl.
  - apply lookup_delete_eq.
  - exact E.
Qed.

Lemma process_completion_written c ds :
  written (process_completion c ds).1.2 = writes_of c.
Proof.
  unfold process_completion, writes_of, cleaned.
  destruct (cmp_result c) as [result|err]; [|destruct (cmp_fault c); reflexivity].
  rewrite (count_error_type_fst result 0 (error_counts_content_filter ds)).
  destruct (count_error_type result (error_counts_content_filter ds)) as [r n].
  destruct (cmp_fault c); reflexivity.
Qed.

Lemma process_completion_go_on c ds :
  (process_completion c ds).2 = negb (raises c).
Proof.
  unfold process_completion, raises.
  destruct (cmp_result c) as [result|err]; [|destruct (cmp_fault c); reflexivity].
  destruct (count_error_type result (error_counts_content_filter ds)) as [r n].
  destruct (cmp_fault c); reflexivity.
Qed.

Lemma process_completion_abort c ds :
  raises c = true ->
  (process_completion c ds).1.2 = map DWrite (writes_of c) ++ abort.
Proof.
  unfold process_completion, raises, writes_of, cleaned.
  destruct (cmp_result c) as [result|err]; [|destruct (cmp_fault c); reflexivity].
  rewrite (count_error_type_fst result 0 (error_counts_content_filter ds)).
  destruct (count_error_type result (error_counts_content_filter ds)) as [r n].
  destruct (cmp_fault c); (discriminate || reflexivity).
Qed.

Lemma written_app (l l' : list dispatch_event) : written (l ++ l') = written l ++ written l'.
Proof. unfold written. apply omap_app. Qed.

Lemma completion_loop_cons c cs ds :
  completion_loop (c :: cs) ds =
  if (process_completion c ds).2 then
    ((completion_loop cs (process_completion c ds).1.1).1.1,
     (completion_loop cs (process_completion c ds).1.1).1.2,
     (process_completion c ds).1.2 ++ (completion_loop cs (process_completion c ds).1.1).2)
  else (Exited 1, (process_completion c ds).1.1, (process_completion c ds).1.2).
Proof.
  cbn [completion_loop].
  destruct (process_completion c ds) as [[ds1 evs] go_on]. simpl.
  destruct go_on; [|reflexivity].
  destruct (completion_loop cs ds1) as [[e ds2] evs']. reflexivity.
Qed.

Lemma completion_loop_written cs ds :
  forall d, d ∈ written (completion_loop cs ds).2 ->
  exists c result, c ∈ cs /\ cmp_result c = Returned result /\ d = cleaned result.
Proof.
  revert ds. induction cs as [|c cs IH]; intros ds d Hd.
  - simpl in Hd. by apply elem_of_nil in Hd.
  - rewrite completion_loop_cons in Hd.
    assert (Hc : d ∈ writes_of c ->
                 exists c' result, c' ∈ c :: cs /\ cmp_result c' = Returned result
                                   /\ d = cleaned result).
    { unfold writes_of. destruct (cmp_result c) as [result|err] eqn:E.
      - destruct (cmp_fault c); intros H;
          try (by apply elem_of_nil in H);
          apply list_elem_of_singleton in H; exists c, result;
          (split; [left | split; [exact E | exact H]]).
      - destruct (cmp_fault c); intros H; by apply elem_of_nil in H. }
    destruct (process_completion c ds).2; simpl in Hd.
    + rewrite written_app, process_completion_written in Hd.
      apply elem_of_app in Hd as [Hd|Hd]; [exact (Hc Hd)|].
      destruct (IH _ d Hd) as (c' & result & Hin & E & ->).
      exists c', result. split; [right; exact Hin | split; [exact E | reflexivity]].
    + rewrite process_completion_written in Hd. exact (Hc Hd).
Qed.

(** The loop over completions none of which raises. *)
Lemma completion_loop_quiet cs ds :
  Forall (fun c => raises c = false) cs ->
  (completion_loop cs ds).1.1 = Finished
  /\ written (completion_loop cs ds).2 = concat (map writes_of cs).
Proof.
  intros H. revert ds. induction H as [|c cs Hc _ IH]; intros ds.
  - split; reflexivity.
  - rewrite completion_loop_cons, process_completion_go_on, Hc. simpl.
    destruct (IH (process_completion c ds).1.1) as [E W].
    split; [exact E|].
    rewrite written_app, process_completion_written, W. reflexivity.
Qed.

(** The loop up to the first completion that raises. *)
Lemma completion_loop_raises cs1 c cs2 ds :
  Forall (fun c => raises c = false) cs1 -> raises c = true ->
  (completion_loop (cs1 ++ c :: cs2) ds).1.1 = Exited 1
  /\ exists evs,
       (completion_loop (cs1 ++ c :: cs2) ds).2 = evs ++ map DWrite (writes_of c) ++ abort
       /\ written evs = concat (map writes_of cs1).
Proof.
  intros H Hc. revert ds. induction H as [|c1 cs1 Hc1 _ IH]; intros ds.
  - simpl app. rewrite completion_loop_cons, process_completion_go_on, Hc. simpl.
    split; [reflexivity|]. exists []. split; [|reflexivity].
    apply process_completion_abort. exact Hc.
  - rewrite <- app_comm_cons.
    rewrite completion_loop_cons, process_completion_go_on, Hc1. simpl.
    destruct (IH (process_completion c1 ds).1.1) as [E (evs & Hev & W)].
    split; [exact E|].
    exists ((process_completion c1 ds).1.2 ++ evs). split.
    + rewrite Hev, <- app_assoc. reflexivity.
    + rewrite written_app, process_completion_written, W. reflexivity.
Qed.

Lemma completions_split (cs : list completion) :
  Forall (fun c => raises c = false) cs
  \/ exists cs1 c cs2, cs = cs1 ++ c :: cs2
       /\ Forall (fun c => raises c = false) cs1 /\ raises c = true.
Proof.
  induction cs as [|c cs IH].
  - left. constructor.
  - destruct (raises c) eqn:Hc.
    + right. exists [], c, cs. repeat split; [constructor | exact Hc].
    + destruct IH as [IH|(cs1 & c' & cs2 & -> & H1 & H2)].
      * left. constructor; assumption.
      * right. exists (c :: cs1), c', cs2.
        repeat split; [constructor; assumption | exact H2].
Qed.

(** C7.  Whatever results the completion loop is given, what it hands
    to [handler.write] holds neither [_error_type] nor any of the five
    tracking fields.  The result a job returns after rate-limit retries
    does hold [_rate_limit_count]; it is gone from what is written. *)
Theorem written_results_are_stripped :
  (forall cs ds d k,
     In d (written (completion_loop cs ds).2) ->
     In k ["_error_type"; "_rate_limit_count"; "_increment_rate_limit";
           "_get_active_count"; "_stall_event"; "_processing_start_time"] ->
     d !! k = None)
  /\ (forall raw id fs start fails a rest result metadata,
        raw !! "id" = Some id -> raw !! "function" = Some (PList fs) ->
        Forall (fun a => terminal a = false) fails -> fails <> [] ->
        att_outcome a = Success result metadata ->
        exists d,
          (multi_threaded_inference start (fails ++ a :: rest) (submit raw)).1
          = Some (Returned d)
          /\ d !! "_rate_limit_count" = Some (PInt (Z.of_nat (length fails)))
          /\ forall clock f ds d',
               In d' (written (process_completion
                                 (written_completion d clock f) ds).1.2) ->
               d' !! "_rate_limit_count" = None).
Proof.
  split.
  - intros cs ds d k Hd Hk. apply list_elem_of_In in Hd, Hk.
    destruct (completion_loop_written cs ds d Hd) as (c & result & _ & _ & ->).
    apply cleaned_lookup. exact Hk.
  - intros raw id fs start fails a rest result metadata Hid Hf Hfails Hne Ha.
    destruct (run_success raw id fs start fails a rest result metadata
                Hid Hf Hfails Ha) as [E _].
    eexists. split; [exact E|]. split.
    + apply success_result_counter. destruct fails; [congruence | simpl; lia].
    + intros clock f ds d' Hd'. rewrite process_completion_written in Hd'.
      unfold writes_of, written_completion in Hd'. simpl in Hd'.
      destruct f; simpl in Hd'; try contradiction; destruct Hd' as [<-|[]];
        apply cleaned_lookup; set_solver.
Qed.

Lemma written_results_are_stripped_witness :
  exists d,
    (multi_threaded_inference 0
       ([example_attempt (Failure rate_limited)] ++ example_attempt answer :: [])
       (submit example_case)).1 = Some (Returned d)
    /\ d !! "_rate_limit_count" = Some (PInt 1).
Proof.
  destruct (proj2 written_results_are_stripped example_case (PStr "simple_0") [] 0%Q
              [example_attempt (Failure rate_limited)] (example_attempt answer) []
              (PStr "[f(x=1)]") ∅ eq_refl eq_refl) as (d & E & C & _).
  - repeat constructor.
  - discriminate.
  - reflexivity.
  - exists d. split; [exact E | exact C].
Defined.

(** A test case whose ["function"] is missing or is not a list: the
    job raises before the first attempt. *)
Lemma malformed_run start script tc :
  (forall l, tc !! "function" <> Some (PList l)) ->
  exists err, (multi_threaded_inference start script tc).1 = Some (Raised err).
Proof.
  intros H. unfold multi_threaded_inference, prologue. run_monad.
  rewrite lookup_insert_ne by done. rewrite lookup_insert_ne by done.
  destruct (tc !! "function") as [v|] eqn:E; simpl.
  - destruct v; try (eexists; reflexivity). exfalso. exact (H _ eq_refl).
  - eexists. reflexivity.
Qed.

(** The two ways the completion loop ends. *)
Lemma completion_loop_end cs ds :
  ((completion_loop cs ds).1.1 = Finished /\ Forall (fun c => raises c = false) cs)
  \/ ((completion_loop cs ds).1.1 = Exited 1 /\ Exists (fun c => raises c = true) cs).
Proof.
  destruct (completions_split cs) as [H|(cs1 & c & cs2 & -> & H & Hc)].
  - left. split; [apply (completion_loop_quiet cs ds H) | exact H].
  - right. split; [apply (completion_loop_raises cs1 c cs2 ds H Hc)|].
    apply Exists_app. right. left. exact Hc.
Qed.

Lemma quiet_not_raising (cs : list completion) :
  Forall (fun c => raises c = false) cs -> Exists (fun c => raises c = true) cs -> False.
Proof.
  intros F E. apply Exists_exists in E as (c & Hin & Hc).
  rewrite Forall_forall in F. specialize (F c Hin). congruence.
Qed.

Lemma generate_results_unfold now jobs order :
  generate_results now jobs order
  = match (futures jobs).2 with
    | Some err =>
      (if forallb is_done (futures jobs).1 then Raises err else Waiting,
       initial_dispatch_state now, [])
    | None =>
      let r := completion_loop (as_completed (futures jobs).1 order)
                 (initial_dispatch_state now) in
      (if forallb is_done (futures jobs).1
       then match r.1.1 with Finished => Returns | Exited status => Exits status end
       else Waiting, r.1.2, r.2)
    end.
Proof.
  unfold generate_results. destruct (futures jobs) as [fs [err|]]; [reflexivity|].
  cbn [fst snd]. destruct (completion_loop _ _) as [[e ds] evs]. reflexivity.
Qed.

(** The submit loop stops at the first test case whose identifier is
    missing or cannot be a dictionary key: that test case has been
    submitted, the ones after it have not. *)
Lemma futures_first_bad before job after :
  Forall has_key_id before -> ~ has_key_id job ->
  futures (before ++ job :: after)
  = (map future_of (before ++ [job]),
     Some (match job.1 !! "id" with
           | Some _ => TypeError
           | None => KeyError "id"
           end)).
Proof.
  intros H Hbad. induction H as [|b before (id & Hid & Hh) _ IH].
  - simpl app. cbn [futures map]. unfold getitem. rewrite submit_id.
    destruct (job.1 !! "id") as [id|] eqn:Hid; [|reflexivity].
    destruct (hashable id) eqn:Hh; [|reflexivity].
    exfalso. apply Hbad. exists id. split; [exact Hid | exact Hh].
  - rewrite <- !app_comm_cons. cbn [futures map]. unfold getitem.
    rewrite submit_id, Hid, Hh, IH. reflexivity.
Qed.

(** How the thread-pool branch ends, case by case. *)
Lemma generate_results_end now jobs order :
  let fs := futures jobs in
  let cs := as_completed fs.1 order in
  let r := generate_results now jobs order in
  (r.1.1 = Returns <->
     fs.2 = None /\ forallb is_done fs.1 = true
     /\ Forall (fun c => raises c = false) cs)
  /\ (forall status, r.1.1 = Exits status <->
        status = 1%Z /\ fs.2 = None /\ forallb is_done fs.1 = true
        /\ Exists (fun c => raises c = true) cs)
  /\ (forall err, r.1.1 = Raises err <->
        fs.2 = Some err /\ forallb is_done fs.1 = true)
  /\ (r.1.1 = Waiting <-> forallb is_done fs.1 = false)
  /\ (fs.2 = None -> r.2 = (completion_loop cs (initial_dispatch_state now)).2)
  /\ (fs.2 <> None -> r.2 = []).
Proof.
  intros fs cs r. subst fs cs r.
  rewrite (generate_results_unfold now jobs order).
  destruct (futures jobs).2 as [err|].
  - cbn [fst snd]. destruct (forallb is_done (futures jobs).1).
    + split; [split; [discriminate | intros [H _]; discriminate]|].
      split; [intros status; split; [discriminate | intros (_ & H & _); discriminate]|].
      split; [intros err'; split;
              [intros H; injection H as <-; split; reflexivity
              | intros [H _]; injection H as <-; reflexivity]|].
      split; [split; discriminate|].
      split; [discriminate | reflexivity].
    + split; [split; [discriminate | intros [H _]; discriminate]|].
      split; [intros status; split; [discriminate | intros (_ & H & _); discriminate]|].
      split; [intros err'; split; [discriminate | intros [_ H]; discriminate]|].
      split; [split; reflexivity|].
      split; [discriminate | reflexivity].
  - cbn zeta. cbn [fst snd].
    destruct (completion_loop_end (as_completed (futures jobs).1 order)
                (initial_dispatch_state now)) as [[E Q]|[E X]]; rewrite E;
      destruct (forallb is_done (futures jobs).1).
    + split; [split; [intros _; repeat split; exact Q | reflexivity]|].
      split; [intros status; split;
              [discriminate | intros (_ & _ & _ & X); destruct (quiet_not_raising _ Q X)]|].
      split; [intros err; split; [discriminate | intros [H _]; discriminate]|].
      split; [split; discriminate|].
      split; [reflexivity | congruence].
    + split; [split; [discriminate | intros (_ & H & _); discriminate]|].
      split; [intros status; split; [discriminate | intros (_ & _ & H & _); discriminate]|].
      split; [intros err; split; [discriminate | intros [H _]; discriminate]|].
      split; [split; reflexivity|].
      split; [reflexivity | congruence].
    + split; [split; [discriminate
                     | intros (_ & _ & F); destruct (quiet_not_raising _ F X)]|].
      split; [intros status; split;
              [intros H; injection H as <-; repeat split; exact X
              | intros (-> & _); reflexivity]|].
      split; [intros err; split; [discriminate | intros [H _]; discriminate]|].
      split; [split; discriminate|].
      split; [reflexivity | congruence].
    + split; [split; [discriminate | intros (_ & H & _); discriminate]|].
      split; [intros status; split; [discriminate | intros (_ & _ & H & _); discriminate]|].
      split; [intros err; split; [discriminate | intros [H _]; discriminate]|].
      split; [split; reflexivity|].
      split; [reflexivity | congruence].
Qed.

(** C6, as the code has it.  The completion loop stops at the first
    completion whose processing raises, be it [handler.write], the code
    around it in the [try] block, or a future that holds an exception:
    the write is tried once at most and not again, the two abort lines
    are printed, [sys.exit(1)] is called and no later completion is
    looked at; the loop runs to its end over completions that do not
    raise.  The process exits with status 1 when a completion has
    raised and every job submitted has come to an end, not while one of
    them is still retrying: the executor waits for them.  A failure to
    persist is not the only thing that ends the run.  An error of the
    inference handler never makes the future of a test case with an
    identifier and a function list raise, it ends up in the result; but
    the future of a test case whose ["function"] is missing or is not a
    list holds an exception, and the submit loop itself raises at the
    first test case whose identifier is missing or is no dictionary
    key, with nothing processed or written. *)
Theorem write_failure_aborts_run :
  (forall cs1 c cs2 ds,
     Forall (fun c => raises c = false) cs1 -> raises c = true ->
     let r := completion_loop (cs1 ++ c :: cs2) ds in
     r.1.1 = Exited 1
     /\ completion_loop (cs1 ++ c :: cs2) ds = completion_loop (cs1 ++ [c]) ds
     /\ exists evs,
          r.2 = evs ++ map DWrite (writes_of c)
                    ++ [DPrint CriticalError; DPrint AbortingProgram; DExit 1]
          /\ written evs = concat (map writes_of cs1)
          /\ (length (writes_of c) <= 1)%nat)
  /\ (forall cs ds,
        (completion_loop cs ds).1.1 = Finished
        <-> Forall (fun c => raises c = false) cs)
  /\ (forall c,
        raises c = true
        <-> cmp_fault c <> NoFault \/ exists err, cmp_result c = Raised err)
  /\ (forall now jobs order,
        let fs := futures jobs in
        let cs := as_completed fs.1 order in
        let r := generate_results now jobs order in
        (r.1.1 = Returns <->
           fs.2 = None /\ forallb is_done fs.1 = true
           /\ Forall (fun c => raises c = false) cs)
        /\ (forall status, r.1.1 = Exits status <->
              status = 1%Z /\ fs.2 = None /\ forallb is_done fs.1 = true
              /\ Exists (fun c => raises c = true) cs)
        /\ (forall err, r.1.1 = Raises err <->
              fs.2 = Some err /\ forallb is_done fs.1 = true)
        /\ (r.1.1 = Waiting <-> forallb is_done fs.1 = false)
        /\ (fs.2 = None -> r.2 = (completion_loop cs (initial_dispatch_state now)).2)
        /\ (fs.2 <> None -> r.2 = []))
  /\ (forall raw id fs start script out,
        raw !! "id" = Some id -> raw !! "function" = Some (PList fs) ->
        (multi_threaded_inference start script (submit raw)).1 = Some out ->
        exists d, out = Returned d)
  /\ (forall raw start script,
        (forall l, raw !! "function" <> Some (PList l)) ->
        exists err,
          (multi_threaded_inference start script (submit raw)).1 = Some (Raised err))
  /\ (forall jobs, (futures jobs).2 = None <-> Forall has_key_id jobs)
  /\ (forall before job after,
        Forall has_key_id before -> ~ has_key_id job ->
        futures (before ++ job :: after)
        = (map future_of (before ++ [job]),
           Some (match job.1 !! "id" with
                 | Some _ => TypeError
                 | None => KeyError "id"
                 end))).
Proof.
  split; [|split; [|split; [|split; [|split; [|split; [|split]]]]]].
  - intros cs1 c cs2 ds H Hc r. subst r.
    destruct (completion_loop_raises cs1 c cs2 ds H Hc) as [E (evs & Hev & W)].
    split; [exact E|]. split.
    + clear E evs Hev W. revert ds.
      induction H as [|c1 cs1 Hc1 _ IH]; intros ds.
      * simpl app. rewrite !completion_loop_cons, process_completion_go_on, Hc.
        reflexivity.
      * rewrite <- !app_comm_cons.
        rewrite !completion_loop_cons, process_completion_go_on, Hc1. simpl.
        rewrite IH. reflexivity.
    + exists evs. split; [exact Hev|]. split; [exact W|].
      unfold writes_of. destruct (cmp_fault c), (cmp_result c); simpl; lia.
  - intros cs ds. split.
    + intros Hfin.
      destruct (completion_loop_end cs ds) as [[_ H]|[E _]]; [exact H | congruence].
    + intros H. apply (completion_loop_quiet cs ds H).
  - intros c. unfold raises. destruct (cmp_fault c), (cmp_result c) as [d|err]; split;
      try discriminate; try (intros _; reflexivity).
    + intros [H|[err H]]; [contradiction | discriminate].
    + intros _. right. eexists. reflexivity.
    + intros _. left. discriminate.
    + intros _. left. discriminate.
    + intros _. left. discriminate.
    + intros _. left. discriminate.
    + intros _. left. discriminate.
    + intros _. left. discriminate.
  - exact generate_results_end.
  - intros raw id fs start script out Hid Hf Hout.
    destruct (run_result raw id fs start script out Hid Hf Hout)
      as (fails & a & rest & _ & _ & Ha).
    destruct (att_outcome a); [eexists; exact Ha|].
    destruct Ha as [_ ->]. eexists. reflexivity.
  - intros raw start script H. apply malformed_run.
    intros l. rewrite submit_function. apply H.
  - exact futures_raises.
  - exact futures_first_bad.
Qed.

(** Against C6 as it is stated.  The write of a result fails while
    another job is still retrying: [sys.exit(1)] is called, and the run
    has not exited.  And with no failure to persist anywhere, a test
    case without a function list ends the run with status 1. *)
Lemma write_failure_aborts_run_counterexample :
  (let r := generate_results 0
              [(example_case,
                {| run_start := 0; run_script := [example_attempt answer] |});
               (example_case,
                {| run_start := 0;
                   run_script := [example_attempt (Failure rate_limited)] |})]
              [(0%nat, 1%Q, WriteFault)] in
   List.last r.2 (DPrint CriticalError) = DExit 1 /\ r.1.1 = Waiting)
  /\ (let r := generate_results 0
                 [(delete "function" example_case,
                   {| run_start := 0; run_script := [example_attempt answer] |})]
                 [(0%nat, 1%Q, NoFault)] in
      r.1.1 = Exits 1 /\ written r.2 = []).
Proof.
  split; split; vm_compute; reflexivity.
Qed.

(** Three results, and the write of the second one fails: the run is
    over with status 1. *)
Lemma write_failure_aborts_run_witness :
  let c (f : fault) := written_completion example_case 0 f in
  (completion_loop ([c NoFault] ++ c WriteFault :: [c NoFault])
     (initial_dispatch_state 0)).1.1
  = Exited 1.
Proof.
  intros c.
  refine (proj1 (proj1 write_failure_aborts_run [c NoFault] (c WriteFault)
                   [c NoFault] (initial_dispatch_state 0) _ _)).
  - repeat constructor.
  - reflexivity.
Defined.

(** ** The stall watchdog *)









(** ** The job source *)

Lemma py_eqb_str (s : string) (v : pyval) : py_eqb (PStr s) v = true <-> v = PStr s.
Proof.
  destruct v; simpl; try (split; [discriminate | intros H; discriminate]).
  rewrite String.eqb_eq. split; [intros -> | intros H; injection H as ->]; reflexivity.
Qed.

Lemma py_in_str (s : string) (l : list pyval) : py_in (PStr s) l = true <-> In (PStr s) l.
Proof.
  unfold py_in. rewrite existsb_exists. split.
  - intros (v & Hin & E). apply py_eqb_str in E. subst v. exact Hin.
  - intros Hin. exists (PStr s). split; [exact Hin | apply py_eqb_str; reflexivity].
Qed.

Lemma ids_of_spec (entries : list (gmap string pyval)) (ids : list pyval) :
  ids_of entries = Returned ids -> ids = map get_id entries.
Proof.
  unfold ids_of.
  enough (G : forall acc, for_each (fun acc entry =>
                                      id ← getitem entry "id"; Returned (acc ++ [id]))
                            entries acc = Returned ids ->
                          ids = acc ++ map get_id entries) by (apply (G [])).
  induction entries as [|entry entries IH]; intros acc H; simpl in *.
  - injection H as <-. rewrite app_nil_r. reflexivity.
  - unfold mbind, py_result_bind, getitem, get_id in *.
    destruct (entry !! "id") as [id|]; [|discriminate]. simpl in *.
    rewrite (IH _ H), <- app_assoc. reflexivity.
Qed.

Lemma ids_of_total (entries : list (gmap string pyval)) :
  Forall has_string_id entries -> exists ids, ids_of entries = Returned ids.
Proof.
  intros H. unfold ids_of.
  enough (G : forall acc, exists ids,
             for_each (fun acc entry =>
                         id ← getitem entry "id"; Returned (acc ++ [id]))
                      entries acc = Returned ids) by (apply G).
  induction H as [|entry entries [s Hs] _ IH]; intros acc; simpl.
  - eexists. reflexivity.
  - unfold mbind, py_result_bind, getitem. rewrite Hs. simpl. apply IH.
Qed.

Lemma id_set_total (entries : list (gmap string pyval)) :
  Forall has_string_id entries -> id_set entries = Returned tt.
Proof.
  unfold id_set. induction 1 as [|entry entries [s Hs] _ IH]; simpl.
  - reflexivity.
  - unfold mbind, py_result_bind, getitem. rewrite Hs. simpl. exact IH.
Qed.

Lemma log_existing_total (ids : list pyval) (entries : list (gmap string pyval)) :
  Forall has_string_id entries -> log_existing ids entries = Returned tt.
Proof.
  intros H. unfold log_existing. destruct ids; [reflexivity|].
  induction H as [|entry entries [s Hs] _ IH]; simpl.
  - reflexivity.
  - unfold mbind, py_result_bind, getitem. rewrite Hs. simpl. exact IH.
Qed.

Lemma without_results_spec existing_ids entries out :
  without_results existing_ids entries = Returned out ->
  out = pending existing_ids entries.
Proof.
  unfold without_results, pending.
  enough (G : forall acc,
             for_each (fun acc test_case =>
                         id ← getitem test_case "id";
                         Returned (if py_in id existing_ids then acc
                                   else acc ++ [test_case])) entries acc
             = Returned out ->
             out = acc ++ List.filter (fun e => negb (py_in (get_id e) existing_ids))
                                      entries) by (apply (G [])).
  induction entries as [|entry entries IH]; intros acc H; simpl in *.
  - injection H as <-. rewrite app_nil_r. reflexivity.
  - unfold mbind, py_result_bind, getitem, get_id in *.
    destruct (entry !! "id") as [id|]; [|discriminate]. simpl in *.
    rewrite (IH _ H). destruct (py_in id existing_ids); simpl; [reflexivity|].
    rewrite <- app_assoc. reflexivity.
Qed.

Lemma without_results_total existing_ids entries :
  Forall has_string_id entries ->
  exists out, without_results existing_ids entries = Returned out.
Proof.
  intros H. unfold without_results.
  enough (G : forall acc, exists out,
             for_each (fun acc test_case =>
                         id ← getitem test_case "id";
                         Returned (if py_in id existing_ids then acc
                                   else acc ++ [test_case])) entries acc
             = Returned out) by (apply G).
  induction H as [|entry entries [s Hs] _ IH]; intros acc; simpl.
  - eexists. reflexivity.
  - unfold mbind, py_result_bind, getitem. rewrite Hs. simpl. apply IH.
Qed.

Section JobSourceFacts.

Context {K : Type}.
Variable is_multi_turn : pyval -> bool.
Variable load_func_doc : pyval -> py_result (list pyval).
Variable sort_key : gmap string pyval -> K.
Variable key_lt : K -> K -> bool.
Variable result_files : string -> string -> option (list (gmap string pyval)).

Lemma process_entry_id entry entry' :
  process_entry is_multi_turn load_func_doc entry = Returned entry' ->
  entry' !! "id" = entry !! "id".
Proof.
  unfold process_entry, mbind, py_result_bind. intros H.
  repeat case_match; simplify_eq; try reflexivity;
    by rewrite ?lookup_insert_ne by done.
Qed.

Lemma process_multi_turn_spec test_cases out :
  process_multi_turn_test_case is_multi_turn load_func_doc test_cases = Returned out ->
  Forall2 (fun p q => process_entry is_multi_turn load_func_doc p = Returned q)
          test_cases out.
Proof.
  unfold process_multi_turn_test_case.
  enough (G : forall acc,
             for_each (fun acc entry =>
                         e ← process_entry is_multi_turn load_func_doc entry;
                         Returned (acc ++ [e])) test_cases acc = Returned out ->
             exists out', out = acc ++ out'
               /\ Forall2 (fun p q => process_entry is_multi_turn load_func_doc p
                                      = Returned q) test_cases out').
  { intros H. destruct (G [] H) as (out' & -> & F). exact F. }
  induction test_cases as [|entry entries IH]; intros acc H; simpl in *.
  - injection H as <-. exists []. rewrite app_nil_r. split; [reflexivity | constructor].
  - unfold mbind, py_result_bind in *.
    destruct (process_entry is_multi_turn load_func_doc entry) as [e|err] eqn:E;
      [|discriminate].
    simpl in H. destruct (IH _ H) as (out' & -> & F).
    exists (e :: out'). rewrite <- app_assoc. split; [reflexivity|].
    constructor; assumption.
Qed.

Lemma process_multi_turn_total test_cases :
  Forall (fun e => exists e', process_entry is_multi_turn load_func_doc e = Returned e')
         test_cases ->
  exists out,
    process_multi_turn_test_case is_multi_turn load_func_doc test_cases = Returned out.
Proof.
  intros H. unfold process_multi_turn_test_case.
  enough (G : forall acc, exists out,
             for_each (fun acc entry =>
                         e ← process_entry is_multi_turn load_func_doc entry;
                         Returned (acc ++ [e])) test_cases acc = Returned out)
    by (apply G).
  induction H as [|entry entries [e' He] _ IH]; intros acc; simpl.
  - eexists. reflexivity.
  - unfold mbind, py_result_bind. rewrite He. simpl. apply IH.
Qed.

Lemma existing_results_spec model_name cats paths out :
  existing_results result_files model_name cats paths = Returned out ->
  out = persisted result_files model_name cats paths.
Proof.
  unfold existing_results, persisted. generalize (zip cats paths) as cfs.
  intros cfs.
  enough (G : forall acc,
             for_each
               (fun acc (cat_file : string * string) =>
                  match result_files (replace "/" "_" model_name)
                          (replace ".json" "_result.json" cat_file.2) with
                  | Some category_results =>
                    _ ← id_set category_results; Returned (acc ++ category_results)
                  | None => Returned acc
                  end) cfs acc = Returned out ->
             out = acc ++ concat (omap (fun cat_file : string * string =>
                        result_files (replace "/" "_" model_name)
                          (replace ".json" "_result.json" cat_file.2)) cfs))
    by (apply (G [])).
  induction cfs as [|cf cfs IH]; intros acc H; simpl in *.
  - injection H as <-. rewrite app_nil_r. reflexivity.
  - unfold mbind, py_result_bind in *.
    destruct (result_files _ _) as [rs|]; simpl in *.
    + destruct (id_set rs); [|discriminate]. simpl in H.
      rewrite (IH _ H), <- app_assoc. reflexivity.
    + apply IH. exact H.
Qed.

Lemma existing_results_total model_name cats paths :
  (forall dir file rs, result_files dir file = Some rs -> Forall has_string_id rs) ->
  exists out, existing_results result_files model_name cats paths = Returned out.
Proof.
  intros Hfiles. unfold existing_results. generalize (zip cats paths) as cfs.
  intros cfs.
  enough (G : forall acc, exists out,
             for_each
               (fun acc (cat_file : string * string) =>
                  match result_files (replace "/" "_" model_name)
                          (replace ".json" "_result.json" cat_file.2) with
                  | Some category_results =>
                    _ ← id_set category_results; Returned (acc ++ category_results)
                  | None => Returned acc
                  end) cfs acc = Returned out) by (apply G).
  induction cfs as [|cf cfs IH]; intros acc; simpl.
  - eexists. reflexivity.
  - unfold mbind, py_result_bind.
    destruct (result_files _ _) as [rs|] eqn:E; simpl.
    + rewrite (id_set_total rs (Hfiles _ _ _ E)). simpl. apply IH.
    + apply IH.
Qed.

Lemma persisted_string_ids model_name cats paths :
  (forall dir file rs, result_files dir file = Some rs -> Forall has_string_id rs) ->
  Forall has_string_id (persisted result_files model_name cats paths).
Proof.
  intros Hfiles. unfold persisted. generalize (zip cats paths) as cfs.
  induction cfs as [|cf cfs IH]; simpl; [constructor|].
  destruct (result_files _ _) as [rs|] eqn:E; simpl; [|exact IH].
  apply Forall_app. split; [exact (Hfiles _ _ _ E) | exact IH].
Qed.

Lemma insert_sorted_perm x l :
  Permutation (insert_sorted sort_key key_lt x l) (x :: l).
Proof.
  induction l as [|y l IH]; simpl; [reflexivity|].
  destruct (key_lt (sort_key y) (sort_key x)); [|reflexivity].
  rewrite IH. apply perm_swap.
Qed.

Lemma sorted_perm l : Permutation (sorted sort_key key_lt l) l.
Proof.
  induction l as [|x l IH]; simpl; [reflexivity|].
  rewrite insert_sorted_perm, IH. reflexivity.
Qed.

(** The order of the keys: [<] is asymmetric and "not smaller" is
    transitive, as for the tuples Python compares. *)
Hypothesis key_lt_asym : forall a b, key_lt a b = true -> key_lt b a = false.
Hypothesis key_le_trans :
  forall a b c, key_lt b a = false -> key_lt c b = false -> key_lt c a = false.

Lemma insert_sorted_sorted x l :
  StronglySorted (key_le sort_key key_lt) l ->
  StronglySorted (key_le sort_key key_lt) (insert_sorted sort_key key_lt x l).
Proof.
  induction 1 as [|y l Hl IH Hy]; simpl.
  - repeat constructor.
  - destruct (key_lt (sort_key y) (sort_key x)) eqn:E.
    + constructor; [exact IH|].
      eapply Permutation_Forall; [symmetry; apply insert_sorted_perm|].
      constructor; [|exact Hy]. unfold key_le. apply key_lt_asym. exact E.
    + constructor; [constructor; assumption|].
      constructor; [exact E|].
      eapply Forall_impl; [exact Hy|].
      intros z Hz. unfold key_le in *. eapply key_le_trans; eassumption.
Qed.

Lemma sorted_sorted l : StronglySorted (key_le sort_key key_lt) (sorted sort_key key_lt l).
Proof.
  induction l as [|x l IH]; simpl; [constructor|].
  apply insert_sorted_sorted. exact IH.
Qed.

End JobSourceFacts.

Lemma get_id_processed (p q : gmap string pyval) :
  q !! "id" = p !! "id" -> get_id q = get_id p.
Proof. unfold get_id. intros ->. reflexivity. Qed.

Section CollectTestCases.

Context {K : Type}.
Variable is_multi_turn : pyval -> bool.
Variable load_func_doc : pyval -> py_result (list pyval).
Variable sort_key : gmap string pyval -> K.
Variable key_lt : K -> K -> bool.
Variable result_files : string -> string -> option (list (gmap string pyval)).

Hypothesis key_lt_asym : forall a b, key_lt a b = true -> key_lt b a = false.
Hypothesis key_le_trans :
  forall a b c, key_lt b a = false -> key_lt c b = false -> key_lt c a = false.

Lemma processed_ids todo processed :
  Forall2 (fun p q => process_entry is_multi_turn load_func_doc p = Returned q)
          todo processed ->
  map get_id processed = map get_id todo.
Proof.
  induction 1 as [|p q todo processed Hpq _ IH]; [reflexivity|].
  simpl. rewrite IH. f_equal. apply get_id_processed.
  eapply process_entry_id. exact Hpq.
Qed.

Lemma collect_test_cases_inv model_name cats paths entries out :
  collect_test_cases is_multi_turn load_func_doc sort_key key_lt result_files
    model_name cats paths entries = Returned out ->
  exists processed,
    Forall2 (fun p q => process_entry is_multi_turn load_func_doc p = Returned q)
      (pending (map get_id (persisted result_files model_name cats paths)) entries)
      processed
    /\ out = sorted sort_key key_lt processed.
Proof.
  unfold collect_test_cases, mbind, py_result_bind. intros H.
  destruct (existing_results result_files model_name cats paths)
    as [existing|] eqn:E1; [|discriminate].
  apply existing_results_spec in E1. subst existing.
  destruct (ids_of _) as [existing_ids|] eqn:E2; [|discriminate].
  apply ids_of_spec in E2. subst existing_ids.
  destruct (log_existing _ _); [|discriminate].
  destruct (without_results _ _) as [todo|] eqn:E3; [|discriminate].
  apply without_results_spec in E3. subst todo.
  destruct (process_multi_turn_test_case _ _ _) as [processed|] eqn:E4;
    [|discriminate].
  apply process_multi_turn_spec in E4. injection H as <-.
  exists processed. split; [exact E4 | reflexivity].
Qed.

Lemma collect_test_cases_total model_name cats paths entries :
  Forall has_string_id entries ->
  (forall dir file rs, result_files dir file = Some rs -> Forall has_string_id rs) ->
  Forall (fun e => exists e', process_entry is_multi_turn load_func_doc e = Returned e')
         entries ->
  exists out,
    collect_test_cases is_multi_turn load_func_doc sort_key key_lt result_files
      model_name cats paths entries = Returned out.
Proof.
  intros Hids Hfiles Hproc. unfold collect_test_cases, mbind, py_result_bind.
  destruct (existing_results_total result_files model_name cats paths Hfiles)
    as [existing E1].
  rewrite E1. pose proof (existing_results_spec _ _ _ _ _ E1) as ->.
  destruct (ids_of_total _ (persisted_string_ids result_files model_name cats paths
                              Hfiles)) as [existing_ids E2].
  rewrite E2, (log_existing_total existing_ids entries Hids).
  destruct (without_results_total existing_ids entries Hids) as [todo E3].
  rewrite E3. apply without_results_spec in E3. subst todo.
  destruct (process_multi_turn_total is_multi_turn load_func_doc
              (pending existing_ids entries)) as [processed E4].
  { unfold pending. rewrite List.Forall_forall in *. intros e He.
    apply List.filter_In in He as [He _]. apply Hproc. exact He. }
  rewrite E4. eexists. reflexivity.
Qed.

(** C5.  What [collect_test_cases] returns are the test cases whose
    identifier is not among those of the results on file, each with its
    function documents filled in and its identifier untouched, in the
    order of the sort key; no test case with a result on file is among
    them.  [main] reports that nothing is left when the list is empty
    and hands it to [generate_results] otherwise.  With string
    identifiers everywhere and function documents at hand the call does
    return. *)
Theorem pending_cases_in_key_order model_name cats paths entries :
  let existing_ids := map get_id (persisted result_files model_name cats paths) in
  let todo := pending existing_ids entries in
  let collect :=
    collect_test_cases is_multi_turn load_func_doc sort_key key_lt result_files
      model_name cats paths entries in
  (forall out, collect = Returned out ->
     (exists processed,
        Forall2 (fun p q => process_entry is_multi_turn load_func_doc p = Returned q
                            /\ q !! "id" = p !! "id") todo processed
        /\ out = sorted sort_key key_lt processed)
     /\ Permutation (map get_id out) (map get_id todo)
     /\ StronglySorted (key_le sort_key key_lt) out
     /\ (forall e, In e out -> py_in (get_id e) existing_ids = false)
     /\ (forall e s, In e out -> e !! "id" = Some (PStr s) ->
           ~ In (PStr s) existing_ids)
     /\ main is_multi_turn load_func_doc sort_key key_lt result_files
          model_name cats paths entries
        = Returned (match todo with
                    | [] => ReportNothingToGenerate
                    | _ => GenerateResults out
                    end))
  /\ (Forall has_string_id entries ->
      (forall dir file rs, result_files dir file = Some rs ->
         Forall has_string_id rs) ->
      Forall (fun e => exists e',
                process_entry is_multi_turn load_func_doc e = Returned e') entries ->
      exists out, collect = Returned out).
Proof.
  intros existing_ids todo collect. split; [|apply collect_test_cases_total].
  intros out H.
  destruct (collect_test_cases_inv _ _ _ _ _ H) as (processed & F & ->).
  fold existing_ids in F. fold todo in F.
  assert (P : Permutation (map get_id (sorted sort_key key_lt processed))
                          (map get_id todo)).
  { rewrite <- (processed_ids todo processed F).
    apply Permutation_map, sorted_perm. }
  assert (Hnot : forall e, In e (sorted sort_key key_lt processed) ->
                           py_in (get_id e) existing_ids = false).
  { intros e He. apply (in_map get_id) in He.
    apply (Permutation_in _ P) in He. apply in_map_iff in He as (p & <- & Hp).
    unfold todo, pending in Hp. apply List.filter_In in Hp as [_ Hp].
    apply negb_true_iff in Hp. exact Hp. }
  split; [|split; [exact P|split; [|split; [exact Hnot|split]]]].
  - exists processed. split; [|reflexivity].
    eapply Forall2_impl; [exact F|]. intros p q Hpq. split; [exact Hpq|].
    eapply process_entry_id. exact Hpq.
  - apply sorted_sorted; assumption.
  - intros e s He Hs Hin. specialize (Hnot e He).
    unfold get_id in Hnot. rewrite Hs in Hnot. simpl in Hnot.
    apply py_in_str in Hin. congruence.
  - unfold main, mbind, py_result_bind. fold collect. rewrite H.
    assert (L : length (sorted sort_key key_lt processed) = length todo).
    { rewrite <- (length_map get_id), <- (length_map get_id todo).
      apply Permutation_length. exact P. }
    rewrite L. destruct todo; reflexivity.
Qed.

End CollectTestCases.

(** A run resumed with one result on file: of three test cases the two
    without a result come back, in the order of their numbers. *)
Lemma pending_cases_in_key_order_witness :
  collect_test_cases (fun _ => false) (fun _ => Returned []) number_of Nat.ltb
    one_result_file "org/model" ["simple"] ["simple.json"]
    [numbered "simple_2" 2; numbered "simple_1" 1; numbered "simple_0" 0]
  = Returned [numbered "simple_0" 0; numbered "simple_2" 2]
  /\ StronglySorted (key_le number_of Nat.ltb)
       [numbered "simple_0" 0; numbered "simple_2" 2].
Proof.
  assert (E : collect_test_cases (fun _ => false) (fun _ => Returned []) number_of
                Nat.ltb one_result_file "org/model" ["simple"] ["simple.json"]
                [numbered "simple_2" 2; numbered "simple_1" 1; numbered "simple_0" 0]
              = Returned [numbered "simple_0" 0; numbered "simple_2" 2])
    by (vm_compute; reflexivity).
  split; [exact E|].
  refine (proj1 (proj2 (proj2 (proj1
            (pending_cases_in_key_order (fun _ => false) (fun _ => Returned [])
               number_of Nat.ltb one_result_file _ _
               "org/model" ["simple"] ["simple.json"]
               [numbered "simple_2" 2; numbered "simple_1" 1; numbered "simple_0" 0])
            _ E)))).
  - intros a b H. apply Nat.ltb_lt in H. apply Nat.ltb_ge. lia.
  - intros a b c H1 H2. apply Nat.ltb_ge in H1, H2. apply Nat.ltb_ge. lia.
Defined.

(** ** What the handler is given *)

Section Traced.

Variable P : event -> Prop.

Lemma traced_same_trace {A : Type} (m : M A) :
  (forall st, trace (m st).2 = trace st) -> triple (traced P) m (fun _ => True).
Proof.
  intros H st r st' E T. unfold traced in *.
  pose proof (H st) as Ht. rewrite E in Ht. simpl in Ht. rewrite Ht.
  split; [exact T | destruct r; exact Logic.I].
Qed.

Lemma traced_get_case : triple (traced P) get_case (fun _ => True).
Proof. apply traced_same_trace. reflexivity. Qed.

Lemma traced_setitem k v : triple (traced P) (setitem k v) (fun _ => True).
Proof. apply traced_same_trace. reflexivity. Qed.

Lemma traced_case_item k : triple (traced P) (case_item k) (fun _ => True).
Proof. apply traced_same_trace. reflexivity. Qed.

Lemma traced_bump_counters : triple (traced P) bump_counters (fun _ => True).
Proof. apply traced_same_trace. reflexivity. Qed.

Lemma traced_get_rate_limit_count :
  triple (traced P) get_rate_limit_count (fun _ => True).
Proof. apply traced_same_trace. reflexivity. Qed.

Lemma traced_emit evs : Forall P evs -> triple (traced P) (emit evs) (fun _ => True).
Proof.
  intros H st r st' E T. injection E as <- <-.
  split; [|exact Logic.I]. unfold traced. simpl. apply Forall_app. split; assumption.
Qed.

Hypothesis P_call : forall name, P (ECall name).
Hypothesis P_log : forall line, P (ELog line).
Hypothesis P_backoff : forall d, P (EBackoff d).
Hypothesis P_sleep : forall d, P (ESleep d).

Lemma traced_call f : triple (traced P) (call f) (fun _ => True).
Proof.
  destruct f; try apply triple_raise. apply traced_emit. repeat constructor. apply P_call.
Qed.

Lemma traced_get_active_test_count reading :
  triple (traced P) (get_active_test_count reading) (fun _ => True).
Proof.
  unfold get_active_test_count. eapply triple_bind; [apply traced_get_case|].
  intros tc _. destruct (tc !! "_get_active_count").
  - apply triple_then; [apply traced_call|]. intros _. apply triple_ret. exact Logic.I.
  - apply triple_ret. exact Logic.I.
Qed.

Lemma traced_backoff_sleep a delay :
  triple (traced P) (backoff_sleep a delay) (fun _ => True).
Proof.
  unfold backoff_sleep. eapply triple_bind; [apply traced_get_case|].
  intros tc _. destruct (truthy _).
  - apply triple_then.
    { destruct (negb _); [|apply triple_ret; exact Logic.I].
      destruct (default PNone (tc !! "_stall_event")); try apply triple_raise.
      apply triple_ret. exact Logic.I. }
    intros _.
    pose proof (stall_wait_sleeps (wait_fuel (inject_Z delay)) (att_stall a) 0 0
                  (inject_Z delay)) as Hs.
    destruct (stall_wait _ _ _ _ _) as [poked sleeps]. simpl in Hs.
    apply triple_then.
    { apply traced_emit. eapply Forall_impl; [exact Hs|].
      intros ev Hev. destruct ev; try contradiction. apply P_sleep. }
    intros _. destruct poked; [apply traced_setitem|].
    apply triple_ret. exact Logic.I.
  - apply traced_emit. repeat constructor. apply P_sleep.
Qed.

Lemma traced_on_transient a e : triple (traced P) (on_transient a e) (fun _ => True).
Proof.
  unfold on_transient.
  apply triple_then; [apply traced_bump_counters|]. intros _.
  apply triple_then; [apply traced_get_rate_limit_count|]. intros n.
  apply triple_then; [apply traced_setitem|]. intros _.
  apply triple_then; [apply traced_setitem|]. intros _.
  apply triple_then; [apply traced_get_case|]. intros tc.
  apply triple_then.
  { destruct (tc !! "_increment_rate_limit");
      [apply traced_call | apply triple_ret; exact Logic.I]. }
  intros _. destruct (is_timeout e).
  - apply triple_then; [apply traced_case_item|]. intros id.
    apply traced_emit. repeat constructor. apply P_log.
  - apply triple_then; [apply traced_get_active_test_count|]. intros n'.
    apply triple_then.
    { apply traced_emit. repeat constructor. apply P_backoff. }
    intros _. apply traced_backoff_sleep.
Qed.

Lemma traced_on_fatal e : triple (traced P) (on_fatal e) (fun _ => True).
Proof.
  unfold on_fatal. apply triple_then.
  { destruct (is_content_filter e); [apply triple_ret; exact Logic.I|].
    apply triple_then; [apply traced_case_item|]. intros id.
    apply traced_emit. repeat constructor. apply P_log. }
  intros _. apply triple_then; [apply traced_case_item|]. intros id.
  apply triple_ret. exact Logic.I.
Qed.

Lemma traced_result_to_write result metadata :
  triple (traced P) (result_to_write result metadata) (fun _ => True).
Proof.
  unfold result_to_write.
  apply triple_then; [apply traced_case_item|]. intros id.
  apply triple_then; [apply traced_get_rate_limit_count|]. intros n.
  apply triple_ret. exact Logic.I.
Qed.

Lemma traced_prologue start : triple (traced P) (prologue start) (fun _ => True).
Proof.
  unfold prologue.
  apply triple_then; [apply traced_setitem|]. intros _.
  apply triple_then; [apply traced_setitem|]. intros _.
  apply triple_then; [apply traced_case_item|]. intros f.
  destruct f; try apply triple_raise. apply triple_ret. exact Logic.I.
Qed.

(** The loop keeps the invariant when the attempt itself does. *)
Hypothesis P_attempt :
  triple (traced P) (test_case_copy ← copy_test_case; emit [EInfer test_case_copy])
         (fun _ => True).

Lemma retry_loop_traced script st :
  traced P st -> traced P (retry_loop script st).2.
Proof.
  revert st. induction script as [|a script IH]; intros st T; [exact T|].
  cbn [retry_loop].
  destruct ((copy_test_case ≫= λ c, emit [EInfer c]) st) as [[[]|err] st1] eqn:Hc;
    pose proof (proj1 (P_attempt _ _ _ Hc T)) as T1; [|exact T1].
  destruct (att_outcome a) as [result metadata|e].
  - destruct (result_to_write result metadata st1) as [r st2] eqn:Hr.
    exact (proj1 (traced_result_to_write _ _ _ _ _ Hr T1)).
  - destruct (is_transient e).
    + destruct (on_transient a e st1) as [[[]|err] st2] eqn:Ht;
        pose proof (proj1 (traced_on_transient _ _ _ _ _ Ht T1)) as T2;
        [apply IH; exact T2 | exact T2].
    + destruct (on_fatal e st1) as [r st2] eqn:Hr.
      exact (proj1 (traced_on_fatal _ _ _ _ Hr T1)).
Qed.

Lemma multi_threaded_inference_traced start script tc :
  traced P (multi_threaded_inference start script tc).2.
Proof.
  unfold multi_threaded_inference.
  set (st := {| test_case := tc; retry_count := 0; rate_limit_count := 0;
                trace := [] |}).
  assert (T : traced P st) by constructor.
  destruct (prologue start st) as [[[]|err] st1] eqn:Hp;
    pose proof (proj1 (traced_prologue _ _ _ _ Hp T)) as T1.
  - apply retry_loop_traced. exact T1.
  - exact T1.
Qed.

End Traced.

Lemma copy_test_case_no_handles :
  triple (traced handler_sees_no_handles)
         (test_case_copy ← copy_test_case; emit [EInfer test_case_copy])
         (fun _ => True).
Proof.
  eapply triple_bind with (Q := no_handles).
  - intros st r st' E T. unfold copy_test_case, pop_default, restore_if_truthy in E.
    run_monad. injection E as <- <-. split; [exact T|].
    unfold no_handles. repeat split;
      rewrite ?lookup_delete_ne by done; apply lookup_delete_eq.
  - intros c Hc. apply traced_emit. constructor; [exact Hc | constructor].
Qed.

(** X1.  Whatever the test case holds and however the run goes, no
    copy handed to [handler.inference] holds one of the three handles:
    they are popped before the copy is made, at every attempt. *)
Theorem handler_never_sees_handles start script tc :
  Forall handler_sees_no_handles
         (trace (multi_threaded_inference start script tc).2).
Proof.
  apply multi_threaded_inference_traced; try (intros; exact Logic.I).
  apply copy_test_case_no_handles.
Qed.

(** ** The nudge *)





(** ** The delay ladder *)

(** X3.  The delay chosen after a rate-limit failure lies between 5 and
    65 seconds and never shrinks as the number of active jobs grows from
    one on; a count of zero or less falls into the last rung of the
    ladder and gets 45 seconds. *)
Theorem dynamic_delay_range :
  (forall n, 5 <= dynamic_delay n <= 65)%Z
  /\ (forall n m, 1 <= n -> n <= m -> dynamic_delay n <= dynamic_delay m)%Z
  /\ (forall n, n <= 0 -> dynamic_delay n = 45)%Z.
Proof.
  unfold dynamic_delay, RETRY_DELAY. repeat split; intros;
    repeat case_match; lia.
Qed.

Lemma dynamic_delay_range_witness :
  (dynamic_delay 3 <= dynamic_delay 9)%Z /\ dynamic_delay 0 = 45%Z.
Proof.
  split.
  - apply (proj1 (proj2 dynamic_delay_range)); lia.
  - apply (proj2 (proj2 dynamic_delay_range)). lia.
Defined.

(** ** Test cases the loop cannot work with *)

Lemma prologue_trace start st : trace (prologue start st).2 = trace st.
Proof.
  unfold prologue. run_monad. repeat case_match; reflexivity.
Qed.

(** X4.  A test case whose ["function"] is missing or is not a list
    never reaches the handler: the call ends in [KeyError] or in the
    assertion before the first attempt, whatever the handler would have
    answered. *)
Theorem function_must_be_a_list start script tc :
  (tc !! "function" = None ->
   (multi_threaded_inference start script tc).1 = Some (Raised (KeyError "function")))
  /\ (forall v, tc !! "function" = Some v -> (forall l, v <> PList l) ->
      (multi_threaded_inference start script tc).1 = Some (Raised AssertionError))
  /\ ((forall l, tc !! "function" <> Some (PList l)) ->
      trace (multi_threaded_inference start script tc).2 = []).
Proof.
  unfold multi_threaded_inference.
  set (st := {| test_case := tc; retry_count := 0; rate_limit_count := 0;
                trace := [] |}).
  pose proof (prologue_trace start st) as T.
  split; [|split].
  - intros H. unfold prologue. run_monad. rewrite !lookup_insert_ne by done.
    rewrite H. reflexivity.
  - intros v H Hv. unfold prologue. run_monad. rewrite !lookup_insert_ne by done.
    rewrite H. simpl. destruct v; try reflexivity. exfalso. eapply Hv. reflexivity.
  - intros H. revert T. unfold prologue. run_monad.
    rewrite !lookup_insert_ne by done.
    destruct (tc !! "function") as [v|] eqn:E; simpl; [|intros; reflexivity].
    destruct v; simpl; try (intros; reflexivity).
    exfalso. eapply H. reflexivity.
Qed.

Lemma function_must_be_a_list_witness :
  (multi_threaded_inference 0 [example_attempt answer]
     (<["id" := PStr "simple_0"]> ∅)).1 = Some (Raised (KeyError "function"))
  /\ (multi_threaded_inference 0 [example_attempt answer]
        (<["function" := PStr "f"]> example_case)).1 = Some (Raised AssertionError).
Proof.
  split.
  - apply (proj1 (function_must_be_a_list 0 _ _)). reflexivity.
  - apply (proj1 (proj2 (function_must_be_a_list 0 _ _)) (PStr "f")).
    + reflexivity.
    + discriminate.
Defined.

(** What the head of the [try] block leaves of the test case: every
    key but the handles as it was, and a handle only if it is truthy. *)
Lemma copy_test_case_frame st :
  exists tc',
    copy_test_case st
    = (Returned (job_copy (test_case st)),
       {| test_case := tc'; retry_count := retry_count st;
          rate_limit_count := rate_limit_count st; trace := trace st |})
    /\ forall k,
         tc' !! k
         = if bool_decide (k ∈ ["_stall_event"; "_increment_rate_limit";
                                "_get_active_count"])
           then match test_case st !! k with
                | Some v => if truthy v then Some v else None
                | None => None
                end
           else test_case st !! k.
Proof.
  unfold copy_test_case, pop_default. run_monad.
  eexists. split; [reflexivity|]. intros k.
  unfold restore_if_truthy. rewrite !lookup_delete_ne by done.
  destruct (decide (k = "_get_active_count")) as [->|N1].
  { rewrite bool_decide_eq_true_2 by set_solver.
    destruct (test_case st !! "_get_active_count") as [v|]; simpl.
    - destruct (truthy v) eqn:Tv; [by rewrite lookup_insert_eq|].
      repeat case_match; rewrite ?lookup_insert_ne by done;
        rewrite ?lookup_delete_ne by done; apply lookup_delete_eq.
    - repeat case_match; rewrite ?lookup_insert_ne by done;
        rewrite ?lookup_delete_ne by done; apply lookup_delete_eq. }
  destruct (decide (k = "_increment_rate_limit")) as [->|N2].
  { rewrite bool_decide_eq_true_2 by set_solver.
    destruct (test_case st !! "_increment_rate_limit") as [v|]; simpl.
    - destruct (truthy v) eqn:Tv.
      + repeat case_match; rewrite ?lookup_insert_ne by done;
          by rewrite lookup_insert_eq.
      + repeat case_match; rewrite ?lookup_insert_ne by done;
          rewrite ?lookup_delete_ne by done; apply lookup_delete_eq.
    - repeat case_match; rewrite ?lookup_insert_ne by done;
        rewrite ?lookup_delete_ne by done; apply lookup_delete_eq. }
  destruct (decide (k = "_stall_event")) as [->|N3].
  { rewrite bool_decide_eq_true_2 by set_solver.
    destruct (test_case st !! "_stall_event") as [v|]; simpl.
    - destruct (truthy v) eqn:Tv.
      + repeat case_match; rewrite ?lookup_insert_ne by done;
          by rewrite lookup_insert_eq.
      + repeat case_match; rewrite ?lookup_insert_ne by done;
          rewrite ?lookup_delete_ne by done; apply lookup_delete_eq.
    - repeat case_match; rewrite ?lookup_insert_ne by done;
        rewrite ?lookup_delete_ne by done; apply lookup_delete_eq. }
  rewrite bool_decide_eq_false_2
    by (intros Hk; repeat (apply elem_of_cons in Hk as [?|Hk]; [congruence|]);
        by apply elem_of_nil in Hk).
  repeat case_match; rewrite ?lookup_insert_ne by done;
    by rewrite ?lookup_delete_ne by done.
Qed.

(** X5.  The head of the [try] block puts a handle back only if it is
    truthy: a handle stored as [None], [0] or an empty value is gone
    from the test case after the copy is made, while the copy is made
    all the same and every key that is not a handle stays as it was. *)
Theorem falsy_handle_is_dropped st k v :
  k ∈ ["_stall_event"; "_increment_rate_limit"; "_get_active_count"] ->
  test_case st !! k = Some v -> truthy v = false ->
  exists st',
    copy_test_case st = (Returned (job_copy (test_case st)), st')
    /\ test_case st' !! k = None
    /\ (forall k', k' ∉ ["_stall_event"; "_increment_rate_limit"; "_get_active_count"] ->
          test_case st' !! k' = test_case st !! k')
    /\ trace st' = trace st.
Proof.
  intros Hk Hv Ht. destruct (copy_test_case_frame st) as (tc' & E & H).
  eexists. split; [exact E|]. simpl. split; [|split; [|reflexivity]].
  - rewrite H, bool_decide_eq_true_2 by exact Hk. rewrite Hv, Ht. reflexivity.
  - intros k' Hk'. rewrite H, bool_decide_eq_false_2 by exact Hk'. reflexivity.
Qed.

Lemma falsy_handle_is_dropped_witness :
  exists st',
    copy_test_case (initial_job_state 0 (<["_stall_event" := PNone]> example_case))
    = (Returned (job_copy (<["_rate_limit_count" := PInt 0]>
                   (<["_processing_start_time" := PFloat 0]>
                   (<["_stall_event" := PNone]> example_case)))), st')
    /\ test_case st' !! "_stall_event" = None.
Proof.
  destruct (falsy_handle_is_dropped
              (initial_job_state 0 (<["_stall_event" := PNone]> example_case))
              "_stall_event" PNone) as (st' & E & H & _).
  - apply elem_of_cons. left. reflexivity.
  - reflexivity.
  - reflexivity.
  - exists st'. split; [exact E | exact H].
Defined.

(** ** What a run leaves of the test case *)

Section Frame.

Variable k : string.
Variable v : option pyval.
Hypothesis k_payload : k ∉ bookkeeping_keys.

Lemma bookkeeping_ne k' : k' ∈ bookkeeping_keys -> k' <> k.
Proof. intros H ->. exact (k_payload H). Qed.

Lemma holds_get_case : triple (holds k v) get_case (fun tc => tc !! k = v).
Proof. intros st r st' E H. injection E as <- <-. split; [exact H | exact H]. Qed.

Lemma holds_set_case tc : tc !! k = v -> triple (holds k v) (set_case tc) (fun _ => True).
Proof.
  intros H st r st' E _. injection E as <- <-. split; [exact H | exact Logic.I].
Qed.

Lemma holds_setitem k' x :
  k' ∈ bookkeeping_keys -> triple (holds k v) (setitem k' x) (fun _ => True).
Proof.
  intros Hk. unfold setitem. eapply triple_bind; [apply holds_get_case|].
  intros tc Htc. apply holds_set_case.
  rewrite lookup_insert_ne by (apply bookkeeping_ne; exact Hk). exact Htc.
Qed.

Lemma holds_same_case {A : Type} (m : M A) :
  (forall st, test_case (m st).2 = test_case st) ->
  triple (holds k v) m (fun _ => True).
Proof.
  intros H st r st' E Hv. unfold holds in *.
  pose proof (H st) as Ht. rewrite E in Ht. simpl in Ht. rewrite Ht.
  split; [exact Hv | destruct r; exact Logic.I].
Qed.

Lemma holds_emit evs : triple (holds k v) (emit evs) (fun _ => True).
Proof. apply holds_same_case. reflexivity. Qed.

Lemma holds_call f : triple (holds k v) (call f) (fun _ => True).
Proof. apply holds_same_case. intros st. destruct f; reflexivity. Qed.

Lemma holds_case_item k' : triple (holds k v) (case_item k') (fun _ => True).
Proof. apply holds_same_case. reflexivity. Qed.

Lemma holds_bump_counters : triple (holds k v) bump_counters (fun _ => True).
Proof. apply holds_same_case. reflexivity. Qed.

Lemma holds_get_rate_limit_count :
  triple (holds k v) get_rate_limit_count (fun _ => True).
Proof. apply holds_same_case. reflexivity. Qed.

Lemma holds_get_active_test_count reading :
  triple (holds k v) (get_active_test_count reading) (fun _ => True).
Proof.
  unfold get_active_test_count. eapply triple_bind; [apply holds_get_case|].
  intros tc _. destruct (tc !! "_get_active_count").
  - apply triple_then; [apply holds_call|]. intros _. apply triple_ret. exact Logic.I.
  - apply triple_ret. exact Logic.I.
Qed.

Lemma holds_backoff_sleep a delay :
  triple (holds k v) (backoff_sleep a delay) (fun _ => True).
Proof.
  unfold backoff_sleep. eapply triple_bind; [apply holds_get_case|].
  intros tc _. destruct (truthy _); [|apply holds_emit].
  apply triple_then.
  { destruct (negb _); [|apply triple_ret; exact Logic.I].
    destruct (default PNone (tc !! "_stall_event")); try apply triple_raise.
    apply triple_ret. exact Logic.I. }
  intros _. destruct (stall_wait _ _ _ _ _) as [poked sleeps].
  apply triple_then; [apply holds_emit|]. intros _.
  destruct poked; [|apply triple_ret; exact Logic.I].
  apply holds_setitem. unfold bookkeeping_keys. set_solver.
Qed.

Lemma holds_on_transient a e : triple (holds k v) (on_transient a e) (fun _ => True).
Proof.
  unfold on_transient.
  apply triple_then; [apply holds_bump_counters|]. intros _.
  apply triple_then; [apply holds_get_rate_limit_count|]. intros n.
  apply triple_then; [apply holds_setitem; unfold bookkeeping_keys; set_solver|].
  intros _.
  apply triple_then; [apply holds_setitem; unfold bookkeeping_keys; set_solver|].
  intros _.
  eapply triple_bind; [apply holds_get_case|]. intros tc _.
  apply triple_then.
  { destruct (tc !! "_increment_rate_limit");
      [apply holds_call | apply triple_ret; exact Logic.I]. }
  intros _. destruct (is_timeout e).
  - apply triple_then; [apply holds_case_item|]. intros id. apply holds_emit.
  - apply triple_then; [apply holds_get_active_test_count|]. intros n'.
    apply triple_then; [apply holds_emit|]. intros _. apply holds_backoff_sleep.
Qed.

Lemma holds_copy_test_case : triple (holds k v) copy_test_case (fun _ => True).
Proof.
  intros st r st' E H. destruct (copy_test_case_frame st) as (tc' & E' & Hk).
  rewrite E' in E. injection E as <- <-. split; [|exact Logic.I].
  unfold holds. simpl. rewrite Hk.
  rewrite bool_decide_eq_false_2; [exact H|].
  intros Hin. apply k_payload. unfold bookkeeping_keys.
  repeat (apply elem_of_cons in Hin as [->|Hin]; [repeat constructor|]).
  by apply elem_of_nil in Hin.
Qed.

Lemma holds_prologue start : triple (holds k v) (prologue start) (fun _ => True).
Proof.
  unfold prologue.
  apply triple_then; [apply holds_setitem; unfold bookkeeping_keys; set_solver|].
  intros _.
  apply triple_then; [apply holds_setitem; unfold bookkeeping_keys; set_solver|].
  intros _.
  apply triple_then; [apply holds_case_item|]. intros f.
  destruct f; try apply triple_raise. apply triple_ret. exact Logic.I.
Qed.

Lemma holds_attempt :
  triple (holds k v) (test_case_copy ← copy_test_case; emit [EInfer test_case_copy])
         (fun _ => True).
Proof. apply triple_then; [apply holds_copy_test_case|]. intros c. apply holds_emit. Qed.

Lemma holds_result_to_write result metadata :
  triple (holds k v) (result_to_write result metadata) (fun _ => True).
Proof.
  unfold result_to_write.
  apply triple_then; [apply holds_case_item|]. intros id.
  apply triple_then; [apply holds_get_rate_limit_count|]. intros n.
  apply triple_ret. exact Logic.I.
Qed.

Lemma holds_on_fatal e : triple (holds k v) (on_fatal e) (fun _ => True).
Proof.
  unfold on_fatal. apply triple_then.
  { destruct (is_content_filter e); [apply triple_ret; exact Logic.I|].
    apply triple_then; [apply holds_case_item|]. intros id. apply holds_emit. }
  intros _. apply triple_then; [apply holds_case_item|]. intros id.
  apply triple_ret. exact Logic.I.
Qed.

Lemma retry_loop_holds script st : holds k v st -> holds k v (retry_loop script st).2.
Proof.
  revert st. induction script as [|a script IH]; intros st H; [exact H|].
  cbn [retry_loop].
  destruct ((copy_test_case ≫= λ c, emit [EInfer c]) st) as [[[]|err] st1] eqn:Hc;
    pose proof (proj1 (holds_attempt _ _ _ Hc H)) as H1; [|exact H1].
  destruct (att_outcome a) as [result metadata|e].
  - destruct (result_to_write result metadata st1) as [r st2] eqn:Hr.
    exact (proj1 (holds_result_to_write _ _ _ _ _ Hr H1)).
  - destruct (is_transient e).
    + destruct (on_transient a e st1) as [[[]|err] st2] eqn:Ht;
        pose proof (proj1 (holds_on_transient _ _ _ _ _ Ht H1)) as H2;
        [apply IH; exact H2 | exact H2].
    + destruct (on_fatal e st1) as [r st2] eqn:Hr.
      exact (proj1 (holds_on_fatal _ _ _ _ Hr H1)).
Qed.

End Frame.

(** X6.  A run of [multi_threaded_inference] changes the test case it
    shares with the dispatcher in the seven bookkeeping keys only:
    every other key, the payload of the test case, holds after the run
    what it held before, however the run ends. *)
Theorem payload_is_untouched start script tc k :
  k ∉ bookkeeping_keys ->
  test_case (multi_threaded_inference start script tc).2 !! k = tc !! k.
Proof.
  intros Hk. unfold multi_threaded_inference.
  set (st := {| test_case := tc; retry_count := 0; rate_limit_count := 0;
                trace := [] |}).
  assert (H : holds k (tc !! k) st) by reflexivity.
  destruct (prologue start st) as [[[]|err] st1] eqn:Hp;
    pose proof (proj1 (holds_prologue k (tc !! k) Hk _ _ _ _ Hp H)) as H1.
  - apply (retry_loop_holds k (tc !! k) Hk script st1 H1).
  - exact H1.
Qed.

Lemma payload_is_untouched_witness :
  test_case (multi_threaded_inference 0
               [example_attempt (Failure rate_limited); example_attempt answer]
               (submit example_case)).2 !! "function" = Some (PList []).
Proof.
  rewrite payload_is_untouched; [reflexivity|].
  unfold bookkeeping_keys. intros H.
  repeat (apply elem_of_cons in H as [H|H]; [discriminate|]).
  by apply elem_of_nil in H.
Defined.

(** ** A test case without an identifier *)

Lemma id_payload : "id" ∉ bookkeeping_keys.
Proof.
  unfold bookkeeping_keys. intros H.
  repeat (apply elem_of_cons in H as [H|H]; [discriminate|]).
  by apply elem_of_nil in H.
Qed.

Lemma case_item_absent k : triple (holds k None) (case_item k) (fun _ => False).
Proof.
  intros st r st' E H. unfold holds in H. unfold case_item in E. run_monad.
  rewrite H in E. injection E as <- <-. split; [exact H | exact Logic.I].
Qed.

Lemma result_to_write_absent result metadata :
  triple (holds "id" None) (result_to_write result metadata) (fun _ => False).
Proof.
  unfold result_to_write. eapply triple_bind; [apply case_item_absent|].
  intros ? [].
Qed.

Lemma on_fatal_absent e : triple (holds "id" None) (on_fatal e) (fun _ => False).
Proof.
  unfold on_fatal. apply triple_then.
  { destruct (is_content_filter e); [apply triple_ret; exact Logic.I|].
    apply triple_then; [apply holds_case_item|]. intros id. apply holds_emit. }
  intros _. eapply triple_bind; [apply case_item_absent|]. intros ? [].
Qed.

Lemma retry_loop_absent script st d :
  holds "id" None st -> (retry_loop script st).1 <> Some (Returned d).
Proof.
  revert st. induction script as [|a script IH]; intros st H; [discriminate|].
  cbn [retry_loop].
  destruct ((copy_test_case ≫= λ c, emit [EInfer c]) st) as [[[]|err] st1] eqn:Hc;
    pose proof (proj1 (holds_attempt "id" None id_payload _ _ _ Hc H)) as H1;
    [|discriminate].
  destruct (att_outcome a) as [result metadata|e].
  - destruct (result_to_write result metadata st1) as [r st2] eqn:Hr.
    pose proof (proj2 (result_to_write_absent _ _ _ _ _ Hr H1)) as F.
    destruct r; [destruct F | discriminate].
  - destruct (is_transient e).
    + destruct (on_transient a e st1) as [[[]|err] st2] eqn:Ht;
        pose proof (proj1 (holds_on_transient "id" None id_payload _ _ _ _ _ Ht H1))
          as H2; [apply IH; exact H2 | discriminate].
    + destruct (on_fatal e st1) as [r st2] eqn:Hr.
      pose proof (proj2 (on_fatal_absent _ _ _ _ Hr H1)) as F.
      destruct r; [destruct F | discriminate].
Qed.

(** X7.  A test case without an ["id"] never yields a result: whatever
    the handler answers, the run does not return.  When the handler
    answers at the first attempt, the answer is lost: the run raises
    [KeyError] for ["id"] after the one call of the handler. *)
Theorem no_id_no_result start script tc :
  tc !! "id" = None ->
  (forall d, (multi_threaded_inference start script tc).1 <> Some (Returned d))
  /\ (forall fs a rest result metadata,
        tc !! "function" = Some (PList fs) -> script = a :: rest ->
        att_outcome a = Success result metadata ->
        (multi_threaded_inference start script tc).1 = Some (Raised (KeyError "id"))
        /\ invocations (trace (multi_threaded_inference start script tc).2) = 1%nat).
Proof.
  intros Hid. split.
  - intros d. unfold multi_threaded_inference.
    set (st := {| test_case := tc; retry_count := 0; rate_limit_count := 0;
                  trace := [] |}).
    assert (H : holds "id" None st) by exact Hid.
    destruct (prologue start st) as [[[]|err] st1] eqn:Hp; [|discriminate].
    apply retry_loop_absent.
    exact (proj1 (holds_prologue "id" None id_payload _ _ _ _ Hp H)).
  - intros fs a rest result metadata Hf -> Ha.
    destruct (copy_test_case_frame (initial_job_state start tc)) as (tc' & E & Hk).
    assert (Hid' : tc' !! "id" = None).
    { rewrite Hk. rewrite bool_decide_eq_false_2.
      - unfold initial_job_state. simpl. by rewrite !lookup_insert_ne by done.
      - intros H. repeat (apply elem_of_cons in H as [H|H]; [discriminate|]).
        by apply elem_of_nil in H. }
    assert (R : multi_threaded_inference start (a :: rest) tc
                = (Some (Raised (KeyError "id")),
                   {| test_case := tc'; retry_count := 0; rate_limit_count := 0;
                      trace := [EInfer (job_copy (test_case (initial_job_state start tc)))]
                   |})).
    { rewrite (multi_threaded_inference_loop _ _ _ fs Hf).
      cbn [retry_loop]. unfold mbind at 1. unfold M_bind.
      rewrite E. unfold emit. rewrite Ha. unfold result_to_write.
      run_monad. rewrite Hid'. reflexivity. }
    rewrite R. split; reflexivity.
Qed.

Lemma no_id_no_result_witness :
  (multi_threaded_inference 0 [example_attempt answer] (delete "id" (submit example_case))).1
  = Some (Raised (KeyError "id")).
Proof.
  refine (proj1 (proj2 (no_id_no_result 0 _ (delete "id" (submit example_case)) _)
           [] (example_attempt answer) [] (PStr "[f(x=1)]") ∅ _ eq_refl eq_refl));
    reflexivity.
Defined.

(** ** The retry counters *)

Lemma calls_app name (l l' : list event) :
  calls name (l ++ l') = (calls name l + calls name l')%nat.
Proof. unfold calls. rewrite List.filter_app, length_app. reflexivity. Qed.

Lemma calls_sleeps name (evs : list event) : Forall is_sleep evs -> calls name evs = 0%nat.
Proof.
  induction 1 as [|ev evs H _ IH]; [reflexivity|].
  destruct ev; try contradiction. exact IH.
Qed.

Lemma transient_events_calls id a e :
  calls "increment_rate_limit" (transient_events id a e) = 1%nat.
Proof.
  unfold transient_events. destruct (is_timeout e); [reflexivity|].
  change (calls "increment_rate_limit"
            (ECall "increment_rate_limit" :: ECall "get_active_count"
               :: EBackoff (dynamic_delay (att_active a)) :: (backoff_wait a).2))
    with (S (calls "increment_rate_limit" (backoff_wait a).2)).
  f_equal. apply calls_sleeps, stall_wait_sleeps.
Qed.

Lemma after_transient_counter id a e st :
  test_case (after_transient id a e st) !! "_rate_limit_count"
  = Some (PInt (rate_limit_count st + 1)).
Proof.
  unfold after_transient. simpl.
  destruct (negb (is_timeout e) && (backoff_wait a).1); by simplify_map_eq.
Qed.

Lemma after_failures_counters id fails st :
  Forall (fun a => terminal a = false) fails ->
  let st' := after_failures id fails st in
  rate_limit_count st' = (rate_limit_count st + Z.of_nat (length fails))%Z
  /\ retry_count st' = (retry_count st + Z.of_nat (length fails))%Z
  /\ (test_case st !! "_rate_limit_count" = Some (PInt (rate_limit_count st)) ->
      test_case st' !! "_rate_limit_count" = Some (PInt (rate_limit_count st')))
  /\ calls "increment_rate_limit" (trace st')
     = (calls "increment_rate_limit" (trace st) + length fails)%nat.
Proof.
  intros H. revert st. induction H as [|a fails Ha _ IH]; intros st.
  - simpl. repeat split; try lia. intros E. exact E.
  - apply terminal_false in Ha as (e & Ha & Ht).
    unfold after_failures. simpl. unfold after_attempt at 2 4 6 8 10. rewrite Ha.
    destruct (IH (after_transient id a e st)) as (C & R & T & N).
    unfold after_failures in *. split; [|split; [|split]].
    + rewrite C. simpl. lia.
    + rewrite R. simpl. lia.
    + intros _. apply T. apply after_transient_counter.
    + rewrite N. unfold after_transient at 1. simpl.
      rewrite calls_app.
      change (calls "increment_rate_limit"
                (EInfer (job_copy (test_case st)) :: transient_events id a e))
        with (calls "increment_rate_limit" (transient_events id a e)).
      rewrite transient_events_calls. lia.
Qed.

Lemma transient_prefix_split (script : list attempt) :
  Forall (fun a => terminal a = false) (transient_prefix script)
  /\ exists tail, script = transient_prefix script ++ tail
       /\ match tail with [] => True | a :: _ => terminal a = true end.
Proof.
  induction script as [|a script (IH & tail & E & Ht)].
  - split; [constructor|]. exists []. split; [reflexivity | exact Logic.I].
  - simpl. destruct (terminal a) eqn:Ha.
    + split; [constructor|]. exists (a :: script). split; [reflexivity | exact Ha].
    + split; [constructor; assumption|]. exists tail. split; [|exact Ht].
      simpl. f_equal. exact E.
Qed.

(** X8.  On a submitted job the retry counters keep step with the
    transient failures met, timeouts included: when the run ends or
    asks for the next attempt, the loop's two counters, the
    ["_rate_limit_count"] it leaves in the shared test case and the
    number of calls of the dispatcher's [increment_rate_limit] all
    equal the number of transient failures before the first answer or
    fatal error. *)
Theorem transient_failures_are_counted raw id fs start script :
  raw !! "id" = Some id -> raw !! "function" = Some (PList fs) ->
  let st := (multi_threaded_inference start script (submit raw)).2 in
  let n := length (transient_prefix script) in
  rate_limit_count st = Z.of_nat n
  /\ retry_count st = Z.of_nat n
  /\ test_case st !! "_rate_limit_count" = Some (PInt (Z.of_nat n))
  /\ calls "increment_rate_limit" (trace st) = n.
Proof.
  intros Hid Hf. simpl.
  rewrite (multi_threaded_inference_loop _ _ _ fs)
    by (rewrite submit_function; exact Hf).
  pose proof (job_ready_initial id start _ (job_ready_submit id raw Hid)) as R.
  destruct (transient_prefix_split script) as (Hfails & tail & E & Ht).
  set (fails := transient_prefix script) in *.
  rewrite E at 1 2 3 4. rewrite (retry_loop_failures id _ _ _ R Hfails).
  destruct (after_failures_spec id fails _ R Hfails) as (R' & _ & _).
  destruct (after_failures_counters id fails (initial_job_state start (submit raw))
              Hfails) as (C & RC & T & N).
  assert (T0 : test_case (initial_job_state start (submit raw)) !! "_rate_limit_count"
               = Some (PInt (rate_limit_count (initial_job_state start (submit raw)))))
    by (unfold initial_job_state; simpl; by simplify_map_eq).
  specialize (T T0). clear T0.
  change (rate_limit_count (initial_job_state start (submit raw))) with 0%Z in C.
  change (retry_count (initial_job_state start (submit raw))) with 0%Z in RC.
  change (trace (initial_job_state start (submit raw))) with (@nil event) in N.
  change (calls "increment_rate_limit" []) with 0%nat in N.
  set (st := after_failures id fails (initial_job_state start (submit raw))) in *.
  assert (G : forall evs,
    rate_limit_count (with_trace st evs) = Z.of_nat (length fails)
    /\ retry_count (with_trace st evs) = Z.of_nat (length fails)
    /\ test_case (with_trace st evs) !! "_rate_limit_count"
       = Some (PInt (Z.of_nat (length fails)))
    /\ (calls "increment_rate_limit" evs = 0%nat ->
        calls "increment_rate_limit" (trace (with_trace st evs)) = length fails)).
  { intros evs. simpl. rewrite T, C, RC, !Z.add_0_l. repeat split.
    intros Z. rewrite calls_app, N, Z. simpl. lia. }
  destruct tail as [|a rest].
  - simpl. rewrite T, C, RC, N, !Z.add_0_l. repeat split.
  - unfold terminal in Ht. destruct (att_outcome a) as [result metadata|e] eqn:Ha.
    + rewrite (retry_loop_success id a rest st result metadata R' Ha).
      destruct (G [EInfer (job_copy (test_case st))]) as (G1 & G2 & G3 & G4).
      repeat split; [exact G1 | exact G2 | exact G3 | apply G4; reflexivity].
    + apply negb_true_iff in Ht.
      rewrite (retry_loop_fatal id a rest st e R' Ha Ht).
      destruct (G (EInfer (job_copy (test_case st)) :: fatal_log id e))
        as (G1 & G2 & G3 & G4).
      repeat split; [exact G1 | exact G2 | exact G3 | apply G4].
      unfold fatal_log. destruct (is_content_filter e); reflexivity.
Qed.

Lemma transient_failures_are_counted_witness :
  test_case (multi_threaded_inference 0
               [example_attempt (Failure rate_limited);
                example_attempt (Failure rate_limited); example_attempt answer]
               (submit example_case)).2 !! "_rate_limit_count" = Some (PInt 2).
Proof.
  exact (proj1 (proj2 (proj2
           (transient_failures_are_counted example_case (PStr "simple_0") [] 0
              [example_attempt (Failure rate_limited);
               example_attempt (Failure rate_limited); example_attempt answer]
              eq_refl eq_refl)))).
Defined.

(** ** What reaches the result file *)

Lemma cleaned_frame (result : gmap string pyval) (k : string) :
  cleaned result !! k
  = if bool_decide (k ∈ "_error_type" :: tracking_fields) then None else result !! k.
Proof.
  case_bool_decide as Hk; [apply cleaned_lookup; exact Hk|].
  unfold cleaned. rewrite strip_tracking_fields_lookup.
  rewrite bool_decide_eq_false_2 by (intros H; apply Hk; right; exact H).
  assert (Hne : k <> "_error_type") by (intros ->; apply Hk; left).
  unfold count_error_type. destruct (result !! "_error_type"); simpl;
    [apply lookup_delete_ne; congruence | reflexivity].
Qed.

Lemma cleaned_error_result (id : pyval) (e : exn) :
  cleaned (error_result id e) = error_record id e.
Proof.
  apply map_eq. intros k. rewrite cleaned_frame. unfold error_result, error_record.
  case_bool_decide as Hk.
  - unfold tracking_fields in Hk.
    repeat (apply elem_of_cons in Hk as [->|Hk]; [by simplify_map_eq|]).
    by apply elem_of_nil in Hk.
  - rewrite lookup_insert_ne; [reflexivity|].
    intros <-. apply Hk. left.
Qed.

(** X9.  What is written for a submitted job that fails for good, after
    any number of transient failures: the record holds the identifier,
    the message after [Error during inference: ] and the traceback, and
    nothing else; the error tag and the counters are gone. *)
Theorem written_error_record raw id fs start fails a rest e clock ds :
  raw !! "id" = Some id -> raw !! "function" = Some (PList fs) ->
  Forall (fun a => terminal a = false) fails ->
  att_outcome a = Failure e -> is_transient e = false ->
  exists out,
    (multi_threaded_inference start (fails ++ a :: rest) (submit raw)).1
    = Some (Returned out)
    /\ (process_completion (written_completion out clock NoFault) ds).1.2
       = [DWrite (error_record id e)].
Proof.
  intros Hid Hf Hfails Ha Ht.
  destruct (run_fatal raw id fs start fails a rest e Hid Hf Hfails Ha Ht) as [E _].
  exists (error_result id e). split; [exact E|].
  unfold process_completion, written_completion. simpl.
  rewrite <- cleaned_error_result. unfold cleaned.
  rewrite (count_error_type_fst (error_result id e) 0 (error_counts_content_filter ds)).
  destruct (count_error_type _ _) as [r n]. reflexivity.
Qed.

Lemma written_error_record_witness :
  exists out,
    (multi_threaded_inference 0
       ([example_attempt (Failure rate_limited)]
          ++ example_attempt (Failure invalid_json) :: [])
       (submit example_case)).1 = Some (Returned out)
    /\ (process_completion (written_completion out 0 NoFault)
          (initial_dispatch_state 0)).1.2
       = [DWrite (error_record (PStr "simple_0") invalid_json)].
Proof.
  apply (written_error_record example_case (PStr "simple_0") [] 0
           [example_attempt (Failure rate_limited)]
           (example_attempt (Failure invalid_json)) [] invalid_json 0
           (initial_dispatch_state 0)).
  - reflexivity.
  - reflexivity.
  - repeat constructor.
  - reflexivity.
  - reflexivity.
Defined.

(** X10.  What is written for a submitted job that succeeds: the
    handler's metadata over the identifier and the answer, so a
    metadata key named ["id"] or ["result"] replaces the one of the
    job, and without the error tag and the five tracking fields, the
    retry counter among them. *)
Theorem written_success_record raw id fs start fails a rest result metadata clock ds :
  raw !! "id" = Some id -> raw !! "function" = Some (PList fs) ->
  Forall (fun a => terminal a = false) fails ->
  att_outcome a = Success result metadata ->
  exists out d,
    (multi_threaded_inference start (fails ++ a :: rest) (submit raw)).1
    = Some (Returned out)
    /\ (process_completion (written_completion out clock NoFault) ds).1.2 = [DWrite d]
    /\ forall k,
         d !! k
         = if bool_decide (k ∈ "_error_type" :: tracking_fields) then None
           else match metadata !! k with
                | Some v => Some v
                | None => (<["result" := result]> (<["id" := id]> (∅ : gmap string pyval))) !! k
                end.
Proof.
  intros Hid Hf Hfails Ha.
  destruct (run_success raw id fs start fails a rest result metadata Hid Hf Hfails Ha)
    as [E _].
  set (out := success_result id result metadata (Z.of_nat (length fails))) in *.
  exists out, (cleaned out). split; [exact E|]. split.
  - unfold process_completion, written_completion, cleaned. simpl.
    rewrite (count_error_type_fst out 0 (error_counts_content_filter ds)).
    destruct (count_error_type _ _) as [r n]. reflexivity.
  - intros k. rewrite cleaned_frame. case_bool_decide as Hk; [reflexivity|].
    assert (Hne : k <> "_rate_limit_count").
    { intros ->. apply Hk. right. left. }
    subst out. unfold success_result.
    assert (U : (metadata ∪ <["result" := result]> (<["id" := id]> ∅)) !! k
                = match metadata !! k with
                  | Some v => Some v
                  | None => (<["result" := result]> (<["id" := id]> (∅ : gmap string pyval))) !! k
                  end).
    { rewrite lookup_union. destruct (metadata !! k) as [v|];
        destruct ((<["result" := result]> (<["id" := id]> (∅ : gmap string pyval))) !! k);
        reflexivity. }
    destruct (0 <? Z.of_nat (length fails))%Z; [|exact U].
    rewrite lookup_insert_ne by congruence. exact U.
Qed.

Lemma written_success_record_witness :
  exists out d,
    (multi_threaded_inference 0
       ([example_attempt (Failure rate_limited)] ++ example_attempt answer :: [])
       (submit example_case)).1 = Some (Returned out)
    /\ (process_completion (written_completion out 0 NoFault)
          (initial_dispatch_state 0)).1.2 = [DWrite d]
    /\ d !! "_rate_limit_count" = None
    /\ d !! "id" = Some (PStr "simple_0").
Proof.
  destruct (written_success_record example_case (PStr "simple_0") [] 0
              [example_attempt (Failure rate_limited)] (example_attempt answer) []
              (PStr "[f(x=1)]") ∅ 0 (initial_dispatch_state 0))
    as (out & d & E & W & K).
  - reflexivity.
  - reflexivity.
  - repeat constructor.
  - reflexivity.
  - exists out, d. split; [exact E|]. split; [exact W|].
    split; rewrite K; reflexivity.
Defined.

(** ** The counters of the completion loop *)

Lemma process_completion_count c ds :
  completed_count (process_completion c ds).1.1
  = (completed_count ds + Z.of_nat (length (writes_of c)))%Z.
Proof.
  unfold process_completion, writes_of.
  destruct (cmp_result c) as [result|err].
  - destruct (count_error_type result (error_counts_content_filter ds)) as [r n].
    destruct (cmp_fault c); simpl; lia.
  - destruct (cmp_fault c); simpl; lia.
Qed.

Lemma process_completion_quiet c ds :
  raises c = false ->
  let ds' := (process_completion c ds).1.1 in
  error_counts_content_filter ds'
  = (error_counts_content_filter ds + if content_filtered c then 1 else 0)%Z
  /\ last_completion_time ds' = cmp_clock c
  /\ stall_event ds' = false.
Proof.
  unfold raises, process_completion, content_filtered.
  destruct (cmp_fault c); try discriminate.
  destruct (cmp_result c) as [result|err]; [|discriminate]. intros _.
  unfold count_error_type. destruct (result !! "_error_type") as [tag|]; simpl.
  - destruct (eq_str tag "content_filter"); repeat split; lia.
  - repeat split; lia.
Qed.

Lemma last_nonempty {A : Type} (x : A) (l : list A) (d d' : A) :
  List.last (x :: l) d = List.last (x :: l) d'.
Proof.
  revert x. induction l as [|y l IH]; intros x; [reflexivity|].
  change (List.last (y :: l) d = List.last (y :: l) d'). apply IH.
Qed.

(** X11.  The counters of the completion loop.  [completed_count] goes
    up by one for every result handed to [handler.write], whether the
    write succeeds or not.  Over completions that do not raise, every
    completion is counted, the content-filter counter goes up by the
    number of results tagged [content_filter], and the time of the
    last completion is the clock read at the last one. *)
Theorem completion_counters cs ds :
  let r := completion_loop cs ds in
  completed_count r.1.2 = (completed_count ds + Z.of_nat (length (written r.2)))%Z
  /\ (Forall (fun c => raises c = false) cs ->
      completed_count r.1.2 = (completed_count ds + Z.of_nat (length cs))%Z
      /\ error_counts_content_filter r.1.2
         = (error_counts_content_filter ds
            + Z.of_nat (length (List.filter content_filtered cs)))%Z
      /\ last_completion_time r.1.2
         = List.last (map cmp_clock cs) (last_completion_time ds)).
Proof.
  simpl. split.
  - revert ds. induction cs as [|c cs IH]; intros ds.
    + simpl. lia.
    + rewrite completion_loop_cons.
      destruct (process_completion c ds).2; simpl.
      * rewrite IH, process_completion_count, written_app, length_app,
          process_completion_written. lia.
      * rewrite process_completion_count, process_completion_written. reflexivity.
  - intros H. revert ds. induction H as [|c cs Hc _ IH]; intros ds.
    + simpl. repeat split; lia.
    + rewrite completion_loop_cons, process_completion_go_on, Hc. simpl negb.
      cbv iota. cbn [fst snd].
      destruct (IH (process_completion c ds).1.1) as (I1 & I2 & I3).
      destruct (process_completion_quiet c ds Hc) as (Q1 & Q2 & _).
      assert (W : length (writes_of c) = 1%nat).
      { unfold raises in Hc. unfold writes_of.
        destruct (cmp_fault c); try discriminate.
        destruct (cmp_result c); [reflexivity | discriminate]. }
      split; [|split].
      * rewrite I1, process_completion_count, W. simpl length. lia.
      * rewrite I2, Q1. simpl List.filter.
        destruct (content_filtered c); simpl length; lia.
      * rewrite I3, Q2. destruct cs as [|c' cs]; [reflexivity|].
        change (List.last (map cmp_clock (c :: c' :: cs)) (last_completion_time ds))
          with (List.last (map cmp_clock (c' :: cs)) (last_completion_time ds)).
        apply last_nonempty.
Qed.

Lemma completion_counters_witness :
  completed_count
    (completion_loop [written_completion (error_result (PStr "simple_0") filtered) 1 NoFault;
                      written_completion example_case 2 NoFault]
       (initial_dispatch_state 0)).1.2 = 2%Z.
Proof.
  refine (proj1 (proj2 (completion_counters _ (initial_dispatch_state 0)) _)).
  repeat constructor.
Defined.

(** ** The life of the watchdog *)

Lemma watchdog_round_go_on o w :
  (watchdog_round o w).2 = negb (obs_active_count o =? 0)%Z.
Proof. unfold watchdog_round. destruct (should_poke o w); reflexivity. Qed.

Lemma stall_watchdog_cons o obs w :
  stall_watchdog (o :: obs) w
  = if negb (obs_active_count o =? 0)%Z
    then ((stall_watchdog obs (watchdog_round o w).1.1).1,
          (watchdog_round o w).1.2 ++ (stall_watchdog obs (watchdog_round o w).1.1).2)
    else (Some (watchdog_round o w).1.1, (watchdog_round o w).1.2).
Proof.
  cbn [stall_watchdog]. rewrite <- (watchdog_round_go_on o w).
  destruct (watchdog_round o w) as [[w1 evs] go_on]. simpl.
  destruct go_on; [|reflexivity].
  destruct (stall_watchdog obs w1) as [r evs']. reflexivity.
Qed.

Lemma watchdog_round_counts o w :
  let r := watchdog_round o w in
  default 0%Z (poke_count r.1.1)
  = (default 0%Z (poke_count w) + Z.of_nat (pokes r.1.2))%Z
  /\ rounds r.1.2 = 1%nat.
Proof.
  unfold watchdog_round, pokes, rounds.
  destruct (should_poke o w); cbn [fst snd poke_count List.filter is_set length default];
    (split; [unfold id; lia | reflexivity]).
Qed.

Lemma pokes_app (l l' : list watchdog_event) : pokes (l ++ l') = (pokes l + pokes l')%nat.
Proof. unfold pokes. rewrite List.filter_app, length_app. reflexivity. Qed.

Lemma rounds_app (l l' : list watchdog_event) :
  rounds (l ++ l') = (rounds l + rounds l')%nat.
Proof. unfold rounds. rewrite List.filter_app, length_app. reflexivity. Qed.

Lemma watchdog_idle_round o w :
  obs_active_count o = 0%Z -> watchdog_round o w = (w, [WSleep 1], false).
Proof.
  intros H. unfold watchdog_round, should_poke. rewrite H. reflexivity.
Qed.

Lemma stall_watchdog_busy busy o w :
  Forall (fun o => obs_active_count o <> 0%Z) busy ->
  obs_active_count o = 0%Z ->
  exists w' evs,
    stall_watchdog busy w = (None, evs)
    /\ (forall rest, stall_watchdog (busy ++ o :: rest) w = (Some w', evs ++ [WSleep 1]))
    /\ rounds evs = length busy
    /\ default 0%Z (poke_count w')
       = (default 0%Z (poke_count w) + Z.of_nat (pokes evs))%Z.
Proof.
  intros H Ho. revert w. induction H as [|b busy Hb _ IH]; intros w.
  - exists w, []. split; [reflexivity|]. split; [|split; [reflexivity | unfold pokes; cbn [List.filter length]; lia]].
    intros rest. simpl app.
    rewrite stall_watchdog_cons, Ho, (watchdog_idle_round o w Ho). reflexivity.
  - destruct (IH (watchdog_round b w).1.1) as (w' & evs & E & F & R & C).
    destruct (watchdog_round_counts b w) as (C1 & R1).
    apply Z.eqb_neq in Hb.
    exists w', ((watchdog_round b w).1.2 ++ evs). split; [|split; [|split]].
    + rewrite stall_watchdog_cons, Hb, E. reflexivity.
    + intros rest. rewrite <- app_comm_cons, stall_watchdog_cons, Hb, F.
      simpl. rewrite <- app_assoc. reflexivity.
    + rewrite rounds_app, R, R1. reflexivity.
    + rewrite C, C1, pokes_app. lia.
Qed.

(** X12.  The watchdog stops in the first round that finds no job in
    flight and in no round before it: what comes after is never looked
    at, that last round only sleeps its second, and as long as jobs are
    in flight the watchdog goes on.  When it stops it has been through
    one round per observation, and its [poke_count] has gone up by the
    number of times it has set the stall event. *)
Theorem watchdog_stops_when_idle busy o rest w :
  Forall (fun o => obs_active_count o <> 0%Z) busy ->
  obs_active_count o = 0%Z ->
  (stall_watchdog busy w).1 = None
  /\ stall_watchdog (busy ++ o :: rest) w = stall_watchdog (busy ++ [o]) w
  /\ exists w' evs,
       stall_watchdog (busy ++ o :: rest) w = (Some w', evs ++ [WSleep 1])
       /\ stall_watchdog busy w = (None, evs)
       /\ rounds (evs ++ [WSleep 1]) = S (length busy)
       /\ default 0%Z (poke_count w')
          = (default 0%Z (poke_count w) + Z.of_nat (pokes (evs ++ [WSleep 1])))%Z.
Proof.
  intros Hb Ho.
  destruct (stall_watchdog_busy busy o w Hb Ho) as (w' & evs & E & F & R & C).
  split; [rewrite E; reflexivity|]. split; [rewrite !F; reflexivity|].
  exists w', evs. split; [apply F|]. split; [exact E|]. split.
  - rewrite rounds_app, R. change (rounds [WSleep 1]) with 1%nat. lia.
  - rewrite pokes_app, C. change (pokes [WSleep 1]) with 0%nat. lia.
Qed.

Lemma watchdog_stops_when_idle_witness :
  (stall_watchdog
     ([{| obs_active_count := 2; obs_time_since_last_completion := 204 # 10;
          obs_clock := 1000 |}]
        ++ {| obs_active_count := 0; obs_time_since_last_completion := 1;
              obs_clock := 1001 |}
        :: [{| obs_active_count := 3; obs_time_since_last_completion := 2;
               obs_clock := 1002 |}])
     initial_watchdog_state).1
  = Some {| last_poke_time := Some 20%Z; poke_count := Some 1%Z;
            last_poke_timestamp := Some 1000%Q; stall_signal := false |}.
Proof.
  destruct (watchdog_stops_when_idle
              [{| obs_active_count := 2; obs_time_since_last_completion := 204 # 10;
                  obs_clock := 1000 |}]
              {| obs_active_count := 0; obs_time_since_last_completion := 1;
                 obs_clock := 1001 |}
              [{| obs_active_count := 3; obs_time_since_last_completion := 2;
                  obs_clock := 1002 |}]
              initial_watchdog_state) as (_ & E & _).
  - repeat constructor. discriminate.
  - reflexivity.
  - rewrite E. reflexivity.
Defined.

(** ** Identifiers and resumed runs *)

Lemma without_results_ids existing_ids entries out :
  without_results existing_ids entries = Returned out ->
  Forall (fun e => exists id, e !! "id" = Some id) entries.
Proof.
  unfold without_results.
  enough (G : forall acc,
             for_each (fun acc test_case =>
                         id ← getitem test_case "id";
                         Returned (if py_in id existing_ids then acc
                                   else acc ++ [test_case])) entries acc
             = Returned out ->
             Forall (fun e => exists id, e !! "id" = Some id) entries)
    by (apply (G [])).
  induction entries as [|entry entries IH]; intros acc H; [constructor|].
  simpl in H. unfold mbind, py_result_bind, getitem in H.
  destruct (entry !! "id") as [id|] eqn:E; [|discriminate]. simpl in H.
  constructor; [exists id; exact E|]. eapply IH. exact H.
Qed.

Lemma log_existing_strings id ids entries :
  log_existing (id :: ids) entries = Returned tt -> Forall has_string_id entries.
Proof.
  unfold log_existing.
  induction entries as [|entry entries IH]; intros H; [constructor|].
  simpl in H. unfold mbind, py_result_bind, getitem in H.
  destruct (entry !! "id") as [v|] eqn:E; [|discriminate]. simpl in H.
  destruct v; try discriminate.
  constructor; [eexists; exact E | apply IH; exact H].
Qed.

Lemma pending_nil existing_ids entries :
  Forall (fun e => py_in (get_id e) existing_ids = true) entries ->
  pending existing_ids entries = [].
Proof.
  unfold pending. induction 1 as [|e entries He _ IH]; [reflexivity|].
  simpl. rewrite He. exact IH.
Qed.

Section ResumedRuns.

Context {K : Type}.
Variable is_multi_turn : pyval -> bool.
Variable load_func_doc : pyval -> py_result (list pyval).
Variable sort_key : gmap string pyval -> K.
Variable key_lt : K -> K -> bool.
Variable result_files : string -> string -> option (list (gmap string pyval)).

(** X13.  [collect_test_cases] does not return unless every test entry
    it is given has an ["id"], and once a result is on file for one of
    the categories, unless every identifier is a string: this holds for
    the entries that are not to be generated as well. *)
Theorem collection_needs_identifiers model_name cats paths entries out :
  collect_test_cases is_multi_turn load_func_doc sort_key key_lt result_files
    model_name cats paths entries = Returned out ->
  Forall (fun e => exists id, e !! "id" = Some id) entries
  /\ (persisted result_files model_name cats paths <> [] ->
      Forall has_string_id entries).
Proof.
  unfold collect_test_cases, mbind, py_result_bind. intros H.
  destruct (existing_results result_files model_name cats paths)
    as [existing|] eqn:E1; [|discriminate].
  apply existing_results_spec in E1. subst existing.
  destruct (ids_of _) as [existing_ids|] eqn:E2; [|discriminate].
  apply ids_of_spec in E2. subst existing_ids.
  destruct (log_existing _ _) as [[]|] eqn:E3; [|discriminate].
  destruct (without_results _ _) as [todo|] eqn:E4; [|discriminate].
  split.
  - eapply without_results_ids. exact E4.
  - intros Hne. destruct (persisted result_files model_name cats paths) as [|r rs];
      [congruence|].
    apply (log_existing_strings (get_id r) (map get_id rs)). exact E3.
Qed.

(** X14.  A run that is started again when all is done generates
    nothing: if every test entry has a string identifier that is among
    those of the results on file, [main] reports that nothing is left,
    and no function document is loaded for it. *)
Theorem finished_run_generates_nothing model_name cats paths entries :
  Forall has_string_id entries ->
  (forall dir file rs, result_files dir file = Some rs -> Forall has_string_id rs) ->
  Forall (fun e => In (get_id e)
                      (map get_id (persisted result_files model_name cats paths)))
         entries ->
  main is_multi_turn load_func_doc sort_key key_lt result_files
    model_name cats paths entries = Returned ReportNothingToGenerate.
Proof.
  intros Hids Hfiles Hdone. unfold main, collect_test_cases, mbind, py_result_bind.
  destruct (existing_results_total result_files model_name cats paths Hfiles)
    as [existing E1].
  rewrite E1. pose proof (existing_results_spec _ _ _ _ _ E1) as ->.
  destruct (ids_of_total _ (persisted_string_ids result_files model_name cats paths
                              Hfiles)) as [existing_ids E2].
  rewrite E2, (log_existing_total existing_ids entries Hids).
  apply ids_of_spec in E2. subst existing_ids.
  destruct (without_results_total
              (map get_id (persisted result_files model_name cats paths))
              entries Hids) as [todo E3].
  rewrite E3. apply without_results_spec in E3. subst todo.
  rewrite pending_nil; [reflexivity|].
  rewrite List.Forall_forall in *. intros e He.
  destruct (Hids e He) as [s Hs]. specialize (Hdone e He).
  unfold get_id in *. rewrite Hs in *. simpl in *.
  apply py_in_str. exact Hdone.
Qed.

End ResumedRuns.

Lemma collection_needs_identifiers_witness :
  Forall has_string_id
    [numbered "simple_2" 2; numbered "simple_1" 1; numbered "simple_0" 0].
Proof.
  refine (proj2 (collection_needs_identifiers (fun _ => false) (fun _ => Returned [])
                   number_of Nat.ltb one_result_file "org/model" ["simple"]
                   ["simple.json"]
                   [numbered "simple_2" 2; numbered "simple_1" 1; numbered "simple_0" 0]
                   [numbered "simple_0" 0; numbered "simple_2" 2] _) _).
  - vm_compute. reflexivity.
  - vm_compute. discriminate.
Defined.

Lemma finished_run_generates_nothing_witness :
  main (fun _ => false) (fun _ => Returned []) number_of Nat.ltb one_result_file
    "org/model" ["simple"] ["simple.json"] [numbered "simple_1" 1]
  = Returned ReportNothingToGenerate.
Proof.
  apply finished_run_generates_nothing.
  - repeat constructor. eexists. reflexivity.
  - intros dir file rs H. unfold one_result_file in H.
    destruct (String.eqb file "simple_result.json"); [|discriminate].
    injection H as <-. repeat constructor. eexists. reflexivity.
  - repeat constructor.
Defined.

(** ** Held-out function documents *)

Lemma doc_name_dict func_doc n : doc_name func_doc = Returned n -> is_dict func_doc.
Proof. destruct func_doc; try discriminate. intros _. eexists. reflexivity. Qed.

Lemma take_named_spec missed functions r :
  take_named missed functions = Returned r ->
  match r.1 with
  | Some func_doc =>
    exists l1 l2, functions = l1 ++ func_doc :: l2 /\ r.2 = l1 ++ l2
      /\ is_dict func_doc
      /\ (exists n, doc_name func_doc = Returned n /\ py_eqb n missed = true)
      /\ Forall (fun f => exists n, doc_name f = Returned n /\ py_eqb n missed = false) l1
  | None =>
    r.2 = functions
    /\ Forall (fun f => exists n, doc_name f = Returned n /\ py_eqb n missed = false)
              functions
  end.
Proof.
  revert r. induction functions as [|f functions IH]; intros r H; simpl in H.
  - injection H as <-. simpl. split; [reflexivity | constructor].
  - unfold mbind, py_result_bind in H.
    destruct (doc_name f) as [n|] eqn:En; [|discriminate].
    destruct (py_eqb n missed) eqn:Eq.
    + injection H as <-. simpl. exists [], functions.
      split; [reflexivity|]. split; [reflexivity|].
      split; [eapply doc_name_dict; exact En|].
      split; [exists n; split; assumption | constructor].
    + destruct (take_named missed functions) as [r'|] eqn:Et; [|discriminate].
      injection H as <-. specialize (IH r' eq_refl). simpl.
      destruct r'.1 as [d|].
      * destruct IH as (l1 & l2 & -> & -> & Hd & Hn & Hl).
        exists (f :: l1), l2. split; [reflexivity|]. split; [reflexivity|].
        split; [exact Hd|]. split; [exact Hn|].
        constructor; [exists n; split; assumption | exact Hl].
      * destruct IH as (-> & Hl). split; [reflexivity|].
        constructor; [exists n; split; assumption | exact Hl].
Qed.

Lemma hold_out_names_spec names acc r :
  hold_out_names names acc = Returned r ->
  Permutation (acc.1 ++ acc.2) (r.1 ++ r.2)
  /\ exists moved, r.1 = acc.1 ++ moved /\ Forall is_dict moved.
Proof.
  unfold hold_out_names. revert acc.
  induction names as [|name names IH]; intros acc H; simpl in H.
  - injection H as <-. split; [reflexivity|]. exists [].
    rewrite app_nil_r. split; [reflexivity | constructor].
  - unfold mbind, py_result_bind in H.
    destruct (take_named name acc.2) as [t|] eqn:Et; [|discriminate].
    apply take_named_spec in Et.
    destruct (IH _ H) as (P & moved & E & D). simpl in P, E.
    destruct t.1 as [d|].
    + destruct Et as (l1 & l2 & E1 & E2 & Hd & _ & _).
      rewrite E2 in P. split.
      * rewrite <- P, E1, <- app_assoc. apply Permutation_app_head.
        simpl. symmetry. apply Permutation_middle.
      * exists (d :: moved). rewrite E, <- app_assoc.
        split; [reflexivity | constructor; assumption].
    + destruct Et as (E2 & _). rewrite E2 in P. split; [exact P|].
      exists moved. split; assumption.
Qed.

Lemma held_out_app (l l' : list (string * pyval)) :
  held_out (l ++ l') = held_out l ++ held_out l'.
Proof. unfold held_out. rewrite map_app, concat_app. reflexivity. Qed.

Lemma hold_out_turns_spec turns acc r :
  hold_out_turns turns acc = Returned r ->
  Permutation (held_out acc.1 ++ acc.2) (held_out r.1 ++ r.2)
  /\ map fst r.1 = map fst acc.1 ++ map fst turns
  /\ (Forall (fun t : string * pyval => exists l, t.2 = PList l /\ Forall is_dict l) acc.1 ->
      Forall (fun t : string * pyval => exists l, t.2 = PList l /\ Forall is_dict l) r.1).
Proof.
  unfold hold_out_turns. revert acc.
  induction turns as [|turn turns IH]; intros acc H; simpl in H.
  - injection H as <-. rewrite app_nil_r. repeat split; [reflexivity | auto].
  - unfold mbind, py_result_bind in H.
    destruct (iterate turn.2) as [names|]; [|discriminate].
    destruct (hold_out_names names ([], acc.2)) as [r'|] eqn:Er; [|discriminate].
    apply hold_out_names_spec in Er. destruct Er as (P' & moved & E' & D').
    simpl in P', E'. destruct (IH _ H) as (P & F & T). simpl in P, F, T.
    split; [|split].
    + rewrite <- P, held_out_app, <- app_assoc. apply Permutation_app_head.
      unfold held_out at 1. simpl. rewrite app_nil_r. exact P'.
    + rewrite F, map_app, <- app_assoc. reflexivity.
    + intros Hacc. apply T. apply Forall_app. split; [exact Hacc|].
      constructor; [|constructor]. exists r'.1. split; [reflexivity|].
      rewrite E'. exact D'.
Qed.

Lemma py_eqb_str_dict s d : py_eqb (PStr s) (PDict d) = false.
Proof. reflexivity. Qed.

Lemma take_named_no_match missed functions :
  is_dict missed -> Forall named functions ->
  take_named missed functions = Returned (None, functions).
Proof.
  intros [d ->]. induction 1 as [|f functions [s Hs] _ IH]; [reflexivity|].
  simpl. unfold mbind, py_result_bind. rewrite Hs, py_eqb_str_dict, IH. reflexivity.
Qed.

Lemma hold_out_names_no_match names moved functions :
  Forall is_dict names -> Forall named functions ->
  hold_out_names names (moved, functions) = Returned (moved, functions).
Proof.
  intros Hn Hf. unfold hold_out_names.
  induction Hn as [|name names Hd _ IH]; [reflexivity|].
  simpl. unfold mbind, py_result_bind.
  rewrite (take_named_no_match name functions Hd Hf). simpl. exact IH.
Qed.

Lemma hold_out_turns_no_match turns done functions :
  Forall (fun t : string * pyval => exists l, t.2 = PList l /\ Forall is_dict l) turns ->
  Forall named functions ->
  hold_out_turns turns (done, functions) = Returned (done ++ emptied turns, functions).
Proof.
  intros Ht Hf. unfold hold_out_turns. revert done.
  induction Ht as [|turn turns (l & El & Hl) _ IH]; intros done.
  - simpl. rewrite app_nil_r. reflexivity.
  - simpl. unfold mbind, py_result_bind. rewrite El. simpl.
    fold (hold_out_names l ([], functions)).
    rewrite (hold_out_names_no_match l [] functions Hl Hf). simpl.
    rewrite IH, <- app_assoc. reflexivity.
Qed.

Lemma load_all_named load_func_doc classes functions :
  (forall c docs, load_func_doc c = Returned docs -> Forall named docs) ->
  load_all load_func_doc classes = Returned functions -> Forall named functions.
Proof.
  intros Hload. unfold load_all.
  enough (G : forall acc, Forall named acc ->
             for_each (fun acc func_collection =>
                         func_doc ← load_func_doc func_collection;
                         Returned (acc ++ func_doc)) classes acc = Returned functions ->
             Forall named functions) by (apply G; constructor).
  induction classes as [|c classes IH]; intros acc Hacc H; simpl in H.
  - injection H as <-. exact Hacc.
  - unfold mbind, py_result_bind in H.
    destruct (load_func_doc c) as [docs|] eqn:E; [|discriminate].
    apply (IH _ (proj2 (Forall_app _ _ _) (conj Hacc (Hload _ _ E))) H).
Qed.

Section HeldOut.

Variable is_multi_turn : pyval -> bool.
Variable load_func_doc : pyval -> py_result (list pyval).

Lemma process_entry_multi_turn entry id :
  entry !! "id" = Some id -> is_multi_turn id = true ->
  process_entry is_multi_turn load_func_doc entry
  = (involved_classes ← getitem entry "involved_classes";
     classes ← iterate involved_classes;
     functions ← load_all load_func_doc classes;
     match entry !! "missed_function" with
     | None => Returned (<["function" := PList functions]> entry)
     | Some missed_function =>
       turns ← items missed_function;
       r ← hold_out_turns turns ([], functions);
       Returned (<["missed_function" := PDict r.1]>
                   (<["function" := PList r.2]> entry))
     end).
Proof.
  intros Hid Hmt.
  assert (G : getitem entry "id" = Returned id)
    by (unfold getitem; rewrite Hid; reflexivity).
  unfold process_entry. rewrite G.
  unfold mbind at 1, py_result_bind at 1. rewrite Hmt. reflexivity.
Qed.

(** X15.  For a multi-turn entry with a [missed_function] dictionary
    the function documents of the involved classes are shared out
    between the function list and the turns of the dictionary: what is
    held out for the turns and what stays in the list are together a
    permutation of what was loaded, so no document is lost and none is
    doubled, and the dictionary keeps its turns in their order. *)
Theorem held_out_documents_are_moved entry entry' id missed_function :
  entry !! "id" = Some id -> is_multi_turn id = true ->
  entry !! "missed_function" = Some missed_function ->
  process_entry is_multi_turn load_func_doc entry = Returned entry' ->
  exists involved_classes classes functions turns held remaining,
    entry !! "involved_classes" = Some involved_classes
    /\ iterate involved_classes = Returned classes
    /\ load_all load_func_doc classes = Returned functions
    /\ missed_function = PDict turns
    /\ entry' = <["missed_function" := PDict held]>
                  (<["function" := PList remaining]> entry)
    /\ map fst held = map fst turns
    /\ Forall (fun t : string * pyval => exists l, t.2 = PList l) held
    /\ Permutation functions (held_out held ++ remaining).
Proof.
  intros Hid Hmt Hmf H. rewrite (process_entry_multi_turn entry id Hid Hmt) in H.
  rewrite Hmf in H. unfold mbind, py_result_bind, getitem in H.
  destruct (entry !! "involved_classes") as [involved|]; [|discriminate].
  destruct (iterate involved) as [classes|] eqn:Ei; [|discriminate].
  destruct (load_all load_func_doc classes) as [functions|] eqn:El; [|discriminate].
  destruct missed_function; try discriminate. simpl in H.
  destruct (hold_out_turns d ([], functions)) as [r|] eqn:Er; [|discriminate].
  injection H as <-. apply hold_out_turns_spec in Er as (P & F & T).
  exists involved, classes, functions, d, r.1, r.2.
  repeat split; try reflexivity; try assumption.
  eapply Forall_impl; [apply T; constructor|].
  intros t (l & E & _). exists l. exact E.
Qed.

(** X16.  Processing a processed entry once more, as happens to the
    entries of a run over several models, which are the same objects
    for every model, undoes the hold-out: the turns of
    [missed_function] now hold documents where names were, no document
    has a document for a name, so every turn comes out empty and every
    document loaded is in the function list. *)
Theorem second_pass_forgets_held_out entry entry1 entry2 id missed_function :
  entry !! "id" = Some id -> is_multi_turn id = true ->
  entry !! "missed_function" = Some missed_function ->
  process_entry is_multi_turn load_func_doc entry = Returned entry1 ->
  (forall c docs, load_func_doc c = Returned docs -> Forall named docs) ->
  (forall k, k ∈ ["id"; "involved_classes"; "missed_function"] ->
     entry2 !! k = entry1 !! k) ->
  exists involved_classes classes functions held,
    entry !! "involved_classes" = Some involved_classes
    /\ iterate involved_classes = Returned classes
    /\ load_all load_func_doc classes = Returned functions
    /\ entry1 !! "missed_function" = Some (PDict held)
    /\ process_entry is_multi_turn load_func_doc entry2
       = Returned (<["missed_function" := PDict (emptied held)]>
                     (<["function" := PList functions]> entry2)).
Proof.
  intros Hid Hmt Hmf H Hload Hsame.
  rewrite (process_entry_multi_turn entry id Hid Hmt) in H.
  rewrite Hmf in H. unfold mbind, py_result_bind, getitem in H.
  destruct (entry !! "involved_classes") as [involved|] eqn:Ein; [|discriminate].
  destruct (iterate involved) as [classes|] eqn:Ei; [|discriminate].
  destruct (load_all load_func_doc classes) as [functions|] eqn:El; [|discriminate].
  destruct missed_function; try discriminate. simpl in H.
  destruct (hold_out_turns d ([], functions)) as [r|] eqn:Er; [|discriminate].
  injection H as <-. apply hold_out_turns_spec in Er as (_ & _ & T).
  specialize (T (List.Forall_nil _)).
  exists involved, classes, functions, r.1.
  split; [reflexivity|]. split; [exact Ei|]. split; [exact El|].
  split; [by simplify_map_eq|].
  assert (Hid2 : entry2 !! "id" = Some id).
  { rewrite Hsame by (repeat constructor). by simplify_map_eq. }
  assert (Hin2 : entry2 !! "involved_classes" = Some involved).
  { rewrite Hsame by (repeat constructor). by simplify_map_eq. }
  assert (Hmf2 : entry2 !! "missed_function" = Some (PDict r.1)).
  { rewrite Hsame by (repeat constructor). by simplify_map_eq. }
  rewrite (process_entry_multi_turn entry2 id Hid2 Hmt).
  unfold getitem. rewrite Hin2, Hmf2.
  unfold mbind, py_result_bind. rewrite Ei, El. simpl.
  rewrite (hold_out_turns_no_match r.1 [] functions T
             (load_all_named load_func_doc classes functions Hload El)).
  reflexivity.
Qed.

End HeldOut.

Lemma held_out_documents_are_moved_witness :
  exists involved_classes classes functions turns held remaining,
    miss_func_case !! "involved_classes" = Some involved_classes
    /\ iterate involved_classes = Returned classes
    /\ load_all (fun _ => Returned [named_doc "f"; named_doc "g"]) classes
       = Returned functions
    /\ PDict [("1", PList [PStr "g"])] = PDict turns
    /\ miss_func_processed
       = <["missed_function" := PDict held]>
           (<["function" := PList remaining]> miss_func_case)
    /\ map fst held = map fst turns
    /\ Forall (fun t : string * pyval => exists l, t.2 = PList l) held
    /\ Permutation functions (held_out held ++ remaining).
Proof.
  apply (held_out_documents_are_moved (fun _ => true)
           (fun _ => Returned [named_doc "f"; named_doc "g"])
           miss_func_case miss_func_processed (PStr "multi_turn_miss_func_0")
           (PDict [("1", PList [PStr "g"])])); reflexivity.
Defined.

Lemma second_pass_forgets_held_out_witness :
  process_entry (fun _ => true) (fun _ => Returned [named_doc "f"; named_doc "g"])
    (<["_rate_limit_count" := PInt 0]> miss_func_processed)
  = Returned (<["missed_function" := PDict [("1", PList [])]]>
                (<["function" := PList [named_doc "f"; named_doc "g"]]>
                   (<["_rate_limit_count" := PInt 0]> miss_func_processed))).
Proof.
  destruct (second_pass_forgets_held_out (fun _ => true)
              (fun _ => Returned [named_doc "f"; named_doc "g"])
              miss_func_case miss_func_processed
              (<["_rate_limit_count" := PInt 0]> miss_func_processed)
              (PStr "multi_turn_miss_func_0") (PDict [("1", PList [PStr "g"])]))
    as (involved & classes & functions & held & E1 & E2 & E3 & E4 & E5).
  - reflexivity.
  - reflexivity.
  - reflexivity.
  - reflexivity.
  - intros c docs H. injection H as <-. repeat constructor; eexists; reflexivity.
  - intros k Hk.
    repeat (apply elem_of_cons in Hk as [->|Hk]; [reflexivity|]).
    by apply elem_of_nil in Hk.
  - injection E1 as <-. injection E2 as <-. injection E3 as <-. injection E4 as <-.
    exact E5.
Defined.

(** ** The test entries of a run *)

Lemma entries_with_ids_spec test_ids entries out :
  entries_with_ids test_ids entries = Returned out ->
  out = List.filter (asked_for test_ids) entries.
Proof.
  unfold entries_with_ids.
  enough (G : forall acc,
             for_each (fun acc entry =>
                         id ← getitem entry "id";
                         found ← py_contains id test_ids;
                         Returned (if found : bool then acc ++ [entry] else acc))
                      entries acc = Returned out ->
             out = acc ++ List.filter (asked_for test_ids) entries) by (apply (G [])).
  induction entries as [|entry entries IH]; intros acc H; simpl in H.
  - injection H as <-. rewrite app_nil_r. reflexivity.
  - unfold mbind, py_result_bind, getitem in H. simpl. unfold asked_for at 1.
    destruct (entry !! "id") as [id|]; [|discriminate].
    destruct (py_contains id test_ids) as [found|]; [|discriminate].
    rewrite (IH _ H). destruct found; [|reflexivity].
    rewrite <- app_assoc. reflexivity.
Qed.

Lemma items_dict v d : items v = Returned d -> v = PDict d.
Proof. destruct v; try discriminate. intros H. injection H as <-. reflexivity. Qed.

Section TestEntriesFacts.

Variable test_ids_to_generate : pyval.
Variable TEST_FILE_MAPPING : string -> option string.
Variable load_file : string -> py_result (list (gmap string pyval)).
Variable parse_test_category_argument :
  list string -> py_result (list string * list string).

Lemma run_ids_loop categories acc out :
  for_each
    (fun (acc : list string * list string * list (gmap string pyval)) category_ids =>
       let '(all_test_file_paths, all_test_categories, all_test_entries_involved) :=
         acc in
       let '(category, test_ids) := (category_ids : string * pyval) in
       n ← py_len test_ids;
       if (n =? 0)%nat then Returned acc
       else
         test_file_path ← match TEST_FILE_MAPPING category with
                          | Some path => Returned path
                          | None => Raised (KeyError category)
                          end;
         entries ← load_file test_file_path;
         selected ← entries_with_ids test_ids entries;
         Returned (all_test_file_paths ++ [test_file_path],
                   all_test_categories ++ [category],
                   all_test_entries_involved ++ selected))
    categories acc = Returned out ->
  exists files : list (list (gmap string pyval)),
    Forall2 (fun (c : string * pyval) file =>
               exists path, TEST_FILE_MAPPING c.1 = Some path
                            /\ load_file path = Returned file)
            (List.filter (fun c => negb (asks_nothing c)) categories) files
    /\ Forall2 (fun (c : string * pyval) path => TEST_FILE_MAPPING c.1 = Some path)
               (List.filter (fun c => negb (asks_nothing c)) categories)
               (drop (length acc.1.1) out.1.1)
    /\ out.1.1 = acc.1.1 ++ drop (length acc.1.1) out.1.1
    /\ out.1.2 = acc.1.2
                 ++ map fst (List.filter (fun c => negb (asks_nothing c)) categories)
    /\ out.2 = acc.2
               ++ concat (zip_with (fun (c : string * pyval) file =>
                                      List.filter (asked_for c.2) file)
                            (List.filter (fun c => negb (asks_nothing c)) categories)
                            files).
Proof.
  revert acc. induction categories as [|[category test_ids] categories IH];
    intros [[paths cats] entries] H; simpl in H.
  - injection H as <-. exists []. simpl. rewrite drop_all, !app_nil_r.
    repeat split; constructor.
  - unfold mbind, py_result_bind in H.
    destruct (py_len test_ids) as [n|] eqn:En; [|discriminate].
    destruct (n =? 0)%nat eqn:E0.
    + assert (A : asks_nothing (category, test_ids) = true)
        by (unfold asks_nothing; simpl; rewrite En; exact E0).
      cbn [List.filter]. rewrite A. simpl negb. cbv iota. apply IH. exact H.
    + assert (A : asks_nothing (category, test_ids) = false)
        by (unfold asks_nothing; simpl; rewrite En; exact E0).
      cbn [List.filter]. rewrite A. simpl negb. cbv iota.
      destruct (TEST_FILE_MAPPING category) as [path|] eqn:Ep; [|discriminate].
      destruct (load_file path) as [file|] eqn:Ef; [|discriminate].
      destruct (entries_with_ids test_ids file) as [selected|] eqn:Es; [|discriminate].
      apply entries_with_ids_spec in Es. subst selected.
      destruct (IH _ H) as (files & F1 & F2 & E1 & E2 & E3).
      cbn [fst snd] in F2, E1, E2, E3.
      rewrite length_app in F2, E1. cbn [length] in F2, E1.
      assert (D : drop (length paths) out.1.1
                  = path :: drop (length paths + 1) out.1.1).
      { rewrite E1 at 1. rewrite <- app_assoc, drop_app_length. reflexivity. }
      exists (file :: files). cbn [fst snd zip_with concat map].
      rewrite D. split; [|split; [|split; [|split]]].
      * constructor; [exists path; split; assumption | exact F1].
      * constructor; [exact Ep | exact F2].
      * rewrite E1 at 1. rewrite <- app_assoc. reflexivity.
      * rewrite E2, <- app_assoc. reflexivity.
      * rewrite E3, <- app_assoc. reflexivity.
Qed.

Lemma load_files_loop (pairs : list (string * string)) acc out :
  for_each (fun acc (category_file : string * string) =>
              entries ← load_file category_file.2;
              Returned (acc ++ entries)) pairs acc = Returned out ->
  exists files,
    Forall2 (fun (cf : string * string) file => load_file cf.2 = Returned file)
            pairs files
    /\ out = acc ++ concat files.
Proof.
  revert acc. induction pairs as [|cf pairs IH]; intros acc H; simpl in H.
  - injection H as <-. exists []. rewrite app_nil_r. split; [constructor | reflexivity].
  - unfold mbind, py_result_bind in H.
    destruct (load_file cf.2) as [file|] eqn:Ef; [|discriminate].
    destruct (IH _ H) as (files & F & ->).
    exists (file :: files). simpl. rewrite <- app_assoc.
    split; [constructor; assumption | reflexivity].
Qed.

(** X17.  What [get_involved_test_entries] returns.  With [run_ids] the
    category arguments are not looked at: the categories are those of
    the file of test identifiers that ask for at least one identifier,
    in the order of the file, each with the test file the mapping gives
    for it, so the two lists line up; and the entries are, category by
    category, the entries of that file whose identifier is asked for.
    Without [run_ids] the paths and categories are the parser's, and
    the entries are those of the files paired with a category, in
    order and whole. *)
Theorem involved_test_entries test_category_args run_ids paths cats entries :
  get_involved_test_entries test_ids_to_generate TEST_FILE_MAPPING load_file
    parse_test_category_argument test_category_args run_ids
  = Returned (paths, cats, entries) ->
  if run_ids then
    exists categories files,
      test_ids_to_generate = PDict categories
      /\ cats = map fst (List.filter (fun c => negb (asks_nothing c)) categories)
      /\ Forall2 (fun category path => TEST_FILE_MAPPING category = Some path)
                 cats paths
      /\ Forall2 (fun path file => load_file path = Returned file) paths files
      /\ entries
         = concat (zip_with (fun (c : string * pyval) file =>
                               List.filter (asked_for c.2) file)
                     (List.filter (fun c => negb (asks_nothing c)) categories) files)
  else
    parse_test_category_argument test_category_args = Returned (paths, cats)
    /\ exists files,
         Forall2 (fun path file => load_file path = Returned file)
                 (take (length cats) paths) files
         /\ entries = concat files.
Proof.
  unfold get_involved_test_entries. destruct run_ids.
  - unfold mbind at 1, py_result_bind at 1.
    destruct (items test_ids_to_generate) as [categories|] eqn:Ei; [|discriminate].
    apply items_dict in Ei. intros H.
    destruct (run_ids_loop categories ([], [], []) _ H) as (files & F1 & F2 & _ & E2 & E3).
    simpl in F2, E2, E3. rewrite drop_0 in F2.
    exists categories, files. split; [exact Ei|]. split; [exact E2|].
    split; [|split; [|exact E3]].
    + rewrite E2. apply Forall2_fmap_l. exact F2.
    + clear E2 E3 H.
      revert F1 F2. generalize (List.filter (fun c => negb (asks_nothing c)) categories).
      intros cs F1. revert paths. induction F1 as [|c file cs files (p & Ec & Ef) _ IH];
        intros paths F2; inversion F2; subst; constructor.
      * congruence.
      * apply IH. assumption.
  - unfold mbind, py_result_bind.
    destruct (parse_test_category_argument test_category_args) as [[ps cs]|];
      [|discriminate].
    destruct (for_each _ (zip cs ps) []) as [es|] eqn:El; [|discriminate].
    intros H. injection H as -> -> ->. split; [reflexivity|].
    apply load_files_loop in El as (files & F & ->). exists files.
    split; [|reflexivity].
    clear - F. revert paths files F.
    induction cats as [|c cats IH]; intros paths files F.
    + simpl in F. inversion F. constructor.
    + destruct paths as [|p paths]; simpl in F; inversion F; subst; [constructor|].
      simpl. constructor; [assumption | apply IH; assumption].
Qed.

End TestEntriesFacts.

Lemma involved_test_entries_witness :
  exists categories files,
    ids_to_generate_example = PDict categories
    /\ ["simple"] = map fst (List.filter (fun c => negb (asks_nothing c)) categories)
    /\ Forall2 (fun category path => file_mapping_example category = Some path)
               ["simple"] ["simple.json"]
    /\ Forall2 (fun (path : string) file =>
                  Returned [numbered "simple_0" 0; numbered "simple_1" 1]
                  = Returned file) ["simple.json"] files
    /\ [numbered "simple_1" 1]
       = concat (zip_with (fun (c : string * pyval) file =>
                             List.filter (asked_for c.2) file)
                   (List.filter (fun c => negb (asks_nothing c)) categories) files).
Proof.
  exact (involved_test_entries ids_to_generate_example file_mapping_example
           (fun _ => Returned [numbered "simple_0" 0; numbered "simple_1" 1])
           (fun _ => Raised TypeError) ["all"] true
           ["simple.json"] ["simple"] [numbered "simple_1" 1] eq_refl).
Defined.

(** ** One malformed test case *)

Lemma as_completed_app fs order order' :
  as_completed fs (order ++ order') = as_completed fs order ++ as_completed fs order'.
Proof. unfold as_completed. apply omap_app. Qed.

(** X18.  Where every test case has an identifier the submit loop
    gets past, one test case whose ["function"] is missing or is not a
    list ends the whole run: its future holds the exception, and when
    the completion loop comes to it the loop prints the two abort lines
    and calls [sys.exit(1)].  What was written before stays written;
    nothing is written for that job or for any job completing later.
    The process exits with status 1 once every job submitted has come
    to an end, and waits as long as one has not. *)
Theorem malformed_case_aborts_run now jobs before i clock f after job :
  Forall has_key_id jobs ->
  jobs !! i = Some job ->
  (forall l, job.1 !! "function" <> Some (PList l)) ->
  Forall (fun c => raises c = false) (as_completed (futures jobs).1 before) ->
  let r := generate_results now jobs (before ++ (i, clock, f) :: after) in
  r.1.1 = (if forallb is_done (futures jobs).1 then Exits 1 else Waiting)
  /\ written r.2 = concat (map writes_of (as_completed (futures jobs).1 before))
  /\ exists evs, r.2 = evs ++ [DPrint CriticalError; DPrint AbortingProgram; DExit 1].
Proof.
  intros Hkey Hi Hf Hb. simpl.
  rewrite (generate_results_submitted now jobs _ Hkey).
  rewrite (futures_submitted jobs Hkey) in *. cbn [fst snd] in *.
  destruct (malformed_run (run_start job.2) (run_script job.2) (submit job.1))
    as [err E].
  { intros l. rewrite submit_function. apply Hf. }
  assert (Hfut : map future_of jobs !! i = Some (Some (Raised err))).
  { rewrite list_lookup_fmap, Hi. simpl. unfold future_of. rewrite E. reflexivity. }
  rewrite as_completed_app.
  assert (Hc : as_completed (map future_of jobs) ((i, clock, f) :: after)
               = {| cmp_result := Raised err; cmp_clock := clock; cmp_fault := f |}
                 :: as_completed (map future_of jobs) after).
  { unfold as_completed. cbn [omap list_omap fst snd]. rewrite Hfut. reflexivity. }
  rewrite Hc.
  set (c := {| cmp_result := Raised err; cmp_clock := clock; cmp_fault := f |}).
  assert (Hr : raises c = true) by (unfold raises; destruct f; reflexivity).
  assert (Hw : writes_of c = []) by (unfold writes_of; destruct f; reflexivity).
  destruct (completion_loop_raises _ c (as_completed (map future_of jobs) after)
              (initial_dispatch_state now) Hb Hr) as [Ex (evs & Hev & W)].
  rewrite Ex, Hev, Hw. simpl app. split; [reflexivity|]. split.
  - rewrite written_app, W. simpl. apply app_nil_r.
  - exists evs. reflexivity.
Qed.

Lemma malformed_case_aborts_run_witness :
  (generate_results 0
     [(example_case, {| run_start := 0; run_script := [example_attempt answer] |});
      (delete "function" example_case,
       {| run_start := 0; run_script := [example_attempt answer] |});
      (example_case, {| run_start := 0; run_script := [example_attempt answer] |})]
     ([(0%nat, 1%Q, NoFault)] ++ (1%nat, 2%Q, NoFault) :: [(2%nat, 3%Q, NoFault)])).1.1
  = Exits 1.
Proof.
  refine (proj1 (malformed_case_aborts_run 0
                   [(example_case,
                     {| run_start := 0; run_script := [example_attempt answer] |});
                    (delete "function" example_case,
                     {| run_start := 0; run_script := [example_attempt answer] |});
                    (example_case,
                     {| run_start := 0; run_script := [example_attempt answer] |})]
                   [(0%nat, 1%Q, NoFault)] 1 2 NoFault [(2%nat, 3%Q, NoFault)]
                   (delete "function" example_case,
                    {| run_start := 0; run_script := [example_attempt answer] |})
                   _ _ _ _)).
  - repeat constructor; exists (PStr "simple_0"); split; reflexivity.
  - reflexivity.
  - intros l. discriminate.
  - repeat constructor.
Defined.

(** ** What the handler is given, attempt by attempt *)

Lemma copies_app (l l' : list event) : copies (l ++ l') = copies l ++ copies l'.
Proof. unfold copies. apply omap_app. Qed.

Lemma copies_sleeps (evs : list event) : Forall is_sleep evs -> copies evs = [].
Proof.
  induction 1 as [|ev evs H _ IH]; [reflexivity|].
  destruct ev; try contradiction. exact IH.
Qed.

Lemma copies_transient_events id a e : copies (transient_events id a e) = [].
Proof.
  unfold transient_events. destruct (is_timeout e); [reflexivity|].
  change (copies (ECall "increment_rate_limit" :: ECall "get_active_count"
            :: EBackoff (dynamic_delay (att_active a)) :: (backoff_wait a).2))
    with (copies (backoff_wait a).2).
  apply copies_sleeps, stall_wait_sleeps.
Qed.

Lemma copies_after_transient id a e st :
  copies (trace (after_transient id a e st))
  = copies (trace st) ++ [job_copy (test_case st)].
Proof.
  unfold after_transient. simpl. rewrite copies_app.
  change (copies (EInfer (job_copy (test_case st)) :: transient_events id a e))
    with (job_copy (test_case st) :: copies (transient_events id a e)).
  rewrite copies_transient_events. reflexivity.
Qed.

Lemma job_copy_lookup tc k :
  k ∉ ["_stall_event"; "_increment_rate_limit"; "_get_active_count"] ->
  job_copy tc !! k = tc !! k.
Proof.
  intros Hk. unfold job_copy.
  rewrite !lookup_delete_ne; [reflexivity|..]; intros <-; apply Hk;
    repeat constructor.
Qed.

Lemma after_transient_lookup id a e st k :
  k ∉ ["_rate_limit_count"; "_last_retry_time"; "_last_poke_time"] ->
  test_case (after_transient id a e st) !! k = test_case st !! k.
Proof.
  intros Hk. unfold after_transient. simpl.
  assert (k <> "_rate_limit_count") by (intros ->; apply Hk; repeat constructor).
  assert (k <> "_last_retry_time") by (intros ->; apply Hk; repeat constructor).
  assert (k <> "_last_poke_time") by (intros ->; apply Hk; repeat constructor).
  destruct (negb (is_timeout e) && (backoff_wait a).1);
    rewrite !lookup_insert_ne by congruence; reflexivity.
Qed.

(** What the copies made during a run of transient failures hold. *)
Lemma copies_after_failures id fails st :
  Forall (fun a => terminal a = false) fails ->
  test_case st !! "_rate_limit_count" = Some (PInt (rate_limit_count st)) ->
  exists cs,
    copies (trace (after_failures id fails st)) = copies (trace st) ++ cs
    /\ length cs = length fails
    /\ forall i c, cs !! i = Some c ->
         c !! "_rate_limit_count" = Some (PInt (rate_limit_count st + Z.of_nat i))
         /\ forall k, k ∉ ["_rate_limit_count"; "_last_retry_time"; "_last_poke_time";
                           "_stall_event"; "_increment_rate_limit"; "_get_active_count"] ->
              c !! k = test_case st !! k.
Proof.
  intros H. revert st. induction H as [|a fails Ha _ IH]; intros st Hc.
  - exists []. rewrite app_nil_r. split; [reflexivity|]. split; [reflexivity|].
    intros i c Hi. destruct i; discriminate.
  - apply terminal_false in Ha as (e & Ha & Ht).
    unfold after_failures. simpl. unfold after_attempt at 2. rewrite Ha.
    destruct (IH (after_transient id a e st)) as (cs & E & L & P).
    { rewrite after_transient_counter. reflexivity. }
    unfold after_failures in E.
    exists (job_copy (test_case st) :: cs). split; [|split].
    + rewrite E, copies_after_transient, <- app_assoc. reflexivity.
    + simpl. rewrite L. reflexivity.
    + intros i c Hi. destruct i as [|i]; simpl in Hi.
      * injection Hi as <-. split.
        -- rewrite job_copy_lookup, Hc, Z.add_0_r; [reflexivity|].
           intros Hk. repeat (apply elem_of_cons in Hk as [Hk|Hk]; [discriminate|]).
           by apply elem_of_nil in Hk.
        -- intros k Hk. apply job_copy_lookup.
           intros Hin. apply Hk. do 3 right. exact Hin.
      * destruct (P i c Hi) as [P1 P2]. split.
        -- rewrite P1. simpl. do 2 f_equal. lia.
        -- intros k Hk. rewrite (P2 k Hk). apply after_transient_lookup.
           intros Hin. apply Hk.
           repeat (apply elem_of_cons in Hin as [->|Hin]; [repeat constructor|]).
           by apply elem_of_nil in Hin.
Qed.

(** X19.  What the handler sees of the bookkeeping on a submitted job:
    the copy it is given at attempt number [i], counting from zero,
    holds the payload of the test case as it was submitted, the time
    the worker started under ["_processing_start_time"], and [i], the
    number of transient failures so far, under ["_rate_limit_count"].
    There is one copy per attempt made. *)
Theorem handler_sees_the_retry_count raw id fs start script :
  raw !! "id" = Some id -> raw !! "function" = Some (PList fs) ->
  let cs := copies (trace (multi_threaded_inference start script (submit raw)).2) in
  length cs = Nat.min (length script) (S (length (transient_prefix script)))
  /\ forall i c, cs !! i = Some c ->
       c !! "_rate_limit_count" = Some (PInt (Z.of_nat i))
       /\ c !! "_processing_start_time" = Some (PFloat start)
       /\ forall k, k ∉ bookkeeping_keys -> c !! k = raw !! k.
Proof.
  intros Hid Hf. simpl.
  rewrite (multi_threaded_inference_loop _ _ _ fs)
    by (rewrite submit_function; exact Hf).
  pose proof (job_ready_initial id start _ (job_ready_submit id raw Hid)) as R.
  destruct (transient_prefix_split script) as (Hfails & tail & E & Ht).
  set (fails := transient_prefix script) in *.
  assert (Hrun : retry_loop script (initial_job_state start (submit raw))
                 = retry_loop tail
                     (after_failures id fails (initial_job_state start (submit raw)))).
  { rewrite E at 1. apply (retry_loop_failures id _ _ _ R Hfails). }
  rewrite Hrun. clear Hrun.
  assert (Hlen : length script = (length fails + length tail)%nat).
  { rewrite E at 1. apply length_app. }
  destruct (after_failures_spec id fails _ R Hfails) as (R' & _ & _).
  destruct (after_failures_counters id fails (initial_job_state start (submit raw))
              Hfails) as (C & _ & T & _).
  assert (T0 : test_case (initial_job_state start (submit raw)) !! "_rate_limit_count"
               = Some (PInt (rate_limit_count (initial_job_state start (submit raw)))))
    by (unfold initial_job_state; simpl; by simplify_map_eq).
  specialize (T T0).
  destruct (copies_after_failures id fails _ Hfails T0) as (cs & Ec & L & P).
  change (copies (trace (initial_job_state start (submit raw)))) with
    (@nil (gmap string pyval)) in Ec. simpl app in Ec.
  change (rate_limit_count (initial_job_state start (submit raw))) with 0%Z in C, P.
  set (st := after_failures id fails (initial_job_state start (submit raw))) in *.
  assert (Hpay : forall k, k ∉ bookkeeping_keys ->
            k ∉ ["_rate_limit_count"; "_last_retry_time"; "_last_poke_time";
                 "_stall_event"; "_increment_rate_limit"; "_get_active_count"]).
  { intros k Hk Hin. apply Hk. unfold bookkeeping_keys.
    repeat (apply elem_of_cons in Hin as [->|Hin]; [repeat constructor|]).
    by apply elem_of_nil in Hin. }
  assert (Hstart : "_processing_start_time"
            ∉ ["_rate_limit_count"; "_last_retry_time"; "_last_poke_time";
               "_stall_event"; "_increment_rate_limit"; "_get_active_count"]).
  { intros Hin. repeat (apply elem_of_cons in Hin as [Hin|Hin]; [discriminate|]).
    by apply elem_of_nil in Hin. }
  assert (Hraw : forall k, k ∉ bookkeeping_keys ->
            test_case (initial_job_state start (submit raw)) !! k = raw !! k).
  { intros k Hk. unfold initial_job_state, submit. simpl.
    rewrite !lookup_insert_ne; [reflexivity|..]; intros <-; apply Hk;
      unfold bookkeeping_keys; repeat constructor. }
  assert (Hs0 : test_case (initial_job_state start (submit raw))
                !! "_processing_start_time" = Some (PFloat start))
    by (unfold initial_job_state; simpl; by simplify_map_eq).
  assert (Hcs : forall i c, cs !! i = Some c ->
            c !! "_rate_limit_count" = Some (PInt (Z.of_nat i))
            /\ c !! "_processing_start_time" = Some (PFloat start)
            /\ forall k, k ∉ bookkeeping_keys -> c !! k = raw !! k).
  { intros i c Hi. destruct (P i c Hi) as [P1 P2]. split; [exact P1|]. split.
    - rewrite (P2 _ Hstart). exact Hs0.
    - intros k Hk. rewrite (P2 k (Hpay k Hk)). apply Hraw. exact Hk. }
  assert (Hlast : forall i c, (cs ++ [job_copy (test_case st)]) !! i = Some c ->
            c !! "_rate_limit_count" = Some (PInt (Z.of_nat i))
            /\ c !! "_processing_start_time" = Some (PFloat start)
            /\ forall k, k ∉ bookkeeping_keys -> c !! k = raw !! k).
  { intros i c Hi. apply lookup_app_Some in Hi as [Hi|[Hge Hi]]; [exact (Hcs i c Hi)|].
    apply list_lookup_singleton_Some in Hi as [Hi <-].
    assert (i = length fails) as -> by lia.
    assert (Hfr : forall k,
              k ∉ ["_rate_limit_count"; "_last_retry_time"; "_last_poke_time";
                   "_stall_event"; "_increment_rate_limit"; "_get_active_count"] ->
              test_case st !! k = test_case (initial_job_state start (submit raw)) !! k).
    { intros k Hk. subst st. clear - Hk Hfails.
      generalize (initial_job_state start (submit raw)) as s.
      induction Hfails as [|a fails Ha _ IH]; intros s; [reflexivity|].
      apply terminal_false in Ha as (e & Ha & _).
      unfold after_failures. simpl. unfold after_attempt at 2. rewrite Ha.
      unfold after_failures in IH. rewrite IH. apply after_transient_lookup.
      intros Hin. apply Hk.
      repeat (apply elem_of_cons in Hin as [->|Hin]; [repeat constructor|]).
      by apply elem_of_nil in Hin. }
    split; [|split].
    - rewrite job_copy_lookup, T, C; [reflexivity|].
      intros Hk. repeat (apply elem_of_cons in Hk as [Hk|Hk]; [discriminate|]).
      by apply elem_of_nil in Hk.
    - rewrite job_copy_lookup, (Hfr _ Hstart); [exact Hs0|].
      intros Hk. repeat (apply elem_of_cons in Hk as [Hk|Hk]; [discriminate|]).
      by apply elem_of_nil in Hk.
    - intros k Hk. rewrite job_copy_lookup, (Hfr k (Hpay k Hk)); [apply Hraw; exact Hk|].
      intros Hin. apply (Hpay k Hk). do 3 right. exact Hin. }
  destruct tail as [|a rest].
  - simpl retry_loop. cbn [snd]. rewrite Ec. simpl in Hlen.
    split; [rewrite L; lia | exact Hcs].
  - simpl in Hlen. unfold terminal in Ht. destruct (att_outcome a) as [result metadata|e] eqn:Ha.
    + rewrite (retry_loop_success id a rest st result metadata R' Ha).
      cbn [snd with_trace trace]. rewrite copies_app, Ec. simpl copies at 2.
      split; [rewrite length_app, L; simpl; lia | exact Hlast].
    + apply negb_true_iff in Ht.
      rewrite (retry_loop_fatal id a rest st e R' Ha Ht).
      cbn [snd with_trace trace]. rewrite copies_app, Ec.
      assert (Hf' : copies (EInfer (job_copy (test_case st)) :: fatal_log id e)
                    = [job_copy (test_case st)])
        by (unfold fatal_log; destruct (is_content_filter e); reflexivity).
      rewrite Hf'.
      split; [rewrite length_app, L; simpl; lia | exact Hlast].
Qed.

Lemma handler_sees_the_retry_count_witness :
  length (copies (trace (multi_threaded_inference 0
                           [example_attempt (Failure rate_limited);
                            example_attempt answer]
                           (submit example_case)).2)) = 2%nat.
Proof.
  exact (proj1 (handler_sees_the_retry_count example_case (PStr "simple_0") [] 0
                  [example_attempt (Failure rate_limited); example_attempt answer]
                  eq_refl eq_refl)).
Defined.
